(** * BloomFilterHW.py: a Bloom filter over a bit vector and a chained hash

    Shallow embedding of [src/BloomFilterHW.py] and the properties of its
    specification.

    - [Py]: the part of the Python runtime the class relies on: exceptions,
      the arithmetic of [int] and of binary64 [float] ([/], [-], [**],
      [float()], [int()], [%]).  The C library's [pow], which CPython calls
      for the generic case of [**], is a parameter.
    - [Binary64]: the real number a float stands for, and the floats that
      are roundings of a real number; [Bracket]: enclosures of real powers by
      integer arithmetic, and the accuracy of a power function.
    - [BitVector]: the bit array the class stores its bits in.
    - [BloomFilter]: the class itself, method by method, over a hash function
      [BitHash] that is a parameter, and the demonstration [__main].
    - [ClosedForm]: the sizing formula of the specification, over the real
      numbers. *)

From Stdlib Require Import ZArith Floats Lia String Ascii.
From Stdlib Require Reals Lra.
From stdpp Require Import base list.

Local Open Scope Z_scope.

(** ** The Python runtime *)

Module Py.

(** The exceptions the modelled code can raise. *)
Inductive exn : Type :=
| ZeroDivisionError
| OverflowError
| ValueError
| TypeError
| OSError
| UnicodeDecodeError.

(** An evaluation either returns a value or raises. *)
Inductive outcome (A : Type) : Type :=
| Return (a : A)
| Raise (e : exn).
Arguments Return {A} a.
Arguments Raise {A} e.

Definition bind {A B : Type} (m : outcome A) (k : A -> outcome B) : outcome B :=
  match m with
  | Return a => k a
  | Raise e => Raise e
  end.

(** [a % b] on [int]: the sign follows the divisor, as [Z.modulo]; a zero
    divisor raises. *)
Definition int_mod (a b : Z) : outcome Z :=
  if decide (b = 0) then Raise ZeroDivisionError else Return (a mod b).

(** A [float] or a [complex].  Complex arithmetic is not modelled: a complex
    intermediate stays complex until [int()] rejects it (CPython may raise
    earlier, inside the complex power or division; it returns no value
    either way). *)
Inductive number : Type :=
| Float (f : float)
| Complex.

(** [float(z)], also the implicit conversion of an [int] operand of [/] and
    [**]: round to nearest even, [OverflowError] beyond the binary64 range. *)
Definition float_of_int (z : Z) : outcome float :=
  let f := SF2Prim (binary_normalize prec emax z 0 false) in
  if is_infinity f then Raise OverflowError else Return f.

(** [a / b] on floats. *)
Definition float_truediv (a b : float) : outcome float :=
  if (b =? 0)%float then Raise ZeroDivisionError else Return (a / b)%float.

(** The magnitude [m * 2^e] of a finite float, truncated to an integer. *)
Definition trunc_mag (m : positive) (e : Z) : Z := Z.shiftl (Z.pos m) e.

(** [int(f)]: truncation towards zero. *)
Definition int_of_float (f : float) : outcome Z :=
  match Prim2SF f with
  | S754_zero _ => Return 0
  | S754_infinity _ => Raise OverflowError
  | S754_nan => Raise ValueError
  | S754_finite s m e =>
      Return (if s then - trunc_mag m e else trunc_mag m e)
  end.

(** [w == floor(w)]. *)
Definition is_integer (w : float) : bool :=
  match Prim2SF w with
  | S754_zero _ => true
  | S754_infinity _ => true
  | S754_nan => false
  | S754_finite _ m e =>
      if decide (0 <= e) then true
      else bool_decide (Z.pos m mod 2 ^ (- e) = 0)
  end.

(** [DOUBLE_IS_ODD_INTEGER(w)], that is [fmod(fabs(w), 2.0) == 1.0]. *)
Definition is_odd_integer (w : float) : bool :=
  match Prim2SF w with
  | S754_finite _ m e => is_integer w && Z.odd (trunc_mag m e)
  | _ => false
  end.

(** [copysign(0.0, v)]. *)
Definition copysign_zero (v : float) : float :=
  if get_sign v then (- 0)%float else 0%float.

Section Pow.

(** The C library's [pow].  [float_pow] calls it only on a finite positive
    base other than 1 and a finite nonzero exponent, and turns an infinite
    result into [OverflowError]. *)
Variable libm_pow : float -> float -> float.

(** [v ** w] on floats, case by case as CPython's [float_pow]. *)
Definition float_pow (v w : float) : outcome number :=
  if (w =? 0)%float then Return (Float 1)
  else if is_nan v then Return (Float v)
  else if is_nan w then Return (Float (if (v =? 1)%float then 1%float else w))
  else if is_infinity w then
    let a := abs v in
    if (a =? 1)%float then Return (Float 1)
    else if Bool.eqb (0 <? w)%float (1 <? a)%float then Return (Float (abs w))
    else Return (Float 0)
  else if is_infinity v then
    let odd := is_odd_integer w in
    if (0 <? w)%float then Return (Float (if odd then v else abs v))
    else Return (Float (if odd then copysign_zero v else 0%float))
  else if (v =? 0)%float then
    if (w <? 0)%float then Raise ZeroDivisionError
    else Return (Float (if is_odd_integer w then v else 0%float))
  else if (v <? 0)%float && negb (is_integer w) then Return Complex
  else
    let negate := (v <? 0)%float && is_odd_integer w in
    let a := if (v <? 0)%float then (- v)%float else v in
    if (a =? 1)%float then Return (Float (if negate then (- 1)%float else 1%float))
    else
      let x := libm_pow a w in
      if is_infinity x then Raise OverflowError
      else Return (Float (if negate then (- x)%float else x)).

(** [base ** w] where [base] may already be complex. *)
Definition number_pow (base : number) (w : float) : outcome number :=
  match base with
  | Float v => float_pow v w
  | Complex => Return Complex
  end.

End Pow.

(** [1.0 - x]. *)
Definition one_minus (x : number) : number :=
  match x with
  | Float f => Float (1 - f)%float
  | Complex => Complex
  end.

(** [a / d] for a float [a]. *)
Definition float_over (a : float) (d : number) : outcome number :=
  match d with
  | Float f => bind (float_truediv a f) (fun q => Return (Float q))
  | Complex => Return Complex
  end.

(** [int(x)]. *)
Definition int_of_number (x : number) : outcome Z :=
  match x with
  | Float f => int_of_float f
  | Complex => Raise TypeError
  end.

(** An [int] operand of [/], as the exact number it is. *)
Definition int_operand (z : Z) : spec_float :=
  match z with
  | 0 => S754_zero false
  | Z.pos m => S754_finite false m 0
  | Z.neg m => S754_finite true m 0
  end.

(** [a / b] on [int], as CPython's [long_true_divide]: operands below 2^53
    are converted, exactly, and divided as floats; otherwise the exact
    quotient is rounded once, to nearest even, with [OverflowError] when it
    is beyond the binary64 range. *)
Definition int_truediv (a b : Z) : outcome float :=
  if decide (b = 0) then Raise ZeroDivisionError
  else if decide (Z.abs a < 2 ^ 53 /\ Z.abs b < 2 ^ 53) then
    Return (SF2Prim (binary_normalize prec emax a 0 false) /
            SF2Prim (binary_normalize prec emax b 0 false))%float
  else
    let q := SF2Prim (SFdiv prec emax (int_operand a) (int_operand b)) in
    if is_infinity q then Raise OverflowError else Return q.

End Py.

Import Py.

Notation "'let*' x ':=' m 'in' k" := (Py.bind m (fun x => k))
  (at level 10, x name, m at level 100, k at level 200).

(** ** The real numbers behind binary64 *)

(** What a float is worth as a real number, and what it means for a float
    to be the rounding of one. *)
Module Binary64.
Import Reals.

(** [2^e]. *)
Definition bpow (e : Z) : R := powerRZ 2 e.

(** The number [m * 2^e]. *)
Definition dyadic (m e : Z) : R := (IZR m * bpow e)%R.

(** The real number a float stands for; 0 for the infinities and nan. *)
Definition SF2R (x : spec_float) : R :=
  match x with
  | S754_finite s m e => dyadic (if s then Z.neg m else Z.pos m) e
  | _ => 0%R
  end.

Definition F2R (f : float) : R := SF2R (Prim2SF f).

(** A positive number that is a binary64 float. *)
Definition representable (B : R) : Prop :=
  exists M E, SpecFloat.bounded prec emax M E = true /\ B = dyadic (Z.pos M) E.

(** A float that is zero or finite, of magnitude at most [B]. *)
Definition at_most (r : spec_float) (B : R) : Prop :=
  match r with
  | S754_zero _ => True
  | S754_finite _ m e => (dyadic (Z.pos m) e <= B)%R
  | _ => False
  end.

(** A float that is infinite, or finite of magnitude at least [B]. *)
Definition at_least (r : spec_float) (B : R) : Prop :=
  match r with
  | S754_infinity _ => True
  | S754_finite _ m e => (B <= dyadic (Z.pos m) e)%R
  | _ => False
  end.

(** A valid float of sign [s] that is not nan. *)
Definition signed (s : bool) (r : spec_float) : Prop :=
  match r with
  | S754_zero s' | S754_infinity s' => s' = s
  | S754_finite s' m e => s' = s /\ SpecFloat.bounded prec emax m e = true
  | S754_nan => False
  end.

(** What a shift register says of the number [x] it holds at exponent [e]. *)
Definition holds (mrs : shr_record) (e : Z) (x : R) : Prop :=
  0 <= shr_m mrs /\
  (dyadic (shr_m mrs) e <= x < dyadic (shr_m mrs + 1) e)%R /\
  (shr_r mrs || shr_s mrs = true -> (dyadic (shr_m mrs) e < x)%R).

(** The float of mantissa [m] (at most [2^53]) and exponent [e]. *)
Definition fit (s : bool) (m e : Z) : spec_float :=
  match m with
  | 0 => S754_zero s
  | Z.pos p =>
      if decide (m = 2 ^ 53) then
        if e + 1 <=? 971 then S754_finite s (Z.to_pos (2 ^ 52)) (e + 1)
        else S754_infinity s
      else
        if e <=? 971 then S754_finite s p e else S754_infinity s
  | Z.neg _ => S754_nan
  end.

(** A float that is zero or finite and positive. *)
Definition not_negative (f : float) : Prop :=
  match Prim2SF f with
  | S754_zero _ | S754_finite false _ _ => True
  | _ => False
  end.

(** A float that is finite and positive. *)
Definition finite_pos (f : float) : Prop :=
  match Prim2SF f with
  | S754_finite false _ _ => True
  | _ => False
  end.

(** [0 <= f <= 1]. *)
Definition in_unit (f : float) : Prop :=
  (0 <=? f)%float = true /\ (f <=? 1)%float = true.

(** A power function whose values on a base in (0, 1) and a positive
    exponent are in [0, 1], as those of the mathematical function are. *)
Definition pow_in_unit (libm_pow : float -> float -> float) : Prop :=
  forall v w,
    (0 <? v)%float = true -> (v <? 1)%float = true -> (0 <? w)%float = true ->
    in_unit (libm_pow v w).

End Binary64.

Import Binary64.

(** ** Enclosures of powers *)

(** Interval arithmetic on pairs of a mantissa and an exponent, to enclose a
    power with a rational exponent, and the accuracy of a power function. *)
Module Bracket.
Import Reals.

(** The number a pair of a mantissa and an exponent stands for. *)
Definition dval (b : Z * Z) : R := dyadic (fst b) (snd b).

(** A pair cut to [P] digits: not above the number, and not below it. *)
Definition chop_down (P : Z) (b : Z * Z) : Z * Z :=
  let s := Z.log2 (fst b) + 1 - P in
  if 0 <? s then (fst b / 2 ^ s, snd b + s) else b.

Definition chop_up (P : Z) (b : Z * Z) : Z * Z :=
  let s := Z.log2 (fst b) + 1 - P in
  if 0 <? s then (fst b / 2 ^ s + 1, snd b + s) else b.

Definition dmul (a b : Z * Z) : Z * Z := (fst a * fst b, snd a + snd b).

(** A lower and an upper bound of the [n]-th power, by squaring, on [P]
    digits. *)
Fixpoint pow_down (P : Z) (b : Z * Z) (n : positive) : Z * Z :=
  match n with
  | xH => b
  | xO n' => let y := pow_down P b n' in chop_down P (dmul y y)
  | xI n' => let y := pow_down P b n' in
             chop_down P (dmul b (chop_down P (dmul y y)))
  end.

Fixpoint pow_up (P : Z) (b : Z * Z) (n : positive) : Z * Z :=
  match n with
  | xH => b
  | xO n' => let y := pow_up P b n' in chop_up P (dmul y y)
  | xI n' => let y := pow_up P b n' in
             chop_up P (dmul b (chop_up P (dmul y y)))
  end.

(** A test that is true only if [a] is less than [b]. *)
Definition dlt (a b : Z * Z) : bool :=
  let d := snd b - snd a in
  if Z.abs d <=? 4096 then
    if 0 <=? d then fst a <? fst b * 2 ^ d else fst a * 2 ^ (- d) <? fst b
  else
    (0 <? fst b) && (Z.log2 (fst a) + 1 + snd a <=? Z.log2 (fst b) + snd b).

(** [x] to the power [n]. *)
Definition Rpow (x : R) (n : positive) : R := powerRZ x (Z.pos n).

(** [f] is one of the two floats around the positive number [x], or [x]
    itself: it is on the same side of every float as [x] is. *)
Definition faithful (x : R) (f : float) : Prop :=
  finite_pos f /\
  forall B, representable B ->
    ((B <= x)%R -> (B <= F2R f)%R) /\ ((x <= B)%R -> (F2R f <= B)%R).


(** A power function that is faithful, or nearest, for one base and one
    exponent. *)
Definition pow_faithful_at (libm_pow : float -> float -> float) (v w : float) : Prop :=
  faithful (Rpower (F2R v) (F2R w)) (libm_pow v w).


End Bracket.

Import Bracket.

(** ** The bit vector *)

Module BitVector.

(** The class [BitVector] is imported, not part of the repository: its
    objects are lists of bits. *)
Abbreviation t := (list bool).

(** Modelled from the spec: [BitVector(size = n)] and the item access of the
    imported class [BitVector], as the "fixed-length array of bits, length =
    capacityBits" with constant-time get and set of sections 3 and 9: a list
    of [n] bits that starts all zero, read and written at the positions
    [0 <= i < length]; a negative length and a position outside the list
    raise. *)
Definition new (n : Z) : outcome t :=
  if decide (0 <= n) then Return (replicate (Z.to_nat n) false)
  else Raise ValueError.

Definition in_range (v : t) (i : Z) : Prop := 0 <= i < Z.of_nat (length v).

(** [v[i]]. *)
Definition getitem (v : t) (i : Z) : outcome bool :=
  if decide (0 <= i) then
    match v !! Z.to_nat i with
    | Some b => Return b
    | None => Raise ValueError
    end
  else Raise ValueError.

(** [v[i] = b]. *)
Definition setitem (v : t) (i : Z) (b : bool) : outcome t :=
  if decide (in_range v i) then Return (<[Z.to_nat i := b]> v)
  else Raise ValueError.

(** The number of bits that are 1. *)
Fixpoint count (v : t) : Z :=
  match v with
  | [] => 0
  | b :: v' => (if b then 1 else 0) + count v'
  end.

(** The positions of the bits that are 1, in increasing order. *)
Fixpoint ones (v : t) : list Z :=
  match v with
  | [] => []
  | b :: v' => (if b then [0] else []) ++ map Z.succ (ones v')
  end.

End BitVector.

(** ** The class [BloomFilter] *)

Module BloomFilter.

(** The attributes [__init__] creates. *)
Record t : Type := Self {
  __size : Z;
  __bv : BitVector.t;
  __numKeys : Z;
  __numHashes : Z;
  __maxFalsePositive : float;
  __numBitsSet : Z
}.

(** An access to the bit vector: the position read or written. *)
Inductive access : Type :=
| Read (i : Z)
| Write (i : Z).

Definition position (a : access) : Z :=
  match a with Read i => i | Write i => i end.

(** The positions read, in order. *)
Fixpoint reads (tr : list access) : list Z :=
  match tr with
  | [] => []
  | Read i :: tr' => i :: reads tr'
  | Write _ :: tr' => reads tr'
  end.

(** What a method call leaves behind: its outcome, the object afterwards
    (also when it raised) and the accesses it made to the bit vector. *)
Record run (A : Type) : Type := Run {
  result : outcome A;
  final : t;
  accesses : list access
}.
Arguments Run {A} result final accesses.
Arguments result {A} r.
Arguments final {A} r.
Arguments accesses {A} r.

(** A method body: a computation on [self]. *)
Definition method (A : Type) : Type := t -> run A.

Definition ret {A : Type} (a : A) : method A :=
  fun self => Run (Return a) self [].

Definition and_then {A B : Type} (m : method A) (k : A -> method B) : method B :=
  fun self =>
    let r := m self in
    match result r with
    | Return a =>
        let r' := k a (final r) in
        Run (result r') (final r') (accesses r ++ accesses r')
    | Raise e => Run (Raise e) (final r) (accesses r)
    end.

Notation "'do*' x ':=' m 'in' k" := (and_then m (fun x => k))
  (at level 10, x name, m at level 100, k at level 200).

(** Evaluation of an expression that does not touch [self]. *)
Definition eval {A : Type} (o : outcome A) : method A :=
  fun self => Run o self [].

(** [self.attr]. *)
Definition attr {A : Type} (f : t -> A) : method A :=
  fun self => Run (Return (f self)) self [].

(** [self.__bv[i]]. *)
Definition bv_get (i : Z) : method bool :=
  fun self => Run (BitVector.getitem (__bv self) i) self [Read i].

(** [self.__bv[i] = b]. *)
Definition bv_set (i : Z) (b : bool) : method unit :=
  fun self =>
    match BitVector.setitem (__bv self) i b with
    | Return v =>
        Run (Return tt)
            (Self (__size self) v (__numKeys self) (__numHashes self)
                  (__maxFalsePositive self) (__numBitsSet self))
            [Write i]
    | Raise e => Run (Raise e) self [Write i]
    end.

(** [self.__numBitsSet += 1]. *)
Definition count_bit : method unit :=
  fun self =>
    Run (Return tt)
        (Self (__size self) (__bv self) (__numKeys self) (__numHashes self)
              (__maxFalsePositive self) (__numBitsSet self + 1))
        [].

(** ** The text file and the output of [__main] *)

(** An open text file, as the results of the calls of [readline()] to come:
    each returns a line with its newline or raises ([OSError] when the read
    fails, [UnicodeDecodeError] when the bytes do not decode); after them the
    end of the file. *)
Abbreviation file := (list (outcome string)).

(** [fin.readline()]: the next result, the empty string at the end of the
    file. *)
Definition readline (fin : file) : outcome string * file :=
  match fin with
  | [] => (Return EmptyString, [])
  | line :: fin' => (line, fin')
  end.

(** The next [n] calls of [readline()] return. *)
Definition readable (n : nat) (fin : file) : Prop :=
  Forall (fun line => exists key, line = Return key) (take n fin).

(** What [__main] prints, line by line. *)
Inductive printed : Type :=
| ProjectedRate (rate : number)
| Missing (count : Z)
| FalselyFound (count : Z)
| ActualRate (rate : float).

(** A run of the program: how it ended and what it printed until then. *)
Record process : Type := Process {
  status : outcome unit;
  stdout : list printed
}.

Section Class.

(** The C library's power function behind [**]. *)
Variable libm_pow : float -> float -> float.

(** [BitHash(key, seed)], imported from [BitHash.py]: some function of the
    key and the seed. *)
Variable BitHash : string -> Z -> Z.

(** [__bitsNeeded(numKeys, numHashes, maxFalsePositive)]. *)
Definition __bitsNeeded (numKeys numHashes : Z) (maxFalsePositive : float) : outcome Z :=
  (* phi = (1.0- (maxFalsePositive**(1.0/numHashes))) *)
  let* k := float_of_int numHashes in
  let* w := float_truediv 1 k in
  let* pw := float_pow libm_pow maxFalsePositive w in
  let phi := one_minus pw in
  (* nBits = float(numHashes)/(1.0-(phi**(1.0/numKeys))) *)
  let* fk := float_of_int numHashes in
  let* n := float_of_int numKeys in
  let* w' := float_truediv 1 n in
  let* q := number_pow libm_pow phi w' in
  let* nBits := float_over fk (one_minus q) in
  (* return int(nBits) *)
  int_of_number nBits.

(** [BloomFilter(numKeys, numHashes, maxFalsePositive)]. *)
Definition __init__ (numKeys numHashes : Z) (maxFalsePositive : float) : outcome t :=
  let* size := __bitsNeeded numKeys numHashes maxFalsePositive in
  let* bv := BitVector.new size in
  Return (Self size bv numKeys numHashes maxFalsePositive 0).

(** The body of the loop of [insert], [iterations] more times from [seed]. *)
Fixpoint insert_loop (key : string) (iterations : nat) (seed : Z) : method unit :=
  match iterations with
  | O => ret tt
  | S rest =>
      let h := BitHash key seed in
      do* size := attr __size in
      do* hv := eval (int_mod h size) in
      do* bit := bv_get hv in
      do* _ := (if bit then ret tt
                else do* _ := bv_set hv true in count_bit) in
      insert_loop key rest h
  end.

(** [insert(key)]. *)
Definition insert (key : string) : method unit :=
  do* k := attr __numHashes in
  insert_loop key (Z.to_nat k) 0.

(** The body of the loop of [find]; a [return] inside it ends the method. *)
Fixpoint find_loop (key : string) (iterations : nat) (seed : Z) : method bool :=
  match iterations with
  | O => ret true
  | S rest =>
      let h := BitHash key seed in
      do* size := attr __size in
      do* hv := eval (int_mod h size) in
      do* bit := bv_get hv in
      if bit then find_loop key rest h else ret false
  end.

(** [find(key)]. *)
Definition find (key : string) : method bool :=
  do* k := attr __numHashes in
  find_loop key (Z.to_nat k) 0.

(** [falsePositiveRate()]. *)
Definition falsePositiveRate : method number :=
  do* set := attr __numBitsSet in
  do* a := eval (float_of_int set) in
  do* size := attr __size in
  do* b := eval (float_of_int size) in
  do* ratio := eval (float_truediv a b) in
  do* k := attr __numHashes in
  do* w := eval (float_of_int k) in
  eval (float_pow libm_pow ratio w).

(** [numBitsSet()]. *)
Definition numBitsSet : method Z := attr __numBitsSet.

(** A call of one of the public methods. *)
Inductive call : Type :=
| Insert (key : string)
| Find (key : string)
| FalsePositiveRate
| NumBitsSet.

(** The object after a call, whatever the call returned or raised. *)
Definition after (c : call) (self : t) : t :=
  match c with
  | Insert key => final (insert key self)
  | Find key => final (find key self)
  | FalsePositiveRate => final (falsePositiveRate self)
  | NumBitsSet => final (numBitsSet self)
  end.

(** The objects a program can hold: what the constructor returned, after any
    number of calls. *)
Inductive reachable : t -> Prop :=
| reachable_init numKeys numHashes maxFalsePositive self :
    __init__ numKeys numHashes maxFalsePositive = Return self ->
    reachable self
| reachable_call c self :
    reachable self -> reachable (after c self).

(** The object after a sequence of calls, each on what the one before left. *)
Definition after_all (calls : list call) (self : t) : t :=
  fold_left (fun s c => after c s) calls self.

(** ** The index derivation of the specification (section 4.2) *)

(** [h_0 = BitHash(key, seed)], [h_(i+1) = BitHash(key, h_i)]: the raw
    outputs of [count] chained calls. *)
Fixpoint hashChain (key : string) (count : nat) (seed : Z) : list Z :=
  match count with
  | O => []
  | S rest => let h := BitHash key seed in h :: hashChain key rest h
  end.

(** [index_i = h_i mod capacityBits], for [hashCount] rounds from seed 0. *)
Definition hashIndices (key : string) (self : t) : list Z :=
  map (fun h => h mod __size self) (hashChain key (Z.to_nat (__numHashes self)) 0).

(** The bit at a position, 0 outside the vector. *)
Definition bit (self : t) (i : Z) : bool :=
  match BitVector.getitem (__bv self) i with
  | Return b => b
  | Raise _ => false
  end.

(** The positions of a list up to and including the first whose bit is 0. *)
Fixpoint upto_first_zero (self : t) (l : list Z) : list Z :=
  match l with
  | [] => []
  | i :: l' => i :: (if bit self i then upto_first_zero self l' else [])
  end.

(** ** The demonstration [__main] *)

(** The loop that inserts the first [numKeys] lines. *)
Fixpoint insert_lines (iterations : nat) (fin : file) : method unit :=
  match iterations with
  | O => ret tt
  | S rest =>
      let (line, fin') := readline fin in
      do* key := eval line in
      do* _ := insert key in
      insert_lines rest fin'
  end.

(** The loop that counts the lines [find] misses; it leaves the file where
    it stopped reading. *)
Fixpoint count_missing (iterations : nat) (fin : file) (countMissing : Z)
  : method (Z * file) :=
  match iterations with
  | O => ret (countMissing, fin)
  | S rest =>
      let (line, fin') := readline fin in
      do* key := eval line in
      do* found := find key in
      count_missing rest fin' (if found then countMissing else countMissing + 1)
  end.

(** The loop that counts the lines [find] finds. *)
Fixpoint count_false_finds (iterations : nat) (fin : file) (countFalseFinds : Z)
  : method Z :=
  match iterations with
  | O => ret countFalseFinds
  | S rest =>
      let (line, fin') := readline fin in
      do* key := eval line in
      do* found := find key in
      count_false_finds rest fin' (if found then countFalseFinds + 1 else countFalseFinds)
  end.

(** [__main()].  [wordlist] is what [open("wordlist.txt")] gives: the file,
    or the exception of a file that cannot be opened.  The file stays as it
    is while the program runs: the two calls of [open] give the same. *)
Definition __main (wordlist : outcome file) : process :=
  let numKeys := 100000 in
  let numHashes := 4 in
  let maxFalse := 0x1.999999999999ap-5%float (* 0.05 *) in
  match __init__ numKeys numHashes maxFalse with
  | Raise e => Process (Raise e) []
  | Return bf =>
  match wordlist with
  | Raise e => Process (Raise e) []
  | Return fin =>
  let inserted := insert_lines (Z.to_nat numKeys) fin bf in
  match result inserted with
  | Raise e => Process (Raise e) []
  | Return _ =>
  let projected := falsePositiveRate (final inserted) in
  match result projected with
  | Raise e => Process (Raise e) []
  | Return rate =>
  let out1 := [ProjectedRate rate] in
  match wordlist with
  | Raise e => Process (Raise e) out1
  | Return fin =>
  let again := count_missing (Z.to_nat numKeys) fin 0 (final projected) in
  match result again with
  | Raise e => Process (Raise e) out1
  | Return (countMissing, fin) =>
  let out2 := out1 ++ [Missing countMissing] in
  let fresh := count_false_finds (Z.to_nat numKeys) fin 0 (final again) in
  match result fresh with
  | Raise e => Process (Raise e) out2
  | Return countFalseFinds =>
  let out3 := out2 ++ [FalselyFound countFalseFinds] in
  match int_truediv countFalseFinds numKeys with
  | Raise e => Process (Raise e) out3
  | Return actualFalsePositiveRate =>
      Process (Return tt) (out3 ++ [ActualRate actualFalsePositiveRate])
  end end end end end end end end.

End Class.

(** The positions written, in order. *)
Fixpoint writes (tr : list access) : list Z :=
  match tr with
  | [] => []
  | Read _ :: tr' => writes tr'
  | Write i :: tr' => i :: writes tr'
  end.

(** The number of calls of [insert] in a sequence of calls. *)
Fixpoint inserts (calls : list call) : Z :=
  match calls with
  | [] => 0
  | Insert _ :: calls' => 1 + inserts calls'
  | _ :: calls' => inserts calls'
  end.

(** The state the data model of the specification describes: a positive
    capacity and a bit array of that length. *)
Definition ready (self : t) : Prop :=
  0 < __size self /\ Z.of_nat (length (__bv self)) = __size self.

(** The object after [self.__bv[i] = 1] and [self.__numBitsSet += 1]. *)
Definition set_bit (i : Z) (self : t) : t :=
  Self (__size self) (<[Z.to_nat i := true]> (__bv self)) (__numKeys self)
       (__numHashes self) (__maxFalsePositive self) (__numBitsSet self + 1).

(** [later] is [earlier] with more bits set: the same parameters, the same
    length, every bit of [earlier], and a counter that moved with the bits. *)
Definition extends (earlier later : t) : Prop :=
  __size later = __size earlier /\
  __numKeys later = __numKeys earlier /\
  __numHashes later = __numHashes earlier /\
  __maxFalsePositive later = __maxFalsePositive earlier /\
  length (__bv later) = length (__bv earlier) /\
  (forall i, bit earlier i = true -> bit later i = true) /\
  __numBitsSet later - BitVector.count (__bv later) =
    __numBitsSet earlier - BitVector.count (__bv earlier).

(** The invariant of the data model: the bit array has [__size] bits, and the
    counter is the number of them that are 1. *)
Definition counted (self : t) : Prop :=
  Z.of_nat (length (__bv self)) = __size self /\
  __numBitsSet self = BitVector.count (__bv self).

(** An access inside the bit array. *)
Definition in_bounds (self : t) (a : access) : Prop :=
  0 <= position a < __size self.

(** ** A concrete environment, to run the model on examples *)

(** A hash in the style of [BitHash.py] (rotate, xor with a table entry, keep
    64 bits), over a stand-in table. *)
Definition sampleBits (c : ascii) : Z :=
  (Z.of_N (N_of_ascii c) * 11400714819323198485) mod 2 ^ 64.

Fixpoint sampleHash (s : string) (h : Z) : Z :=
  match s with
  | EmptyString => h
  | String c s' =>
      sampleHash s'
        (Z.land (Z.lxor (Z.lor (Z.shiftl h 1) (Z.shiftr h 63)) (sampleBits c))
                (2 ^ 64 - 1))
  end.

(** The correctly rounded power for the exponents 1, 2 and 1/2, where it is
    the base, its square and its square root; nan elsewhere. *)
Definition samplePow (x y : float) : float :=
  if (y =? 1)%float then x
  else if (y =? 2)%float then (x * x)%float
  else if (y =? 0.5)%float then sqrt x
  else nan.

(** The filter [BloomFilter(2, 2, 0.25)] just after its construction: with
    the powers above, six bits. *)
Definition sampleFilter : t :=
  Self 6 (replicate 6 false) 2 2 0.25 0.

(** The filter [BloomFilter(1, 1, float('inf'))] just after its
    construction: no bit at all. *)
Definition degenerateFilter : t :=
  Self 0 [] 1 1 infinity 0.

(** The rate 0.05 of [__main]. *)
Definition demoRate : float := 0x1.999999999999ap-5.

(** The correctly rounded power at the arguments of the examples. *)
Definition roundedPow (x y : float) : float :=
  if (x =? demoRate)%float && (y =? 0.25)%float then
    0x1.e4383e8245268p-2                      (* 0.05 ** 0.25 *)
  else if (x =? 0x1.0de3e0bedd6ccp-1)%float && (y =? 0x1.4f8b588e368f1p-17)%float then
    0x1.ffff2925ffe5dp-1                      (* (1.0 - 0.05 ** 0.25) ** 1e-05 *)
  else if (x =? 0x1.0de3e0bedd6ccp-1)%float && (y =? 0x1.79ca10c924223p-67)%float then
    1                                         (* (1.0 - 0.05 ** 0.25) ** 1e-20 *)
  else if (x =? 0x1.ccccccccccccdp-1)%float && (y =? 0x1p-53)%float then
    1                                         (* 0.9 ** 2.0 ** -53 *)
  else samplePow x y.

(** A coarse power for a base in (0, 1): exact for the exponent 1, and
    elsewhere the limit of the power for a small and for a large exponent. *)
Definition coarsePow (x y : float) : float :=
  if (y =? 1)%float then x else if (y <? 1)%float then 1%float else 0%float.

(** The filter [BloomFilter(1, 1, 0.25)] just after its construction: four
    bits. *)
Definition smallFilter : t := Self 4 (replicate 4 false) 1 1 0.25 0.

End BloomFilter.

Import BloomFilter.

(** ** The sizing formula of the specification (section 4.1) *)

(** The closed form as the specification writes it, over the real numbers. *)
Module ClosedForm.
Import Reals.
Local Open Scope R_scope.

(** [phi = 1 - p^(1/k)]. *)
Definition phi (k : Z) (p : R) : R := 1 - Rpower p (1 / IZR k).

(** [m = k / (1 - phi^(1/n))]. *)
Definition requiredBits (n k : Z) (p : R) : R :=
  IZR k / (1 - Rpower (phi k p) (1 / IZR n)).

(** [capacityBits = floor(m)]. *)
Definition capacityBits (n k : Z) (p : R) : Z := Int_part (requiredBits n k p).

End ClosedForm.

(** ** Facts about the bit vector *)

Section BitVectorFacts.

Implicit Types (v : BitVector.t) (i : Z) (b : bool).

Lemma getitem_Return v i b :
  BitVector.getitem v i = Return b <-> 0 <= i /\ v !! Z.to_nat i = Some b.
Proof.
  unfold BitVector.getitem. destruct (decide (0 <= i)) as [Hi|Hi].
  - destruct (v !! Z.to_nat i) as [b'|] eqn:E; split.
    + intros [= ->]. auto.
    + intros [_ [= ->]]. reflexivity.
    + discriminate.
    + intros [_ [=]].
  - split; [discriminate | intros [? _]; contradiction].
Qed.

Lemma getitem_in_range v i b :
  BitVector.getitem v i = Return b -> BitVector.in_range v i.
Proof.
  intros [Hi Hl]%getitem_Return. apply lookup_lt_Some in Hl.
  unfold BitVector.in_range. lia.
Qed.

Lemma in_range_getitem v i :
  BitVector.in_range v i -> exists b, BitVector.getitem v i = Return b.
Proof.
  intros [Hi Hl]. destruct (lookup_lt_is_Some_2 v (Z.to_nat i)) as [b Hb]; [lia|].
  exists b. apply getitem_Return. auto.
Qed.

Lemma getitem_Raise v i e :
  BitVector.getitem v i = Raise e -> ~ BitVector.in_range v i.
Proof.
  intros He [b Hb]%in_range_getitem. congruence.
Qed.

Lemma setitem_in_range v i b :
  BitVector.in_range v i ->
  BitVector.setitem v i b = Return (<[Z.to_nat i := b]> v).
Proof.
  intros H. unfold BitVector.setitem. destruct (decide _); [reflexivity | contradiction].
Qed.

Lemma getitem_insert_same v i b :
  BitVector.in_range v i ->
  BitVector.getitem (<[Z.to_nat i := b]> v) i = Return b.
Proof.
  intros [Hi Hl]. apply getitem_Return. split; [assumption|].
  apply list_lookup_insert_eq. lia.
Qed.

Lemma getitem_insert_other v i j b :
  0 <= i -> i <> j ->
  BitVector.getitem (<[Z.to_nat i := b]> v) j = BitVector.getitem v j.
Proof.
  intros Hi Hne. unfold BitVector.getitem. destruct (decide (0 <= j)); [|reflexivity].
  rewrite list_lookup_insert_ne; [reflexivity | lia].
Qed.

Lemma count_bounds v : 0 <= BitVector.count v <= Z.of_nat (length v).
Proof.
  induction v as [|[] v IH]; simpl; lia.
Qed.

Lemma count_replicate_false (n : nat) : BitVector.count (replicate n false) = 0.
Proof.
  induction n as [|n IH]; simpl; lia.
Qed.

Lemma count_insert_true v (n : nat) :
  v !! n = Some false ->
  BitVector.count (<[n := true]> v) = BitVector.count v + 1.
Proof.
  revert n. induction v as [|b v IH]; intros [|n] H; simpl in *; try discriminate.
  - injection H as ->. lia.
  - rewrite (IH n H). lia.
Qed.

End BitVectorFacts.

(** ** Facts about the arithmetic *)

Lemma float_of_int_Raise z e : float_of_int z = Raise e -> e = OverflowError.
Proof.
  unfold float_of_int. destruct (is_infinity _); congruence.
Qed.

Lemma float_truediv_Raise a b e :
  float_truediv a b = Raise e -> e = ZeroDivisionError.
Proof.
  unfold float_truediv. destruct (b =? 0)%float; congruence.
Qed.

Lemma float_pow_Raise libm_pow v w e :
  float_pow libm_pow v w = Raise e ->
  e = ZeroDivisionError \/ e = OverflowError.
Proof.
  unfold float_pow.
  repeat match goal with
         | |- context [if ?c then _ else _] => destruct c
         end; intros [= <-]; auto.
Qed.

(** ** Facts about binary64 rounding *)

Section Binary64Facts.

Import Reals Lra.

Implicit Types (m e k d : Z) (x B : R).

Lemma bpow_pos e : (0 < bpow e)%R.
Proof. apply powerRZ_lt. lra. Qed.

Lemma bpow_add a b : bpow (a + b) = (bpow a * bpow b)%R.
Proof. apply powerRZ_add. lra. Qed.

Lemma bpow_IZR k : 0 <= k -> bpow k = IZR (2 ^ k).
Proof.
  intros Hk. unfold bpow. rewrite <- (Z2Nat.id k Hk) at 1.
  rewrite <- pow_powerRZ, pow_IZR, Z2Nat.id by exact Hk. reflexivity.
Qed.

Lemma bpow_le a b : a <= b -> (bpow a <= bpow b)%R.
Proof.
  intros H. replace b with (a + (b - a)) by lia.
  rewrite bpow_add, (bpow_IZR (b - a)) by lia.
  pose proof (bpow_pos a).
  assert (1 <= IZR (2 ^ (b - a)))%R by (apply IZR_le; lia).
  nra.
Qed.

Lemma bpow_lt a b : a < b -> (bpow a < bpow b)%R.
Proof.
  intros H. replace b with (a + (b - a)) by lia.
  rewrite bpow_add, (bpow_IZR (b - a)) by lia.
  pose proof (bpow_pos a).
  assert (2 <= IZR (2 ^ (b - a)))%R.
  { apply IZR_le. change 2 with (2 ^ 1) at 1. apply Z.pow_le_mono_r; lia. }
  nra.
Qed.

Lemma dyadic_shift m e k : 0 <= k -> dyadic (m * 2 ^ k) e = dyadic m (e + k).
Proof.
  intros Hk. unfold dyadic. rewrite mult_IZR, bpow_add, (bpow_IZR k Hk). ring.
Qed.

Lemma dyadic_pow2 k e : 0 <= k -> dyadic (2 ^ k) e = bpow (k + e).
Proof.
  intros Hk. unfold dyadic. rewrite bpow_add, (bpow_IZR k Hk). reflexivity.
Qed.

Lemma dyadic_le m m' e : m <= m' -> (dyadic m e <= dyadic m' e)%R.
Proof.
  intros H. unfold dyadic. apply Rmult_le_compat_r.
  - apply Rlt_le, bpow_pos.
  - apply IZR_le, H.
Qed.

Lemma dyadic_lt m m' e : m < m' -> (dyadic m e < dyadic m' e)%R.
Proof.
  intros H. unfold dyadic. apply Rmult_lt_compat_r.
  - apply bpow_pos.
  - apply IZR_lt, H.
Qed.

Lemma dyadic_lt_inv m m' e : (dyadic m e < dyadic m' e)%R -> m < m'.
Proof.
  intros H. destruct (Z.lt_ge_cases m m') as [|Hge]; [assumption|].
  apply (dyadic_le _ _ e) in Hge. lra.
Qed.


Lemma bpow_1 : bpow 1 = 2%R.
Proof. unfold bpow. rewrite powerRZ_1. reflexivity. Qed.

Lemma dyadic_0 e : dyadic 0 e = 0%R.
Proof. unfold dyadic. ring. Qed.

Lemma dyadic_int m : dyadic m 0 = IZR m.
Proof. unfold dyadic, bpow. rewrite powerRZ_O. ring. Qed.

(** *** The number of digits *)

Lemma digits2_size p : digits2_pos p = Pos.size p.
Proof. induction p as [p IH|p IH|]; cbn; congruence. Qed.

Lemma Zdigits2_log2 m : 0 < m -> Zdigits2 m = Z.log2 m + 1.
Proof.
  destruct m as [|p|p]; try lia. intros _. cbn. rewrite digits2_size.
  destruct p; cbn; lia.
Qed.

Lemma Zdigits2_bounds m :
  0 < m -> 2 ^ (Zdigits2 m - 1) <= m < 2 ^ Zdigits2 m.
Proof.
  intros H. rewrite (Zdigits2_log2 m H).
  replace (Z.log2 m + 1 - 1) with (Z.log2 m) by lia.
  apply Z.log2_spec, H.
Qed.

Lemma Zdigits2_unique m d : 2 ^ (d - 1) <= m < 2 ^ d -> 0 < m -> Zdigits2 m = d.
Proof.
  intros H Hm. rewrite (Zdigits2_log2 m Hm).
  assert (0 < d).
  { destruct (Z.lt_ge_cases 0 d); [assumption|].
    assert (2 ^ d <= 2 ^ 0) by (apply Z.pow_le_mono_r; lia). cbn in *. lia. }
  rewrite (Z.log2_unique m (d - 1)); [lia | lia |].
  replace (Z.succ (d - 1)) with d by lia. exact H.
Qed.

Lemma Zdigits2_nonneg m : 0 <= Zdigits2 m.
Proof. destruct m; cbn; lia. Qed.

Lemma Zdigits2_pos p : Zdigits2 (Z.pos p) = Z.pos (digits2_pos p).
Proof. reflexivity. Qed.

Lemma fexp_eq k : fexp prec emax k = Z.max (k - 53) (-1074).
Proof. reflexivity. Qed.

(** A canonical mantissa has 53 digits, or fewer at the least exponent. *)
Lemma bounded_inv (M : positive) E :
  SpecFloat.bounded prec emax M E = true ->
  -1074 <= E <= 971 /\ Z.pos M < 2 ^ 53 /\ (-1074 < E -> 2 ^ 52 <= Z.pos M).
Proof.
  unfold SpecFloat.bounded, canonical_mantissa. rewrite fexp_eq.
  intros [H1 H2]%andb_prop. apply Z.eqb_eq in H1. apply Z.leb_le in H2.
  change (emax - prec) with 971 in H2.
  pose proof (Zdigits2_bounds (Z.pos M) eq_refl) as Hd. rewrite Zdigits2_pos in Hd.
  set (d := Z.pos (digits2_pos M)) in *.
  split; [lia|]. split.
  - assert (d <= 53) by lia.
    assert (2 ^ d <= 2 ^ 53) by (apply Z.pow_le_mono_r; lia). lia.
  - intros HE. assert (d = 53) as Hd53 by lia. rewrite Hd53 in Hd.
    change (53 - 1) with 52 in Hd. lia.
Qed.

Lemma bounded_intro (M : positive) E :
  -1074 <= E <= 971 -> Z.pos M < 2 ^ 53 -> (-1074 < E -> 2 ^ 52 <= Z.pos M) ->
  SpecFloat.bounded prec emax M E = true.
Proof.
  intros HE Hlt Hge. unfold SpecFloat.bounded, canonical_mantissa. rewrite fexp_eq.
  apply andb_true_intro. split; [|apply Z.leb_le; change (emax - prec) with 971; lia].
  apply Z.eqb_eq.
  pose proof (Zdigits2_bounds (Z.pos M) eq_refl) as Hd. rewrite Zdigits2_pos in Hd.
  set (d := Z.pos (digits2_pos M)) in *.
  assert (d <= 53).
  { destruct (Z.le_gt_cases d 53); [assumption|].
    assert (2 ^ 53 <= 2 ^ (d - 1)) by (apply Z.pow_le_mono_r; lia). lia. }
  destruct (Z.eq_dec E (-1074)) as [->|]; [lia|].
  assert (53 <= d); [|lia].
  destruct (Z.le_gt_cases 53 d); [assumption|].
  assert (2 ^ d <= 2 ^ 52) by (apply Z.pow_le_mono_r; lia). lia.
Qed.

Lemma representable_pos B : representable B -> (0 < B)%R.
Proof.
  intros (M & E & _ & ->). unfold dyadic.
  apply Rmult_lt_0_compat; [apply IZR_lt; lia | apply bpow_pos].
Qed.

Lemma representable_lt_max B : representable B -> (B < bpow 1024)%R.
Proof.
  intros (M & E & Hb & ->). apply bounded_inv in Hb as (HE & HM & _).
  apply Rlt_le_trans with (dyadic (2 ^ 53) E).
  - apply dyadic_lt, HM.
  - rewrite dyadic_pow2 by lia. apply bpow_le. lia.
Qed.

(** *** The shift register *)

Lemma shr_1_eq m (r s : bool) :
  0 <= m ->
  shr_1 {| shr_m := m; shr_r := r; shr_s := s |} =
    {| shr_m := Z.div2 m; shr_r := Z.odd m; shr_s := r || s |}.
Proof. destruct m as [|[p|p|]|p]; intros H; try reflexivity; lia. Qed.

Lemma shr_1_holds mrs e x : holds mrs e x -> holds (shr_1 mrs) (e + 1) x.
Proof.
  destruct mrs as [m r s]. unfold holds. cbn [shr_m shr_r shr_s].
  intros (Hm & Hx & Hstrict). rewrite (shr_1_eq m r s Hm). cbn [shr_m shr_r shr_s].
  pose proof (Z.div2_odd m) as Hdiv.
  assert (0 <= Z.div2 m) as Hq by (apply Z.div2_nonneg, Hm).
  split; [exact Hq|].
  unfold dyadic in *. rewrite bpow_add, bpow_1.
  pose proof (bpow_pos e) as He.
  assert (IZR m = 2 * IZR (Z.div2 m) + IZR (Z.b2z (Z.odd m)))%R as HI.
  { rewrite <- mult_IZR, <- plus_IZR. f_equal. exact Hdiv. }
  rewrite plus_IZR in *. rewrite HI in *.
  destruct (Z.odd m); cbn [Z.b2z orb] in *.
  - split; [nra|]. intros _. nra.
  - split; [nra|]. intros Hrs. specialize (Hstrict Hrs). nra.
Qed.

Lemma iter_shr_holds p : forall mrs e x,
  holds mrs e x -> holds (SpecFloat.iter_pos shr_1 p mrs) (e + Z.pos p) x.
Proof.
  induction p as [p IH|p IH|]; intros mrs e x H; cbn [SpecFloat.iter_pos].
  - replace (e + Z.pos p~1) with (e + 1 + Z.pos p + Z.pos p) by lia.
    apply IH, IH, shr_1_holds, H.
  - replace (e + Z.pos p~0) with (e + Z.pos p + Z.pos p) by lia.
    apply IH, IH, H.
  - apply shr_1_holds, H.
Qed.

Lemma shr_1_m mrs : 0 <= shr_m mrs -> shr_m (shr_1 mrs) = shr_m mrs / 2.
Proof.
  destruct mrs as [m r s]. cbn [shr_m]. intros H. rewrite (shr_1_eq m r s H).
  cbn [shr_m]. apply Z.div2_div.
Qed.

Lemma iter_shr_m p : forall mrs,
  0 <= shr_m mrs -> shr_m (SpecFloat.iter_pos shr_1 p mrs) = shr_m mrs / 2 ^ Z.pos p.
Proof.
  induction p as [p IH|p IH|]; intros mrs H; cbn [SpecFloat.iter_pos].
  - assert (0 <= shr_m (shr_1 mrs)) as H1.
    { rewrite shr_1_m by exact H. apply Z.div_pos; lia. }
    assert (0 <= shr_m (SpecFloat.iter_pos shr_1 p (shr_1 mrs))) as H2.
    { rewrite IH by exact H1. apply Z.div_pos; lia. }
    rewrite IH, IH, shr_1_m by assumption.
    rewrite !Z.div_div by lia. f_equal.
    rewrite Pos2Z.inj_xI. replace (2 * Z.pos p + 1) with (1 + Z.pos p + Z.pos p) by lia.
    rewrite !Z.pow_add_r by lia. ring.
  - assert (0 <= shr_m (SpecFloat.iter_pos shr_1 p mrs)) as H2.
    { rewrite IH by exact H. apply Z.div_pos; lia. }
    rewrite IH, IH by assumption.
    rewrite !Z.div_div by lia. f_equal.
    rewrite <- Z.pow_add_r by lia. f_equal. lia.
  - rewrite shr_1_m by exact H. reflexivity.
Qed.

Lemma shr_record_of_loc_m m l : shr_m (shr_record_of_loc m l) = m.
Proof. destruct l as [|[]]; reflexivity. Qed.

Lemma shr_record_of_loc_holds m e l x :
  0 <= m -> (dyadic m e <= x < dyadic (m + 1) e)%R ->
  (l <> loc_Exact -> (dyadic m e < x)%R) ->
  holds (shr_record_of_loc m l) e x.
Proof.
  intros Hm Hx Hl. unfold holds. rewrite shr_record_of_loc_m.
  split; [exact Hm|]. split; [exact Hx|].
  destruct l as [|c]; [cbn; discriminate|]. intros _. apply Hl. discriminate.
Qed.

(** The first shift of [binary_round_aux]: to the exponent of the format. *)
Lemma shr_fexp_spec m e l :
  0 <= m -> e <= fexp prec emax (Zdigits2 m + e) ->
  exists mrs,
    shr_fexp prec emax m e l = (mrs, fexp prec emax (Zdigits2 m + e)) /\
    shr_m mrs = m / 2 ^ (fexp prec emax (Zdigits2 m + e) - e) /\
    (forall x, holds (shr_record_of_loc m l) e x ->
               holds mrs (fexp prec emax (Zdigits2 m + e)) x).
Proof.
  intros Hm He. unfold shr_fexp, shr.
  set (e1 := fexp prec emax (Zdigits2 m + e)) in *.
  destruct (e1 - e) as [|p|p] eqn:En; try lia.
  - exists (shr_record_of_loc m l). assert (e1 = e) as -> by lia.
    split; [reflexivity|]. rewrite shr_record_of_loc_m.
    split; [rewrite Z.div_1_r; reflexivity | auto].
  - exists (SpecFloat.iter_pos shr_1 p (shr_record_of_loc m l)).
    replace (e + Z.pos p) with e1 by lia. split; [reflexivity|].
    split.
    + rewrite iter_shr_m; rewrite shr_record_of_loc_m; [reflexivity | exact Hm].
    + intros x H. replace e1 with (e + Z.pos p) by lia.
      apply iter_shr_holds, H.
Qed.

Lemma round_nearest_even_cases mrs :
  let m := round_nearest_even (shr_m mrs) (loc_of_shr_record mrs) in
  m = shr_m mrs \/ (m = shr_m mrs + 1 /\ shr_r mrs = true).
Proof.
  destruct mrs as [m [] []]; cbn; auto.
  destruct (Z.even m); auto.
Qed.

(** The second shift of [binary_round_aux], after the rounding: one place at
    most, when the mantissa has reached [2^53]. *)
Lemma binary_round_aux_fit s m e l :
  0 <= m -> e <= fexp prec emax (Zdigits2 m + e) ->
  exists mrs,
    let e1 := fexp prec emax (Zdigits2 m + e) in
    let m2 := round_nearest_even (shr_m mrs) (loc_of_shr_record mrs) in
    shr_fexp prec emax m e l = (mrs, e1) /\
    shr_m mrs = m / 2 ^ (e1 - e) /\
    0 <= shr_m mrs < 2 ^ 53 /\
    (-1074 < e1 -> 2 ^ 52 <= shr_m mrs) /\
    -1074 <= e1 /\
    binary_round_aux prec emax s m e l = fit s m2 e1.
Proof.
  intros Hm He.
  destruct (shr_fexp_spec m e l Hm He) as (mrs & Hshr & Hm1 & _).
  exists mrs. cbn zeta.
  set (e1 := fexp prec emax (Zdigits2 m + e)) in *.
  set (m1 := shr_m mrs) in *.
  assert (-1074 <= e1) as Hemin by (unfold e1; rewrite fexp_eq; lia).
  assert (0 <= m1 < 2 ^ 53) as Hm1b.
  { rewrite Hm1. split; [apply Z.div_pos; lia|].
    destruct (Z.eq_dec m 0) as [->|Hne]; [rewrite Z.div_0_l by lia; lia|].
    apply Z.div_lt_upper_bound; [lia|].
    pose proof (Zdigits2_bounds m ltac:(lia)) as Hd.
    rewrite <- Z.pow_add_r by lia.
    assert (2 ^ Zdigits2 m <= 2 ^ (e1 - e + 53)); [|lia].
    apply Z.pow_le_mono_r; [lia|]. unfold e1. rewrite fexp_eq. lia. }
  assert (-1074 < e1 -> 2 ^ 52 <= m1) as Hnormal.
  { intros Hgt. rewrite Hm1.
    assert (e1 = Zdigits2 m + e - 53) as He1 by (unfold e1 in *; rewrite fexp_eq in *; lia).
    assert (0 < m) as Hpos.
    { destruct (Z.eq_dec m 0) as [->|]; [|lia]. cbn in He1. lia. }
    pose proof (Zdigits2_bounds m Hpos) as Hd.
    apply Z.div_le_lower_bound; [lia|].
    rewrite <- Z.pow_add_r by lia.
    replace (e1 - e + 52) with (Zdigits2 m - 1) by lia. lia. }
  split; [exact Hshr|]. split; [exact Hm1|]. split; [exact Hm1b|].
  split; [exact Hnormal|]. split; [exact Hemin|].
  unfold binary_round_aux. rewrite Hshr. fold m1.
  set (m2 := round_nearest_even m1 (loc_of_shr_record mrs)).
  assert (m2 = m1 \/ m2 = m1 + 1) as Hm2.
  { destruct (round_nearest_even_cases mrs) as [H|[H _]]; fold m1 m2 in H; auto. }
  assert (0 <= m2 <= 2 ^ 53) as Hm2b by lia.
  unfold shr_fexp, shr. rewrite fexp_eq.
  destruct (Z.eq_dec m2 0) as [Hz|Hnz].
  { rewrite Hz. cbn [Zdigits2].
    destruct (Z.max (0 + e1 - 53) (-1074) - e1) eqn:E; try lia. reflexivity. }
  pose proof (Zdigits2_bounds m2 ltac:(lia)) as Hd.
  destruct (Z.eq_dec m2 (2 ^ 53)) as [Htop|Hntop].
  - assert (Zdigits2 m2 = 54) as ->.
    { apply Zdigits2_unique; [|lia]. rewrite Htop. cbn. lia. }
    replace (Z.max (54 + e1 - 53) (-1074) - e1) with 1 by lia.
    rewrite Htop. cbn [shr_record_of_loc SpecFloat.iter_pos]. unfold fit.
    change (2 ^ 53) with 9007199254740992. cbn [shr_1 shr_m].
    destruct (decide _) as [_|Hne]; [|contradiction Hne; reflexivity].
    change (emax - prec) with 971. reflexivity.
  - assert (Zdigits2 m2 <= 53) as Hd53.
    { destruct (Z.le_gt_cases (Zdigits2 m2) 53); [assumption|].
      assert (2 ^ 53 <= 2 ^ (Zdigits2 m2 - 1)) by (apply Z.pow_le_mono_r; lia). lia. }
    destruct (Z.max (Zdigits2 m2 + e1 - 53) (-1074) - e1) eqn:E; try lia.
    + cbn [shr_record_of_loc shr_m]. unfold fit.
      destruct m2 as [|p|p]; try lia.
      destruct (decide _) as [Heq|_]; [contradiction|].
      change (emax - prec) with 971. reflexivity.
    + exfalso. assert (-1074 < e1) as Hgt by lia. specialize (Hnormal Hgt).
      assert (Zdigits2 m2 = 53); [|lia].
      apply Zdigits2_unique; [|lia]. change (53 - 1) with 52. lia.
Qed.

(** No float lies strictly between [m * 2^e] and [(m + 1) * 2^e] when [e] is
    the exponent of the format for [m]. *)
Lemma gap_below B m e :
  representable B -> 0 <= m -> -1074 <= e -> (-1074 < e -> 2 ^ 52 <= m) ->
  (B < dyadic (m + 1) e)%R -> (B <= dyadic m e)%R.
Proof.
  intros (M & E & Hb & ->) Hm He Hnormal Hlt.
  apply bounded_inv in Hb as (HE & HM & HMn).
  destruct (Z.le_gt_cases e E) as [Hle|Hgt].
  - replace E with (e + (E - e)) in * by lia.
    rewrite <- dyadic_shift in * by lia.
    apply dyadic_le. apply dyadic_lt_inv in Hlt. lia.
  - apply Rle_trans with (dyadic (2 ^ 53) E); [apply dyadic_le; lia|].
    apply Rle_trans with (dyadic (2 ^ 52) e); [|apply dyadic_le; apply Hnormal; lia].
    rewrite !dyadic_pow2 by lia. apply bpow_le. lia.
Qed.

Lemma gap_above B m e :
  representable B -> 0 <= m < 2 ^ 53 -> -1074 <= e -> (-1074 < e -> 2 ^ 52 <= m) ->
  (dyadic m e < B)%R -> (dyadic (m + 1) e <= B)%R.
Proof.
  intros (M & E & Hb & ->) Hm He Hnormal Hlt.
  apply bounded_inv in Hb as (HE & HM & HMn).
  destruct (Z.le_gt_cases e E) as [Hle|Hgt].
  - replace E with (e + (E - e)) in * by lia.
    rewrite <- dyadic_shift in * by lia.
    apply dyadic_le. apply dyadic_lt_inv in Hlt. lia.
  - exfalso.
    assert (dyadic (Z.pos M) E <= dyadic m e)%R; [|lra].
    apply Rle_trans with (dyadic (2 ^ 53) E); [apply dyadic_le; lia|].
    apply Rle_trans with (dyadic (2 ^ 52) e); [|apply dyadic_le; apply Hnormal; lia].
    rewrite !dyadic_pow2 by lia. apply bpow_le. lia.
Qed.

Lemma fit_signed s m e :
  0 <= m <= 2 ^ 53 -> -1074 <= e -> (-1074 < e -> 2 ^ 52 <= m) ->
  signed s (fit s m e).
Proof.
  intros Hm He Hnormal. unfold fit. destruct m as [|p|p]; try lia; [reflexivity|].
  destruct (decide _) as [Htop|Hntop].
  - destruct (Z.leb_spec (e + 1) 971); [|reflexivity].
    split; [reflexivity|]. apply bounded_intro; cbn; lia.
  - destruct (Z.leb_spec e 971); [|reflexivity].
    split; [reflexivity|]. apply bounded_intro; lia.
Qed.

Lemma fit_at_most s m e B :
  0 <= m <= 2 ^ 53 -> -1074 <= e -> (-1074 < e -> 2 ^ 52 <= m) ->
  representable B -> (dyadic m e <= B)%R -> at_most (fit s m e) B.
Proof.
  intros Hm He Hnormal HB Hle. pose proof (representable_lt_max B HB) as Hmax.
  unfold fit. destruct m as [|p|p]; try lia; [exact I|].
  destruct (decide _) as [Htop|Hntop].
  - rewrite Htop in Hle. rewrite dyadic_pow2 in Hle by lia.
    destruct (Z.leb_spec (e + 1) 971) as [_|Hbig]; cbn.
    + change (Z.pos (Z.to_pos (2 ^ 52))) with (2 ^ 52).
      rewrite dyadic_pow2 by lia. replace (52 + (e + 1)) with (53 + e) by lia.
      exact Hle.
    + assert (bpow 1024 <= bpow (53 + e))%R by (apply bpow_le; lia). lra.
  - destruct (Z.leb_spec e 971) as [_|Hbig]; cbn; [exact Hle|].
    assert (bpow 1024 <= dyadic (Z.pos p) e)%R; [|lra].
    apply Rle_trans with (dyadic (2 ^ 52) e); [|apply dyadic_le; apply Hnormal; lia].
    rewrite dyadic_pow2 by lia. apply bpow_le. lia.
Qed.

Lemma fit_at_least s m e B :
  0 <= m <= 2 ^ 53 -> (0 < B)%R -> (B <= dyadic m e)%R ->
  at_least (fit s m e) B.
Proof.
  intros Hm HB Hle. unfold fit. destruct m as [|p|p]; try lia.
  - rewrite dyadic_0 in Hle. lra.
  - destruct (decide _) as [Htop|Hntop].
    + destruct (Z.leb_spec (e + 1) 971) as [_|Hbig]; cbn; [|exact I].
      change (Z.pos (Z.to_pos (2 ^ 52))) with (2 ^ 52).
      rewrite Htop in Hle. rewrite dyadic_pow2 in * by lia.
      replace (52 + (e + 1)) with (53 + e) by lia. exact Hle.
    + destruct (Z.leb_spec e 971) as [_|Hbig]; cbn; [exact Hle | exact I].
Qed.

(** The rounding of [binary_round_aux] stays on the same side of every
    float as the number it rounds. *)
Theorem binary_round_aux_bounds s m e l x :
  0 <= m -> e <= fexp prec emax (Zdigits2 m + e) ->
  (dyadic m e <= x < dyadic (m + 1) e)%R ->
  (l <> loc_Exact -> (dyadic m e < x)%R) ->
  let r := binary_round_aux prec emax s m e l in
  signed s r /\
  (forall B, representable B -> (x <= B)%R -> at_most r B) /\
  (forall B, representable B -> (B <= x)%R -> at_least r B).
Proof.
  intros Hm He Hx Hl. cbn zeta.
  destruct (binary_round_aux_fit s m e l Hm He)
    as (mrs & Hshr & Hm1 & Hm1b & Hnormal & Hemin & ->).
  destruct (shr_fexp_spec m e l Hm He) as (mrs' & Hshr' & _ & Hholds).
  rewrite Hshr in Hshr'. injection Hshr' as <-.
  specialize (Hholds x (shr_record_of_loc_holds m e l x Hm Hx Hl)).
  destruct Hholds as (_ & Hx1 & Hstrict).
  set (e1 := fexp prec emax (Zdigits2 m + e)) in *.
  set (m1 := shr_m mrs) in *.
  pose proof (round_nearest_even_cases mrs) as Hm2. cbn zeta in Hm2. fold m1 in Hm2.
  set (m2 := round_nearest_even m1 (loc_of_shr_record mrs)) in *.
  assert (0 <= m2 <= 2 ^ 53) as Hm2b by lia.
  assert (-1074 < e1 -> 2 ^ 52 <= m2) as Hnormal2 by (intros H; specialize (Hnormal H); lia).
  split; [apply fit_signed; assumption|]. split.
  - intros B HB HxB. apply fit_at_most; try assumption.
    destruct Hm2 as [->|[-> Hr]]; [lra|].
    apply gap_above; try assumption.
    assert (dyadic m1 e1 < x)%R by (apply Hstrict; rewrite Hr; reflexivity). lra.
  - intros B HB HBx. apply fit_at_least; [assumption | apply representable_pos, HB|].
    apply Rle_trans with (dyadic m1 e1).
    + apply gap_below; try assumption; [lia | lra].
    + apply dyadic_le. lia.
Qed.

End Binary64Facts.

(** ** Facts about the float operations *)

Section Binary64Ops.

Import Reals Lra.

Implicit Types (m e k d : Z) (x B : R).

Lemma iter_xO p : forall a, Z.pos (Pos.iter xO a p) = Z.pos a * 2 ^ Z.pos p.
Proof.
  induction p as [|p IH] using Pos.peano_ind; intros a.
  - cbn. lia.
  - rewrite Pos.iter_succ, Pos2Z.inj_xO, IH, Pos2Z.inj_succ, Z.pow_succ_r by lia. ring.
Qed.

Lemma shl_align_eq a e e' :
  exists a', shl_align a e e' = (a', Z.min e e') /\
             Z.pos a' = Z.pos a * 2 ^ (e - Z.min e e').
Proof.
  unfold shl_align. destruct (e' - e) as [|p|p] eqn:E.
  - exists a. replace (Z.min e e') with e by lia. rewrite Z.sub_diag. split; [reflexivity | lia].
  - exists a. replace (Z.min e e') with e by lia. rewrite Z.sub_diag. split; [reflexivity | lia].
  - exists (Pos.iter xO a p). replace (Z.min e e') with e' by lia.
    split; [reflexivity|]. rewrite iter_xO. f_equal. f_equal. lia.
Qed.

Lemma Zdigits2_shift m k : 0 < m -> 0 <= k -> Zdigits2 (m * 2 ^ k) = Zdigits2 m + k.
Proof.
  intros Hm Hk. pose proof (Zdigits2_bounds m Hm) as Hd.
  assert (0 < Zdigits2 m).
  { destruct (Z.lt_ge_cases 0 (Zdigits2 m)); [assumption|].
    assert (2 ^ Zdigits2 m <= 2 ^ 0) by (apply Z.pow_le_mono_r; lia). cbn in *. lia. }
  assert (0 < 2 ^ k) by (apply Z.pow_pos_nonneg; lia).
  apply Zdigits2_unique; [|nia].
  replace (Zdigits2 m + k - 1) with (Zdigits2 m - 1 + k) by lia.
  rewrite !Z.pow_add_r by lia. nia.
Qed.

(** [binary_round]: the rounding of a number that is a mantissa and an
    exponent. *)
Lemma binary_round_bounds s (a : positive) e :
  let r := binary_round prec emax s a e in
  signed s r /\
  (forall B, representable B -> (dyadic (Z.pos a) e <= B)%R -> at_most r B) /\
  (forall B, representable B -> (B <= dyadic (Z.pos a) e)%R -> at_least r B).
Proof.
  cbn zeta. unfold binary_round.
  destruct (shl_align_eq a e (fexp prec emax (Z.pos (digits2_pos a) + e)))
    as (a' & -> & Ha').
  set (e' := Z.min e _) in *.
  assert (dyadic (Z.pos a') e' = dyadic (Z.pos a) e) as Hval.
  { rewrite Ha', dyadic_shift by lia. f_equal. lia. }
  rewrite <- Hval.
  apply binary_round_aux_bounds; try lia.
  - rewrite Ha', Zdigits2_shift by lia. rewrite Zdigits2_pos.
    replace (Z.pos (digits2_pos a) + (e - e') + e') with (Z.pos (digits2_pos a) + e) by lia.
    unfold e'. lia.
  - split; [lra | apply dyadic_lt; lia].
  - intros H. contradiction H. reflexivity.
Qed.

(** [binary_normalize]: the rounding of the integer [z] times [2^e]. *)
Lemma binary_normalize_zero e s : binary_normalize prec emax 0 e s = S754_zero s.
Proof. reflexivity. Qed.

Lemma binary_normalize_pos z e :
  0 < z ->
  let r := binary_normalize prec emax z e false in
  signed false r /\
  (forall B, representable B -> (dyadic z e <= B)%R -> at_most r B) /\
  (forall B, representable B -> (B <= dyadic z e)%R -> at_least r B).
Proof.
  destruct z as [|a|a]; try lia. intros _. apply binary_round_bounds.
Qed.

(** A number that is a float is its own rounding. *)
Lemma at_most_at_least r B :
  at_most r B -> at_least r B ->
  exists s (a : positive) e, r = S754_finite s a e /\ dyadic (Z.pos a) e = B.
Proof.
  destruct r as [s|s| |s a e]; cbn; try contradiction.
  intros H1 H2. exists s, a, e. split; [reflexivity | lra].
Qed.

Lemma binary_normalize_exact z e :
  0 < z -> representable (dyadic z e) ->
  exists (a : positive) e',
    binary_normalize prec emax z e false = S754_finite false a e' /\
    SpecFloat.bounded prec emax a e' = true /\
    dyadic (Z.pos a) e' = dyadic z e.
Proof.
  intros Hz HB. destruct (binary_normalize_pos z e Hz) as (Hs & Hle & Hge).
  destruct (at_most_at_least _ _ (Hle _ HB (Rle_refl _)) (Hge _ HB (Rle_refl _)))
    as (s & a & e' & Hr & Hv).
  rewrite Hr in *. destruct Hs as [-> Hb]. eauto.
Qed.

(** *** Division *)

Lemma new_location_exact n r : new_location n r = loc_Exact -> r = 0.
Proof.
  unfold new_location, new_location_even, new_location_odd.
  destruct (Z.even n); destruct (Z.eqb_spec r 0); auto; discriminate.
Qed.

Lemma SFdiv_core_binary_spec (a1 : positive) e1 (a2 : positive) e2 :
  let x := (dyadic (Z.pos a1) e1 / dyadic (Z.pos a2) e2)%R in
  exists q e' l,
    SFdiv_core_binary prec emax (Z.pos a1) e1 (Z.pos a2) e2 = (q, e', l) /\
    0 <= q /\ e' <= fexp prec emax (Zdigits2 q + e') /\
    (dyadic q e' <= x < dyadic (q + 1) e')%R /\
    (l <> loc_Exact -> (dyadic q e' < x)%R).
Proof.
  cbn zeta. unfold SFdiv_core_binary.
  set (d1 := Zdigits2 (Z.pos a1)). set (d2 := Zdigits2 (Z.pos a2)).
  set (e' := Z.min (fexp prec emax (d1 + e1 - (d2 + e2))) (e1 - e2)).
  set (s := e1 - e2 - e').
  assert (0 <= s) as Hs by (unfold s, e'; lia).
  set (a' := match s with Z.pos _ => Z.shiftl (Z.pos a1) s | 0 => Z.pos a1 | Z.neg _ => 0 end).
  assert (a' = Z.pos a1 * 2 ^ s) as Ha'.
  { unfold a'. destruct s as [|p|p] eqn:Es; try lia.
    rewrite Z.shiftl_mul_pow2 by lia. reflexivity. }
  pose proof (Z_div_mod a' (Z.pos a2) eq_refl) as Hdiv.
  destruct (Z.div_eucl a' (Z.pos a2)) as [q r]. destruct Hdiv as [Hqr Hr].
  exists q, e', (new_location (Z.pos a2) r). split; [reflexivity|].
  assert (0 <= q) as Hq by nia.
  split; [exact Hq|].
  pose proof (Zdigits2_bounds (Z.pos a1) eq_refl) as Hd1. fold d1 in Hd1.
  pose proof (Zdigits2_bounds (Z.pos a2) eq_refl) as Hd2. fold d2 in Hd2.
  split.
  { rewrite fexp_eq. destruct (Z.le_gt_cases e' (-1074)) as [|Hgt]; [lia|].
    assert (e' <= d1 + e1 - (d2 + e2) - 53) as He'.
    { unfold e' in *. rewrite fexp_eq in *. lia. }
    assert (2 ^ 52 <= q) as Hq52.
    { assert (Z.pos a2 * 2 ^ 52 <= a'); [|nia].
      rewrite Ha'.
      assert (0 < d1 /\ 0 < d2) as [Hd1p Hd2p].
      { unfold d1, d2. rewrite !Zdigits2_pos. lia. }
      assert (2 ^ (d2 + 52) <= 2 ^ (d1 - 1 + s)) as Hpow
        by (apply Z.pow_le_mono_r; unfold s; lia).
      rewrite !Z.pow_add_r in Hpow by lia.
      assert (0 < 2 ^ s) by (apply Z.pow_pos_nonneg; lia). nia. }
    assert (53 <= Zdigits2 q); [|lia].
    pose proof (Zdigits2_bounds q ltac:(lia)) as Hdq.
    destruct (Z.le_gt_cases 53 (Zdigits2 q)); [assumption|].
    assert (2 ^ Zdigits2 q <= 2 ^ 52) by (apply Z.pow_le_mono_r;
      [lia | pose proof (Zdigits2_nonneg q); lia]). lia. }
  assert (dyadic (Z.pos a1) e1 / dyadic (Z.pos a2) e2 =
          (IZR q + IZR r / IZR (Z.pos a2)) * bpow e')%R as Hx.
  { unfold dyadic.
    replace e1 with (s + e' + e2) by (unfold s; lia).
    rewrite !bpow_add, (bpow_IZR s Hs).
    assert (IZR (Z.pos a1) * IZR (2 ^ s) = IZR (Z.pos a2) * IZR q + IZR r)%R as Hm.
    { rewrite <- !mult_IZR, <- plus_IZR. f_equal. lia. }
    pose proof (bpow_pos e2). pose proof (bpow_pos e').
    assert (0 < IZR (Z.pos a2))%R by (apply IZR_lt; lia).
    field_simplify_eq; [|split; lra]. nra. }
  rewrite Hx. unfold dyadic. rewrite plus_IZR.
  pose proof (bpow_pos e') as Hpos.
  assert (0 < IZR (Z.pos a2))%R as Ha2 by (apply IZR_lt; lia).
  assert (0 <= IZR r / IZR (Z.pos a2) < 1)%R as Hfrac.
  { split.
    - apply Rmult_le_pos; [apply IZR_le; lia | apply Rlt_le, Rinv_0_lt_compat, Ha2].
    - apply Rmult_lt_reg_r with (IZR (Z.pos a2)); [exact Ha2|].
      unfold Rdiv. rewrite Rmult_assoc, Rinv_l, Rmult_1_r, Rmult_1_l by lra.
      apply IZR_lt. lia. }
  split; [split; nra|].
  intros Hl.
  assert (r <> 0) as Hr0 by (intros ->; apply Hl; unfold new_location,
    new_location_even, new_location_odd; destruct (Z.even _); reflexivity).
  assert (0 < IZR r / IZR (Z.pos a2))%R.
  { apply Rmult_lt_0_compat; [apply IZR_lt; lia | apply Rinv_0_lt_compat, Ha2]. }
  nra.
Qed.

Lemma SFdiv_finite_bounds s1 (a1 : positive) e1 s2 (a2 : positive) e2 :
  let r := SFdiv prec emax (S754_finite s1 a1 e1) (S754_finite s2 a2 e2) in
  let x := (dyadic (Z.pos a1) e1 / dyadic (Z.pos a2) e2)%R in
  signed (xorb s1 s2) r /\
  (forall B, representable B -> (x <= B)%R -> at_most r B) /\
  (forall B, representable B -> (B <= x)%R -> at_least r B).
Proof.
  cbn zeta. unfold SFdiv.
  destruct (SFdiv_core_binary_spec a1 e1 a2 e2) as (q & e' & l & -> & Hq & He' & Hx & Hl).
  apply binary_round_aux_bounds; assumption.
Qed.

(** *** Order *)

Lemma SFcompare_finite (a1 : positive) e1 (a2 : positive) e2 :
  SpecFloat.bounded prec emax a1 e1 = true ->
  SpecFloat.bounded prec emax a2 e2 = true ->
  let c := SFcompare (S754_finite false a1 e1) (S754_finite false a2 e2) in
  ((dyadic (Z.pos a1) e1 < dyadic (Z.pos a2) e2)%R -> c = Some Lt) /\
  (dyadic (Z.pos a1) e1 = dyadic (Z.pos a2) e2 -> c = Some Eq) /\
  ((dyadic (Z.pos a2) e2 < dyadic (Z.pos a1) e1)%R -> c = Some Gt).
Proof.
  intros (He1 & Ha1 & Hn1)%bounded_inv (He2 & Ha2 & Hn2)%bounded_inv. cbn.
  assert (forall (b1 b2 : positive) f1 f2, f1 < f2 -> -1074 <= f1 ->
            Z.pos b1 < 2 ^ 53 -> (-1074 < f2 -> 2 ^ 52 <= Z.pos b2) ->
            (dyadic (Z.pos b1) f1 < dyadic (Z.pos b2) f2)%R) as Hlt.
  { intros b1 b2 f1 f2 Hf Hf1 Hb1 Hb2.
    apply Rlt_le_trans with (dyadic (2 ^ 53) f1); [apply dyadic_lt; lia|].
    apply Rle_trans with (dyadic (2 ^ 52) f2); [|apply dyadic_le; apply Hb2; lia].
    rewrite !dyadic_pow2 by lia. apply bpow_le. lia. }
  destruct (Z.compare_spec e1 e2) as [->|He|He].
  - change (Pos.compare_cont Eq a1 a2) with (Pos.compare a1 a2).
    destruct (Pos.compare_spec a1 a2) as [->|Ha|Ha].
    + repeat split; try reflexivity; intros; lra.
    + pose proof (dyadic_lt (Z.pos a1) (Z.pos a2) e2 ltac:(lia)).
      repeat split; try reflexivity; intros; lra.
    + pose proof (dyadic_lt (Z.pos a2) (Z.pos a1) e2 ltac:(lia)).
      repeat split; try reflexivity; intros; lra.
  - pose proof (Hlt a1 a2 e1 e2 He ltac:(lia) Ha1 Hn2).
    repeat split; try reflexivity; intros; lra.
  - pose proof (Hlt a2 a1 e2 e1 He ltac:(lia) Ha2 Hn1).
    repeat split; try reflexivity; intros; lra.
Qed.

End Binary64Ops.

(** ** Facts about the arithmetic of [float] *)

Section FloatFacts.

Import Reals Lra.

Implicit Types (f g v w : float) (z : Z) (B : R).

Lemma Prim2SF_inj f g : Prim2SF f = Prim2SF g -> f = g.
Proof.
  intros H. rewrite <- (SF2Prim_Prim2SF f), <- (SF2Prim_Prim2SF g), H. reflexivity.
Qed.

Lemma one_SF : Prim2SF 1 = S754_finite false 4503599627370496 (-52).
Proof. reflexivity. Qed.

Lemma zero_SF : Prim2SF 0 = S754_zero false.
Proof. reflexivity. Qed.

Lemma dyadic_one : dyadic (Z.pos 4503599627370496) (-52) = 1%R.
Proof.
  change (Z.pos 4503599627370496) with (2 ^ 52). rewrite dyadic_pow2 by lia.
  unfold bpow. cbn [Z.add]. apply powerRZ_O.
Qed.

Lemma representable_1 : representable 1.
Proof.
  exists 4503599627370496%positive, (-52). split; [reflexivity|].
  symmetry. apply dyadic_one.
Qed.

Lemma dyadic_pos (a : positive) e : (0 < dyadic (Z.pos a) e)%R.
Proof.
  unfold dyadic. apply Rmult_lt_0_compat; [apply IZR_lt; lia | apply bpow_pos].
Qed.

Lemma SFcompare_refl (r : spec_float) :
  SFcompare r r = match r with S754_nan => None | _ => Some Eq end.
Proof.
  destruct r as [s|[]| |[] a e]; cbn; try reflexivity;
    rewrite Z.compare_refl, Pos.compare_cont_refl; reflexivity.
Qed.

Lemma is_nan_spec f :
  is_nan f = match Prim2SF f with S754_nan => true | _ => false end.
Proof.
  unfold is_nan. rewrite FloatAxioms.eqb_spec. unfold SFeqb.
  rewrite SFcompare_refl. destruct (Prim2SF f); reflexivity.
Qed.

Lemma is_infinity_spec f :
  is_infinity f = match Prim2SF f with S754_infinity _ => true | _ => false end.
Proof.
  unfold is_infinity. rewrite FloatAxioms.eqb_spec, abs_spec. unfold SFeqb.
  change (Prim2SF infinity) with (S754_infinity false).
  destruct (Prim2SF f) as [s|s| |s a e]; reflexivity.
Qed.

Lemma eqb_zero_spec f :
  (f =? 0)%float = match Prim2SF f with S754_zero _ => true | _ => false end.
Proof.
  rewrite FloatAxioms.eqb_spec, zero_SF. unfold SFeqb.
  destruct (Prim2SF f) as [s|[]| |[] a e]; reflexivity.
Qed.

Lemma ltb_zero_spec f :
  (f <? 0)%float =
    match Prim2SF f with
    | S754_infinity true | S754_finite true _ _ => true
    | _ => false
    end.
Proof.
  rewrite ltb_spec, zero_SF. unfold SFltb.
  destruct (Prim2SF f) as [s|[]| |[] a e]; reflexivity.
Qed.

Lemma zero_ltb_spec f :
  (0 <? f)%float =
    match Prim2SF f with
    | S754_infinity false | S754_finite false _ _ => true
    | _ => false
    end.
Proof.
  rewrite ltb_spec, zero_SF. unfold SFltb.
  destruct (Prim2SF f) as [s|[]| |[] a e]; reflexivity.
Qed.

Lemma finite_pos_not_negative f : finite_pos f -> not_negative f.
Proof. unfold finite_pos, not_negative. destruct (Prim2SF f) as [s|s| |[] a e]; auto. Qed.

Lemma finite_pos_representable f : finite_pos f -> representable (F2R f).
Proof.
  unfold finite_pos, F2R. pose proof (Prim2SF_valid f) as Hv.
  destruct (Prim2SF f) as [s|s| |[] a e]; try contradiction. intros _.
  exists a, e. split; [exact Hv | reflexivity].
Qed.

Lemma finite_pos_F2R f : finite_pos f -> (0 < F2R f)%R.
Proof. intros H. apply representable_pos, finite_pos_representable, H. Qed.

Lemma not_negative_F2R f : not_negative f -> (0 <= F2R f)%R.
Proof.
  unfold not_negative, F2R. destruct (Prim2SF f) as [s|s| |[] a e]; try contradiction;
    intros _; cbn; [lra|]. apply Rlt_le, dyadic_pos.
Qed.

Lemma not_negative_cases f : not_negative f -> (f =? 0)%float = true \/ finite_pos f.
Proof.
  rewrite eqb_zero_spec. unfold not_negative, finite_pos.
  destruct (Prim2SF f) as [s|s| |[] a e]; auto.
Qed.

(** The order of the floats on [0 <= f <= 1]. *)
Lemma in_unit_spec f : in_unit f <-> not_negative f /\ (F2R f <= 1)%R.
Proof.
  unfold in_unit, not_negative, F2R. rewrite !leb_spec, zero_SF, one_SF.
  pose proof (Prim2SF_valid f) as Hv. unfold SFleb.
  destruct (Prim2SF f) as [s|[]| |[] a e].
  - cbn. split; [intros _; split; [exact I | lra] | auto].
  - cbn. split; [intros [? ?]; discriminate | intros [[] _]].
  - cbn. split; [intros [? ?]; discriminate | intros [[] _]].
  - cbn. split; [intros [? ?]; discriminate | intros [[] _]].
  - cbn. split; [intros [? ?]; discriminate | intros [[] _]].
  - destruct (SFcompare_finite a e 4503599627370496 (-52) Hv eq_refl)
      as (Hlt & Heq & Hgt).
    cbn zeta in *. rewrite dyadic_one in *.
    change (SFcompare (S754_zero false) (S754_finite false a e)) with (Some Lt).
    cbn [SF2R].
    destruct (Rtotal_order (dyadic (Z.pos a) e) 1) as [H|[H|H]].
    + rewrite (Hlt H). split; [intros _; split; [exact I | lra] | auto].
    + rewrite (Heq H). split; [intros _; split; [exact I | lra] | auto].
    + rewrite (Hgt H). split; [intros [_ ?]; discriminate | intros [_ ?]; lra].
Qed.

Lemma in_unit_one : in_unit 1.
Proof. split; reflexivity. Qed.

Lemma in_unit_zero : in_unit 0.
Proof. split; reflexivity. Qed.

(** [f < 1] for a float of the unit interval that is not 1. *)
Lemma in_unit_ltb f :
  in_unit f -> (f =? 1)%float = false -> (f <? 1)%float = true.
Proof.
  intros [_ Hle]. rewrite FloatAxioms.eqb_spec, ltb_spec. rewrite leb_spec in Hle.
  unfold SFleb, SFeqb, SFltb in *.
  destruct (SFcompare _ _) as [[]|]; congruence.
Qed.

(** *** [float()] *)

Lemma float_of_int_zero : float_of_int 0 = Return 0%float.
Proof. reflexivity. Qed.

Lemma float_of_int_spec z :
  0 < z ->
  let r := binary_normalize prec emax z 0 false in
  match float_of_int z with
  | Return f => Prim2SF f = r /\ finite_pos f
  | Raise e => e = OverflowError /\ r = S754_infinity false
  end.
Proof.
  intros Hz. cbn zeta. unfold float_of_int.
  destruct (binary_normalize_pos z 0 Hz) as (Hs & _ & Hge).
  set (r := binary_normalize prec emax z 0 false) in *.
  assert (at_least r 1) as H1.
  { apply Hge; [apply representable_1|]. rewrite dyadic_int. apply IZR_le. lia. }
  assert (valid_binary r = true) as Hv.
  { destruct r as [s|s| |s a e]; try reflexivity. destruct Hs as [_ Hb]. exact Hb. }
  rewrite is_infinity_spec, (Prim2SF_SF2Prim r Hv).
  destruct r as [s|s| |s a e]; cbn in Hs, H1; try contradiction.
  - subst s. auto.
  - destruct Hs as [-> _]. split; [apply Prim2SF_SF2Prim, Hv|].
    unfold finite_pos. rewrite (Prim2SF_SF2Prim _ Hv). exact I.
Qed.

Lemma float_of_int_Return z f :
  0 < z -> float_of_int z = Return f ->
  finite_pos f /\
  (forall B, representable B -> (IZR z <= B)%R -> (F2R f <= B)%R) /\
  (forall B, representable B -> (B <= IZR z)%R -> (B <= F2R f)%R).
Proof.
  intros Hz Hf. pose proof (float_of_int_spec z Hz) as H. cbn zeta in H.
  rewrite Hf in H. destruct H as [Hr Hfin]. split; [exact Hfin|].
  destruct (binary_normalize_pos z 0 Hz) as (_ & Hle & Hge).
  rewrite dyadic_int in *. cbn zeta in *. rewrite <- Hr in *.
  unfold finite_pos, F2R in *.
  destruct (Prim2SF f) as [s|s| |[] a e]; try contradiction.
  split; intros B HB HzB; [apply (Hle B HB HzB) | apply (Hge B HB HzB)].
Qed.

Lemma float_of_int_le z B :
  0 < z -> representable B -> (IZR z <= B)%R ->
  exists f, float_of_int z = Return f.
Proof.
  intros Hz HB HzB. pose proof (float_of_int_spec z Hz) as H. cbn zeta in H.
  destruct (float_of_int z) as [f|e]; [eauto|]. destruct H as [_ Hr].
  destruct (binary_normalize_pos z 0 Hz) as (_ & Hle & _).
  rewrite dyadic_int in Hle. specialize (Hle B HB HzB). cbn zeta in Hle.
  rewrite Hr in Hle. contradiction.
Qed.

Lemma float_of_int_exact z :
  0 < z -> representable (IZR z) ->
  exists f, float_of_int z = Return f /\ finite_pos f /\ F2R f = IZR z.
Proof.
  intros Hz HB. destruct (float_of_int_le z _ Hz HB (Rle_refl _)) as [f Hf].
  exists f. split; [exact Hf|].
  destruct (float_of_int_Return z f Hz Hf) as (Hfin & Hle & Hge).
  split; [exact Hfin|]. apply Rle_antisym; [apply Hle | apply Hge]; auto; lra.
Qed.

Lemma float_of_int_ge_1 z f :
  0 < z -> float_of_int z = Return f -> finite_pos f /\ (1 <= F2R f)%R.
Proof.
  intros Hz Hf. destruct (float_of_int_Return z f Hz Hf) as (Hfin & _ & Hge).
  split; [exact Hfin|]. apply Hge; [apply representable_1 | apply IZR_le; lia].
Qed.

(** The integers up to [2^53] are floats. *)
Lemma representable_int z : 0 < z <= 2 ^ 53 -> representable (IZR z).
Proof.
  intros Hz. destruct (Z.eq_dec z (2 ^ 53)) as [->|Hne].
  - exists 4503599627370496%positive, 1. split; [reflexivity|].
    change (Z.pos 4503599627370496) with (2 ^ 52). rewrite dyadic_pow2 by lia.
    rewrite bpow_IZR by lia. reflexivity.
  - pose proof (Zdigits2_bounds z ltac:(lia)) as Hd.
    set (d := Zdigits2 z) in *.
    assert (0 < d <= 53) as Hd53.
    { split.
      - destruct (Z.lt_ge_cases 0 d); [assumption|].
        assert (2 ^ d <= 2 ^ 0) by (apply Z.pow_le_mono_r; lia). cbn in *. lia.
      - destruct (Z.le_gt_cases d 53); [assumption|].
        assert (2 ^ 53 <= 2 ^ (d - 1)) by (apply Z.pow_le_mono_r; lia). lia. }
    assert (0 < 2 ^ (53 - d)) as Hp by (apply Z.pow_pos_nonneg; lia).
    assert (2 ^ 52 <= z * 2 ^ (53 - d) < 2 ^ 53) as HM.
    { assert (2 ^ 52 = 2 ^ (d - 1) * 2 ^ (53 - d)) as ->
        by (rewrite <- Z.pow_add_r by lia; f_equal; lia).
      assert (2 ^ 53 = 2 ^ d * 2 ^ (53 - d)) as ->
        by (rewrite <- Z.pow_add_r by lia; f_equal; lia).
      nia. }
    exists (Z.to_pos (z * 2 ^ (53 - d))), (d - 53).
    rewrite Z2Pos.id by lia. split.
    + apply bounded_intro; rewrite ?Z2Pos.id by lia; lia.
    + rewrite dyadic_shift by lia. replace (d - 53 + (53 - d)) with 0 by lia.
      symmetry. apply dyadic_int.
Qed.

(** *** [int()] *)


Lemma int_of_float_representable f z :
  int_of_float f = Return z -> 0 < z -> representable (IZR z).
Proof.
  unfold int_of_float. pose proof (Prim2SF_valid f) as Hv.
  destruct (Prim2SF f) as [s|s| |s a e]; try discriminate; intros [= <-] Hz; [lia|].
  assert (0 < trunc_mag a e) as Hpos.
  { destruct s; [|exact Hz]. unfold trunc_mag in *.
    pose proof (Z.shiftl_nonneg (Z.pos a) e). lia. }
  destruct s; [lia|]. clear Hz.
  destruct (bounded_inv a e Hv) as (He & Ha & _). unfold trunc_mag in *.
  destruct (Z.le_gt_cases 0 e) as [He0|He0].
  - rewrite Z.shiftl_mul_pow2 by exact He0. exists a, e. split; [exact Hv|].
    rewrite <- dyadic_int, dyadic_shift by lia. reflexivity.
  - rewrite Z.shiftl_div_pow2 in * by lia. apply representable_int.
    split; [exact Hpos|].
    assert (0 < 2 ^ (- e)) by (apply Z.pow_pos_nonneg; lia).
    assert (Z.pos a / 2 ^ (- e) <= Z.pos a); [|lia].
    apply Z.div_le_upper_bound; nia.
Qed.

(** *** [/] *)

Lemma float_truediv_Return a b :
  finite_pos b -> float_truediv a b = Return (a / b)%float.
Proof.
  intros Hb. unfold float_truediv. rewrite eqb_zero_spec. unfold finite_pos in Hb.
  destruct (Prim2SF b) as [s|s| |[] m e]; try contradiction. reflexivity.
Qed.

Lemma div_signed a b :
  not_negative a -> finite_pos b ->
  ((a =? 0)%float = true /\ (a / b =? 0)%float = true) \/
  (finite_pos a /\
   signed false (Prim2SF (a / b)) /\
   (forall B, representable B -> (F2R a / F2R b <= B)%R ->
              at_most (Prim2SF (a / b)) B) /\
   (forall B, representable B -> (B <= F2R a / F2R b)%R ->
              at_least (Prim2SF (a / b)) B)).
Proof.
  intros Ha Hb. rewrite eqb_zero_spec. unfold not_negative, finite_pos, F2R in *.
  rewrite div_spec.
  destruct (Prim2SF b) as [s|s| |[] mb eb] eqn:Eb; try contradiction.
  destruct (Prim2SF a) as [s|s| |[] ma ea] eqn:Ea; try contradiction.
  - left. split; [reflexivity|]. rewrite eqb_zero_spec, div_spec, Ea, Eb.
    reflexivity.
  - right. split; [exact I|]. apply (SFdiv_finite_bounds false ma ea false mb eb).
Qed.

(** A quotient of floats [0 <= a <= b] is in the unit interval. *)
Lemma div_in_unit a b :
  not_negative a -> finite_pos b -> (F2R a <= F2R b)%R -> in_unit (a / b).
Proof.
  intros Ha Hb Hle. destruct (div_signed a b Ha Hb) as [[_ H0]|(Hfa & Hs & Hmost & _)].
  { apply in_unit_spec. rewrite eqb_zero_spec in H0. unfold not_negative, F2R.
    destruct (Prim2SF (a / b)) as [s|s| |s m e]; try discriminate.
    cbn. split; [exact I | lra]. }
  apply in_unit_spec. pose proof (finite_pos_F2R a Hfa). pose proof (finite_pos_F2R b Hb).
  assert (F2R a / F2R b <= 1)%R as Hq.
  { apply Rmult_le_reg_r with (F2R b); [lra|]. unfold Rdiv.
    rewrite Rmult_assoc, Rinv_l by lra. lra. }
  specialize (Hmost 1%R representable_1 Hq). unfold not_negative, F2R.
  destruct (Prim2SF (a / b)) as [s|s| |s m e]; cbn in *; try contradiction.
  - split; [exact I | lra].
  - destruct Hs as [-> _]. auto.
Qed.

(** *** [1.0 - q] *)


(** *** [**] *)

(** Zero to a positive exponent is zero: the C library is not called. *)
Lemma float_pow_zero (libm_pow : float -> float -> float) w :
  finite_pos w -> float_pow libm_pow 0 w = Return (Float 0).
Proof.
  intros Hw. unfold float_pow.
  rewrite !is_nan_spec, !is_infinity_spec, (ltb_zero_spec w), (eqb_zero_spec w),
    (eqb_zero_spec 0), zero_SF.
  unfold finite_pos in Hw.
  destruct (Prim2SF w) as [sw|sw| |[] mw ew]; try contradiction.
  cbn. destruct (is_odd_integer w); reflexivity.
Qed.

Section Pow.

Variable libm_pow : float -> float -> float.
Hypothesis libm_pow_in_unit : pow_in_unit libm_pow.

Lemma in_unit_not_infinity f : in_unit f -> is_infinity f = false.
Proof.
  intros [Hn _]%in_unit_spec. rewrite is_infinity_spec. unfold not_negative in Hn.
  destruct (Prim2SF f) as [s|s| |[] a e]; try contradiction; reflexivity.
Qed.

(** A base in [0, 1] to an exponent that is not negative: a float of
    [0, 1]. *)
Lemma float_pow_in_unit v w :
  in_unit v -> not_negative w ->
  exists x, float_pow libm_pow v w = Return (Float x) /\ in_unit x /\
            (v = 0%float -> (w =? 0)%float = false -> x = 0%float).
Proof.
  intros Hv Hw. unfold float_pow.
  destruct (w =? 0)%float eqn:Ew0.
  { exists 1%float. split; [reflexivity|]. split; [apply in_unit_one|].
    intros _ [=]. }
  pose proof Hv as [Hnv Hle]%in_unit_spec.
  assert (finite_pos w) as Hfw by (destruct (not_negative_cases w Hw); [congruence | assumption]).
  rewrite !is_nan_spec, !is_infinity_spec, ltb_zero_spec.
  rewrite (eqb_zero_spec v), (ltb_zero_spec v).
  pose proof (zero_ltb_spec v) as Hv0. pose proof (zero_ltb_spec w) as Hw0.
  unfold not_negative, finite_pos in *.
  destruct (Prim2SF w) as [sw|sw| |[] mw ew]; try contradiction.
  destruct (Prim2SF v) as [sv|sv| |[] mv ev] eqn:Ev; try contradiction.
  - exists (if is_odd_integer w then v else 0%float). split; [reflexivity|].
    split.
    + destruct (is_odd_integer w); [exact Hv | apply in_unit_zero].
    + intros -> _. destruct (is_odd_integer w); reflexivity.
  - cbn [andb]. destruct (v =? 1)%float eqn:E1.
    + exists 1%float. split; [reflexivity|]. split; [apply in_unit_one|].
      intros ->. discriminate Ev.
    + assert (in_unit (libm_pow v w)) as Hx.
      { apply libm_pow_in_unit; [rewrite Hv0; reflexivity | | rewrite Hw0; reflexivity].
        apply in_unit_ltb; assumption. }
      rewrite <- is_infinity_spec, (in_unit_not_infinity _ Hx).
      exists (libm_pow v w). split; [reflexivity|]. split; [exact Hx|].
      intros ->. discriminate Ev.
Qed.

End Pow.

End FloatFacts.

(** ** Facts about the enclosures *)

Section BracketFacts.

Import Reals Lra.

Implicit Types (a b c : Z * Z) (P : Z) (n N W : positive) (x y v w : R).

Lemma dval_nonneg a : 0 <= fst a -> (0 <= dval a)%R.
Proof.
  intros H. unfold dval. rewrite <- (dyadic_0 (snd a)). apply dyadic_le, H.
Qed.

Lemma dval_pos a : 0 < fst a -> (0 < dval a)%R.
Proof.
  intros H. unfold dval. rewrite <- (dyadic_0 (snd a)). apply dyadic_lt, H.
Qed.

Lemma dval_dmul a b : dval (dmul a b) = (dval a * dval b)%R.
Proof.
  unfold dval, dmul, dyadic. cbn [fst snd]. rewrite mult_IZR, bpow_add. ring.
Qed.

Lemma chop_down_le P a :
  0 <= fst a -> 0 <= fst (chop_down P a) /\ (dval (chop_down P a) <= dval a)%R.
Proof.
  intros Ha. unfold chop_down. destruct (Z.ltb_spec 0 (Z.log2 (fst a) + 1 - P)) as [Hs|Hs].
  - set (s := Z.log2 (fst a) + 1 - P) in *. cbn [fst snd].
    assert (0 < 2 ^ s) by (apply Z.pow_pos_nonneg; lia).
    split; [apply Z.div_pos; lia|].
    unfold dval. cbn [fst snd]. rewrite <- dyadic_shift by lia.
    apply dyadic_le. rewrite Z.mul_comm. apply Z.mul_div_le. lia.
  - split; [exact Ha | lra].
Qed.

Lemma chop_up_ge P a :
  0 <= fst a -> 0 <= fst (chop_up P a) /\ (dval a <= dval (chop_up P a))%R.
Proof.
  intros Ha. unfold chop_up. destruct (Z.ltb_spec 0 (Z.log2 (fst a) + 1 - P)) as [Hs|Hs].
  - set (s := Z.log2 (fst a) + 1 - P) in *. cbn [fst snd].
    assert (0 < 2 ^ s) by (apply Z.pow_pos_nonneg; lia).
    assert (0 <= fst a / 2 ^ s) by (apply Z.div_pos; lia).
    split; [lia|].
    unfold dval. cbn [fst snd]. rewrite <- dyadic_shift by lia.
    apply dyadic_le.
    pose proof (Z.mul_succ_div_gt (fst a) (2 ^ s) ltac:(lia)). lia.
  - split; [exact Ha | lra].
Qed.

Lemma Rpow_1 x : Rpow x 1 = x.
Proof. unfold Rpow. apply powerRZ_1. Qed.

Lemma Rpow_pow x n : Rpow x n = (x ^ Pos.to_nat n)%R.
Proof. reflexivity. Qed.

Lemma Rpow_xO x n : Rpow x n~0 = (Rpow x n * Rpow x n)%R.
Proof.
  rewrite !Rpow_pow, Pos2Nat.inj_xO.
  replace (2 * Pos.to_nat n)%nat with (Pos.to_nat n + Pos.to_nat n)%nat by lia.
  apply pow_add.
Qed.

Lemma Rpow_xI x n : Rpow x n~1 = (x * (Rpow x n * Rpow x n))%R.
Proof.
  rewrite !Rpow_pow, Pos2Nat.inj_xI.
  replace (S (2 * Pos.to_nat n)) with (1 + (Pos.to_nat n + Pos.to_nat n))%nat by lia.
  rewrite !pow_add, pow_1. reflexivity.
Qed.

Lemma Rpow_nonneg x n : (0 <= x)%R -> (0 <= Rpow x n)%R.
Proof. intros H. rewrite Rpow_pow. apply pow_le, H. Qed.

Lemma Rpow_le x y n : (0 <= x <= y)%R -> (Rpow x n <= Rpow y n)%R.
Proof. intros H. rewrite !Rpow_pow. apply pow_incr, H. Qed.

Lemma Rpow_Rpower x n : (0 < x)%R -> Rpower x (IZR (Z.pos n)) = Rpow x n.
Proof. intros H. unfold Rpow. symmetry. apply powerRZ_Rpower, H. Qed.

Lemma pow_down_le P a n :
  0 <= fst a ->
  0 <= fst (pow_down P a n) /\ (dval (pow_down P a n) <= Rpow (dval a) n)%R.
Proof.
  intros Ha. pose proof (dval_nonneg a Ha) as Hx.
  induction n as [n [IH0 IH]|n [IH0 IH]|]; cbn [pow_down].
  - set (y := pow_down P a n) in *.
    assert (0 <= fst (dmul y y)) as Hyy by (cbn; nia).
    destruct (chop_down_le P (dmul y y) Hyy) as [H1 H2].
    set (z := chop_down P (dmul y y)) in *.
    assert (0 <= fst (dmul a z)) as Haz by (cbn; nia).
    destruct (chop_down_le P (dmul a z) Haz) as [H3 H4].
    split; [exact H3|]. rewrite Rpow_xI.
    rewrite dval_dmul in H2, H4.
    pose proof (dval_nonneg y IH0). pose proof (dval_nonneg z H1).
    assert (dval y * dval y <= Rpow (dval a) n * Rpow (dval a) n)%R by nra.
    assert (dval a * dval z <= dval a * (Rpow (dval a) n * Rpow (dval a) n))%R by nra.
    lra.
  - set (y := pow_down P a n) in *.
    assert (0 <= fst (dmul y y)) as Hyy by (cbn; nia).
    destruct (chop_down_le P (dmul y y) Hyy) as [H1 H2].
    split; [exact H1|]. rewrite Rpow_xO. rewrite dval_dmul in H2.
    pose proof (dval_nonneg y IH0). nra.
  - split; [exact Ha|]. rewrite Rpow_1. lra.
Qed.

Lemma pow_up_ge P a n :
  0 <= fst a ->
  0 <= fst (pow_up P a n) /\ (Rpow (dval a) n <= dval (pow_up P a n))%R.
Proof.
  intros Ha. pose proof (dval_nonneg a Ha) as Hx.
  induction n as [n [IH0 IH]|n [IH0 IH]|]; cbn [pow_up].
  - set (y := pow_up P a n) in *.
    assert (0 <= fst (dmul y y)) as Hyy by (cbn; nia).
    destruct (chop_up_ge P (dmul y y) Hyy) as [H1 H2].
    set (z := chop_up P (dmul y y)) in *.
    assert (0 <= fst (dmul a z)) as Haz by (cbn; nia).
    destruct (chop_up_ge P (dmul a z) Haz) as [H3 H4].
    split; [exact H3|]. rewrite Rpow_xI.
    rewrite dval_dmul in H2, H4.
    pose proof (Rpow_nonneg (dval a) n Hx).
    assert (Rpow (dval a) n * Rpow (dval a) n <= dval y * dval y)%R by nra.
    assert (dval a * (Rpow (dval a) n * Rpow (dval a) n) <= dval a * dval z)%R by nra.
    lra.
  - set (y := pow_up P a n) in *.
    assert (0 <= fst (dmul y y)) as Hyy by (cbn; nia).
    destruct (chop_up_ge P (dmul y y) Hyy) as [H1 H2].
    split; [exact H1|]. rewrite Rpow_xO. rewrite dval_dmul in H2.
    pose proof (Rpow_nonneg (dval a) n Hx). nra.
  - split; [exact Ha|]. rewrite Rpow_1. lra.
Qed.

Lemma dlt_sound a b : 0 <= fst a -> dlt a b = true -> (dval a < dval b)%R.
Proof.
  intros Ha. unfold dlt, dval. destruct a as [m1 e1], b as [m2 e2]. cbn [fst snd] in *.
  destruct (Z.leb_spec (Z.abs (e2 - e1)) 4096) as [_|_].
  - destruct (Z.leb_spec 0 (e2 - e1)) as [Hd|Hd]; intros H%Z.ltb_lt.
    + replace e2 with (e1 + (e2 - e1)) by lia. rewrite <- dyadic_shift by lia.
      apply dyadic_lt, H.
    + replace e1 with (e2 + - (e2 - e1)) by lia. rewrite <- dyadic_shift by lia.
      apply dyadic_lt, H.
  - intros [Hm2%Z.ltb_lt Hlog%Z.leb_le]%andb_prop.
    assert (m1 < 2 ^ (Z.log2 m1 + 1)) as H1.
    { destruct (Z.eq_dec m1 0) as [->|]; [reflexivity|].
      pose proof (Z.log2_spec m1 ltac:(lia)). rewrite <- Z.add_1_r in *. lia. }
    pose proof (Z.log2_spec m2 Hm2) as [H2 _].
    pose proof (Z.log2_nonneg m1). pose proof (Z.log2_nonneg m2).
    apply Rlt_le_trans with (dyadic (2 ^ (Z.log2 m1 + 1)) e1); [apply dyadic_lt, H1|].
    apply Rle_trans with (dyadic (2 ^ Z.log2 m2) e2); [|apply dyadic_le, H2].
    rewrite !dyadic_pow2 by lia. apply bpow_le. lia.
Qed.

(** The power [v^w] for a rational exponent [w = W/N] lies above [c] when
    [c^N < v^W], and below when [v^W < c^N]. *)
Lemma Rpower_Rpow v w N W :
  (0 < v)%R -> (w * IZR (Z.pos N) = IZR (Z.pos W))%R ->
  Rpow (Rpower v w) N = Rpow v W.
Proof.
  intros Hv Hw. rewrite <- (Rpow_Rpower (Rpower v w)) by apply exp_pos.
  rewrite Rpower_mult, Hw. apply Rpow_Rpower, Hv.
Qed.

Lemma Rpower_above P c vl v w N W :
  0 <= fst c -> 0 < fst vl -> (dval vl <= v)%R ->
  (w * IZR (Z.pos N) = IZR (Z.pos W))%R ->
  dlt (pow_up P c N) (pow_down P vl W) = true ->
  (dval c < Rpower v w)%R.
Proof.
  intros Hc Hvl Hv Hw Hlt.
  pose proof (dval_pos vl Hvl) as Hvl'.
  destruct (pow_up_ge P c N Hc) as [H0 Hup].
  destruct (pow_down_le P vl W ltac:(lia)) as [_ Hdown].
  apply (dlt_sound _ _ H0) in Hlt.
  pose proof (Rpow_le (dval vl) v W ltac:(lra)) as Hmono.
  rewrite <- (Rpower_Rpow v w N W ltac:(lra) Hw) in Hmono.
  destruct (Rlt_le_dec (dval c) (Rpower v w)) as [|Hge]; [assumption|].
  pose proof (Rpow_le (Rpower v w) (dval c) N
                (conj (Rlt_le _ _ (exp_pos _)) Hge)). lra.
Qed.

Lemma Rpower_below P c vu v w N W :
  0 <= fst c -> 0 <= fst vu -> (0 < v <= dval vu)%R ->
  (w * IZR (Z.pos N) = IZR (Z.pos W))%R ->
  dlt (pow_up P vu W) (pow_down P c N) = true ->
  (Rpower v w < dval c)%R.
Proof.
  intros Hc Hvu Hv Hw Hlt.
  destruct (pow_up_ge P vu W Hvu) as [H0 Hup].
  destruct (pow_down_le P c N Hc) as [_ Hdown].
  apply (dlt_sound _ _ H0) in Hlt.
  pose proof (Rpow_le v (dval vu) W ltac:(lra)) as Hmono.
  rewrite <- (Rpower_Rpow v w N W ltac:(lra) Hw) in Hmono.
  destruct (Rlt_le_dec (Rpower v w) (dval c)) as [|Hge]; [assumption|].
  pose proof (Rpow_le (dval c) (Rpower v w) N (conj (dval_nonneg c Hc) Hge)). lra.
Qed.

(** *** Floats around a number *)

Lemma canonical_unique (a1 : positive) e1 (a2 : positive) e2 :
  SpecFloat.bounded prec emax a1 e1 = true ->
  SpecFloat.bounded prec emax a2 e2 = true ->
  dyadic (Z.pos a1) e1 = dyadic (Z.pos a2) e2 ->
  a1 = a2 /\ e1 = e2.
Proof.
  intros H1 H2 Heq.
  destruct (SFcompare_finite a1 e1 a2 e2 H1 H2) as (_ & Hc & _).
  specialize (Hc Heq). cbn in Hc.
  destruct (Z.compare_spec e1 e2) as [->|?|?]; try discriminate.
  change (Pos.compare_cont Eq a1 a2) with (Pos.compare a1 a2) in Hc.
  destruct (Pos.compare_spec a1 a2) as [->|?|?]; try discriminate. auto.
Qed.

Lemma bounded_format (a : positive) e :
  SpecFloat.bounded prec emax a e = true ->
  0 <= Z.pos a < 2 ^ 53 /\ -1074 <= e /\ (-1074 < e -> 2 ^ 52 <= Z.pos a).
Proof. intros (He & Ha & Hn)%bounded_inv. split; [lia|]. split; [lia | exact Hn]. Qed.

(** Between two floats that follow each other, a faithful rounding is one of
    the two. *)
Lemma faithful_cases x f (c : positive) k (c' : positive) k' :
  SpecFloat.bounded prec emax c k = true ->
  SpecFloat.bounded prec emax c' k' = true ->
  dyadic (Z.pos c') k' = dyadic (Z.pos c + 1) k ->
  (dyadic (Z.pos c) k < x < dyadic (Z.pos c') k')%R ->
  faithful x f ->
  Prim2SF f = S754_finite false c k \/ Prim2SF f = S754_finite false c' k'.
Proof.
  intros Hc Hc' Hnext Hx [Hfin Hf]. unfold finite_pos, F2R in *.
  pose proof (Prim2SF_valid f) as Hv.
  destruct (Prim2SF f) as [s|s| |[] a e]; try contradiction. cbn [SF2R] in Hf.
  assert (representable (dyadic (Z.pos c) k)) as HC by (exists c, k; auto).
  assert (representable (dyadic (Z.pos c') k')) as HC' by (exists c', k'; auto).
  assert (representable (dyadic (Z.pos a) e)) as HF by (exists a, e; auto).
  destruct (Hf _ HC) as [Hlow _]. destruct (Hf _ HC') as [_ Hhigh].
  specialize (Hlow ltac:(lra)). specialize (Hhigh ltac:(lra)).
  destruct (Rle_lt_or_eq_dec _ _ Hlow) as [Hlt|Heq].
  - right. destruct (bounded_format c k Hc) as (H1 & H2 & H3).
    pose proof (gap_above _ (Z.pos c) k HF H1 H2 H3 Hlt) as Hge.
    rewrite <- Hnext in Hge.
    destruct (canonical_unique a e c' k' Hv Hc' ltac:(lra)) as [-> ->]. reflexivity.
  - left. destruct (canonical_unique a e c k Hv Hc ltac:(lra)) as [-> ->]. reflexivity.
Qed.

Lemma faithful_intro x f (c : positive) k (c' : positive) k' :
  SpecFloat.bounded prec emax c k = true ->
  SpecFloat.bounded prec emax c' k' = true ->
  dyadic (Z.pos c') k' = dyadic (Z.pos c + 1) k ->
  (dyadic (Z.pos c) k < x < dyadic (Z.pos c') k')%R ->
  Prim2SF f = S754_finite false c k \/ Prim2SF f = S754_finite false c' k' ->
  faithful x f.
Proof.
  intros Hc Hc' Hnext Hx Hf.
  destruct (bounded_format c k Hc) as (H1 & H2 & H3).
  assert (finite_pos f) as Hfin by (unfold finite_pos; destruct Hf as [-> | ->]; exact I).
  split; [exact Hfin|]. intros B HB.
  assert (dyadic (Z.pos c) k <= F2R f <= dyadic (Z.pos c') k')%R as Hb.
  { unfold F2R. destruct Hf as [-> | ->]; cbn [SF2R]; lra. }
  split; intros HBx.
  - apply Rle_trans with (dyadic (Z.pos c) k); [|lra].
    apply gap_below; try assumption; try lia. rewrite <- Hnext. lra.
  - apply Rle_trans with (dyadic (Z.pos c') k'); [lra|].
    rewrite Hnext. apply gap_above; try assumption; try lia. lra.
Qed.



End BracketFacts.

(** ** Facts about the closed form *)

Section ClosedFormFacts.

Import Reals Lra.

Lemma bpow_neg k : 0 <= k -> bpow (- k) = (/ IZR (2 ^ k))%R.
Proof.
  intros Hk. rewrite <- (bpow_IZR k Hk). unfold bpow. apply powerRZ_neg'.
Qed.

Lemma dval_neg m k : 0 <= k -> dval (m, - k) = (IZR m / IZR (2 ^ k))%R.
Proof. intros Hk. unfold dval, dyadic. cbn [fst snd]. rewrite bpow_neg by exact Hk. reflexivity. Qed.

Lemma Int_part_ge r z : (IZR z <= r)%R -> z <= Int_part r.
Proof.
  intros H. destruct (base_Int_part r) as [_ H2].
  assert (IZR z - 1 < IZR (Int_part r))%R as H3 by lra.
  rewrite <- minus_IZR in H3. apply lt_IZR in H3. lia.
Qed.

Lemma div_bounds a b d : (0 < d)%R -> (a * d <= b)%R -> (a <= b / d)%R.
Proof.
  intros Hd H. apply Rmult_le_reg_r with d; [exact Hd|].
  unfold Rdiv. rewrite Rmult_assoc, Rinv_l by lra. lra.
Qed.

Lemma div_bounds_lt a b d : (0 < d)%R -> (b < a * d)%R -> (b / d < a)%R.
Proof.
  intros Hd H. apply Rmult_lt_reg_r with d; [exact Hd|].
  unfold Rdiv. rewrite Rmult_assoc, Rinv_l by lra. lra.
Qed.

(** *** The closed form near the rate 0.05 *)

Section NearTheRate.

(** A rate from 1/20, cut after 200 binary places, to the float 0.05. *)
Variable p : R.
Hypothesis p_near :
  (dval (80346902212949513777098104617058130126110149689139641765068, -200)%Z
   <= p <= dval (7205759403792794, -57)%Z)%R.

(** The fourth root of the rate, on 120 binary places. *)
Lemma root_bracket :
  (dval (628553111732846467759843300610967923, -120)%Z < Rpower p (1 / 4) <
   dval (628553111732846476482770011180902424, -120)%Z)%R.
Proof.
  destruct p_near as [Hl Hu].
  assert (0 < dval (80346902212949513777098104617058130126110149689139641765068,
                    -200)%Z)%R by (apply dval_pos; reflexivity).
  split.
  - apply (Rpower_above 512 _
             (80346902212949513777098104617058130126110149689139641765068, -200)
             _ _ 4 1); [cbn; lia | cbn; lia | exact Hl | lra | vm_compute; reflexivity].
  - apply (Rpower_below 512 _ (7205759403792794, -57)
             _ _ 4 1); [cbn; lia | cbn; lia | lra | lra | vm_compute; reflexivity].
Qed.

Lemma phi_bracket :
  (dval (2 ^ 120 - 628553111732846476482770011180902424, -120)%Z <
   ClosedForm.phi 4 p <
   dval (2 ^ 120 - 628553111732846467759843300610967923, -120)%Z)%R.
Proof.
  destruct root_bracket as [Hl Hu]. unfold ClosedForm.phi.
  rewrite !(dval_neg _ 120) in * by lia. rewrite !minus_IZR.
  assert (0 < IZR (2 ^ 120))%R by (apply IZR_lt; reflexivity).
  unfold Rdiv in *. rewrite !Rmult_minus_distr_r, !Rinv_r by lra. lra.
Qed.

(** The root of order 100000 of [phi], between the two numbers [1 - 4/m] for
    [m = 624699] and [m = 624700]. *)
Lemma keys_root_bracket :
  (dval (1329219484626769085949623341035970692, -120)%Z <
   Rpower (ClosedForm.phi 4 p) (1 / 100000) <
   dval (1329219484640393478692999288184552801, -120)%Z)%R.
Proof.
  destruct phi_bracket as [Hl Hu].
  assert (0 < dval (2 ^ 120 - 628553111732846476482770011180902424, -120)%Z)%R
    by (apply dval_pos; reflexivity).
  split.
  - apply (Rpower_above 512 _
             (2 ^ 120 - 628553111732846476482770011180902424, -120)%Z
             _ _ 100000 1); [cbn; lia | reflexivity | lra | lra | vm_compute; reflexivity].
  - apply (Rpower_below 512 _
             (2 ^ 120 - 628553111732846467759843300610967923, -120)%Z
             _ _ 100000 1); [cbn; lia | cbn; lia | lra | lra | vm_compute; reflexivity].
Qed.

(** The closed form of section 4.1 for 100000 keys, 4 hashes and such a rate
    is 624699 and a fraction. *)
Lemma closed_form_demo : ClosedForm.capacityBits 100000 4 p = 624699.
Proof.
  unfold ClosedForm.capacityBits, ClosedForm.requiredBits. symmetry.
  apply Int_part_spec.
  destruct keys_root_bracket as [Hl Hu].
  set (y := Rpower (ClosedForm.phi 4 p) (1 / 100000)) in *.
  rewrite !(dval_neg _ 120) in * by lia.
  change (2 ^ 120) with 1329227995784915872903807060280344576 in *.
  assert (0 < 1 - y)%R as Hd by lra.
  assert (624699 <= 4 / (1 - y))%R by (apply div_bounds; lra).
  assert (4 / (1 - y) < 624700)%R by (apply div_bounds_lt; lra).
  lra.
Qed.

(** With [10^20] keys the closed form is beyond [10^20]. *)
Lemma closed_form_many_keys :
  10 ^ 20 <= ClosedForm.capacityBits (10 ^ 20) 4 p.
Proof.
  unfold ClosedForm.capacityBits, ClosedForm.requiredBits. apply Int_part_ge.
  destruct phi_bracket as [Hl Hu].
  assert (0 < dval (2 ^ 120 - 628553111732846476482770011180902424, -120)%Z)%R
    by (apply dval_pos; reflexivity).
  change (10 ^ 20) with 100000000000000000000.
  assert (dval (1329227995784915872850637940448947942, -120)%Z <
          Rpower (ClosedForm.phi 4 p) (1 / 100000000000000000000) <
          dval (1, 0)%Z)%R as [Hy Hy1].
  { split.
    - apply (Rpower_above 512 _
               (2 ^ 120 - 628553111732846476482770011180902424, -120)%Z
               _ _ 100000000000000000000 1);
        [cbn; lia | reflexivity | lra | lra | vm_compute; reflexivity].
    - apply (Rpower_below 512 _
               (2 ^ 120 - 628553111732846467759843300610967923, -120)%Z
               _ _ 100000000000000000000 1);
        [cbn; lia | cbn; lia | lra | lra | vm_compute; reflexivity]. }
  set (y := Rpower _ _) in *.
  rewrite (dval_neg _ 120) in Hy by lia.
  change (2 ^ 120) with 1329227995784915872903807060280344576 in *.
  unfold dval, dyadic, bpow in Hy1. cbn [fst snd] in Hy1. rewrite powerRZ_O in Hy1.
  apply div_bounds; lra.
Qed.

End NearTheRate.

(** 1/20 is such a rate. *)
Lemma near_twentieth :
  (dval (80346902212949513777098104617058130126110149689139641765068, -200)%Z
   <= 1 / 20 <= dval (7205759403792794, -57)%Z)%R.
Proof.
  rewrite (dval_neg _ 200), (dval_neg _ 57) by lia.
  change (2 ^ 200) with 1606938044258990275541962092341162602522202993782792835301376.
  change (2 ^ 57) with 144115188075855872.
  lra.
Qed.

(** *** The power of floats *)

Lemma float_pow_above P (v w : float) (mv : positive) ev (mw : positive) kw c :
  Prim2SF v = S754_finite false mv ev -> Prim2SF w = S754_finite false mw (- kw) ->
  0 <= kw -> 0 <= fst c ->
  dlt (pow_up P c (Z.to_pos (2 ^ kw))) (pow_down P (Z.pos mv, ev) mw) = true ->
  (dval c < Rpower (F2R v) (F2R w))%R.
Proof.
  intros Hv Hw Hk Hc Hlt. unfold F2R. rewrite Hv, Hw. cbn [SF2R].
  apply (Rpower_above P c (Z.pos mv, ev) _ _ (Z.to_pos (2 ^ kw)) mw);
    [assumption | reflexivity | unfold dval; cbn [fst snd]; lra | | assumption].
  rewrite Z2Pos.id by (apply Z.pow_pos_nonneg; lia).
  unfold dyadic. rewrite bpow_neg by exact Hk.
  assert (0 < IZR (2 ^ kw))%R by (apply IZR_lt, Z.pow_pos_nonneg; lia).
  field. lra.
Qed.

Lemma float_pow_below P (v w : float) (mv : positive) ev (mw : positive) kw c :
  Prim2SF v = S754_finite false mv ev -> Prim2SF w = S754_finite false mw (- kw) ->
  0 <= kw -> 0 <= fst c ->
  dlt (pow_up P (Z.pos mv, ev) mw) (pow_down P c (Z.to_pos (2 ^ kw))) = true ->
  (Rpower (F2R v) (F2R w) < dval c)%R.
Proof.
  intros Hv Hw Hk Hc Hlt. unfold F2R. rewrite Hv, Hw. cbn [SF2R].
  apply (Rpower_below P c (Z.pos mv, ev) _ _ (Z.to_pos (2 ^ kw)) mw);
    [assumption | cbn; lia | | | assumption].
  - split; [apply dyadic_pos | unfold dval; cbn [fst snd]; lra].
  - rewrite Z2Pos.id by (apply Z.pow_pos_nonneg; lia).
    unfold dyadic. rewrite bpow_neg by exact Hk.
    assert (0 < IZR (2 ^ kw))%R by (apply IZR_lt, Z.pow_pos_nonneg; lia).
    field. lra.
Qed.

(** A faithful power between two floats that follow each other is one of
    the two. *)
Lemma pow_faithful_cases libm_pow (v w fc fc' : float)
    (c : positive) k (c' : positive) k' :
  Prim2SF fc = S754_finite false c k ->
  Prim2SF fc' = S754_finite false c' k' ->
  dyadic (Z.pos c') k' = dyadic (Z.pos c + 1) k ->
  (dval (Z.pos c, k) < Rpower (F2R v) (F2R w) < dval (Z.pos c', k'))%R ->
  pow_faithful_at libm_pow v w ->
  libm_pow v w = fc \/ libm_pow v w = fc'.
Proof.
  intros Hc Hc' Hnext Hx Hf.
  pose proof (Prim2SF_valid fc) as Hv. rewrite Hc in Hv.
  pose proof (Prim2SF_valid fc') as Hv'. rewrite Hc' in Hv'.
  destruct (faithful_cases _ _ c k c' k' Hv Hv' Hnext Hx Hf) as [H|H];
    [left | right]; apply Prim2SF_inj; congruence.
Qed.

Lemma pow_faithful_intro libm_pow (v w : float) (c : positive) k (c' : positive) k' :
  SpecFloat.bounded prec emax c k = true ->
  SpecFloat.bounded prec emax c' k' = true ->
  dyadic (Z.pos c') k' = dyadic (Z.pos c + 1) k ->
  (dval (Z.pos c, k) < Rpower (F2R v) (F2R w) < dval (Z.pos c', k'))%R ->
  Prim2SF (libm_pow v w) = S754_finite false c k \/
  Prim2SF (libm_pow v w) = S754_finite false c' k' ->
  pow_faithful_at libm_pow v w.
Proof.
  intros Hc Hc' Hnext Hx Hf. exact (faithful_intro _ _ c k c' k' Hc Hc' Hnext Hx Hf).
Qed.

End ClosedFormFacts.

(** ** Facts about the methods *)

Create HintDb bloom.

Section MethodFacts.

Variable libm_pow : float -> float -> float.
Variable BitHash : string -> Z -> Z.

Implicit Types (self : t) (key : string) (seed i : Z) (n : nat).

Local Abbreviation insert_loop := (insert_loop BitHash).
Local Abbreviation find_loop := (find_loop BitHash).
Local Abbreviation insert := (insert BitHash).
Local Abbreviation find := (find BitHash).
Local Abbreviation hashChain := (hashChain BitHash).
Local Abbreviation after := (after libm_pow BitHash).
Local Abbreviation after_all := (after_all libm_pow BitHash).
Local Abbreviation reachable := (reachable libm_pow BitHash).

(** *** One round of each loop *)

Lemma insert_loop_step key n seed self :
  insert_loop key (S n) seed self =
  let h := BitHash key seed in
  match int_mod h (__size self) with
  | Raise e => Run (Raise e) self []
  | Return hv =>
      match BitVector.getitem (__bv self) hv with
      | Raise e => Run (Raise e) self [Read hv]
      | Return true =>
          let r := insert_loop key n h self in
          Run (result r) (final r) (Read hv :: accesses r)
      | Return false =>
          let r := insert_loop key n h (set_bit hv self) in
          Run (result r) (final r) (Read hv :: Write hv :: accesses r)
      end
  end.
Proof.
  cbn [BloomFilter.insert_loop]. unfold and_then, attr, eval, bv_get. cbn.
  destruct (int_mod _ _) as [hv|e]; cbn; [|reflexivity].
  destruct (BitVector.getitem _ hv) as [[]|e] eqn:Hget; cbn; try reflexivity.
  unfold bv_set. rewrite setitem_in_range by (eapply getitem_in_range; eassumption).
  reflexivity.
Qed.

Lemma find_loop_step key n seed self :
  find_loop key (S n) seed self =
  let h := BitHash key seed in
  match int_mod h (__size self) with
  | Raise e => Run (Raise e) self []
  | Return hv =>
      match BitVector.getitem (__bv self) hv with
      | Raise e => Run (Raise e) self [Read hv]
      | Return true =>
          let r := find_loop key n h self in
          Run (result r) (final r) (Read hv :: accesses r)
      | Return false => Run (Return false) self [Read hv]
      end
  end.
Proof.
  cbn [BloomFilter.find_loop]. unfold and_then, attr, eval, bv_get. cbn.
  destruct (int_mod _ _) as [hv|e]; cbn; [|reflexivity].
  destruct (BitVector.getitem _ hv) as [[]|e] eqn:Hget; cbn; reflexivity.
Qed.

Lemma insert_eq key self :
  insert key self = insert_loop key (Z.to_nat (__numHashes self)) 0 self.
Proof.
  unfold BloomFilter.insert, and_then, attr. cbn.
  destruct (insert_loop _ _ _ _). reflexivity.
Qed.

Lemma find_eq key self :
  find key self = find_loop key (Z.to_nat (__numHashes self)) 0 self.
Proof.
  unfold BloomFilter.find, and_then, attr. cbn.
  destruct (find_loop _ _ _ _). reflexivity.
Qed.

(** Opens the next round of the loops in the goal, one case per way the
    round can go: the modulo raises, the read raises, the bit is 1, the bit
    is 0. *)
Ltac next_round hv Hget :=
  rewrite ?insert_loop_step, ?find_loop_step; cbn zeta;
  destruct (int_mod _ _) as [hv|?];
  [destruct (BitVector.getitem _ hv) as [[]|?] eqn:Hget|]; cbn.

(** *** Bits are only ever added *)

Lemma bit_true self i :
  bit self i = true <-> BitVector.getitem (__bv self) i = Return true.
Proof.
  unfold bit. destruct (BitVector.getitem _ _) as [[]|]; split; congruence.
Qed.

Lemma getitem_Raise_ValueError (v : list bool) i e :
  BitVector.getitem v i = Raise e -> e = ValueError.
Proof.
  unfold BitVector.getitem. destruct (decide _); [destruct (v !! _)|]; congruence.
Qed.

(** A read out of range raises on every vector of the same length. *)
Lemma getitem_Raise_length (v v' : list bool) i e :
  length v' = length v ->
  BitVector.getitem v i = Raise e -> BitVector.getitem v' i = Raise e.
Proof.
  intros Hlen He. pose proof (getitem_Raise_ValueError _ _ _ He) as ->.
  apply getitem_Raise in He.
  destruct (BitVector.getitem v' i) as [b|e'] eqn:E.
  - apply getitem_in_range in E. unfold BitVector.in_range in *. rewrite Hlen in E.
    contradiction.
  - f_equal. eapply getitem_Raise_ValueError; eassumption.
Qed.

Lemma extends_refl self : extends self self.
Proof. unfold extends. tauto. Qed.

Lemma extends_trans a b c : extends a b -> extends b c -> extends a c.
Proof.
  unfold extends. intros (?&?&?&?&?&Hb&?) (?&?&?&?&?&Hc&?).
  repeat split; try congruence; try lia. auto.
Qed.

Lemma extends_bit a b i : extends a b -> bit a i = true -> bit b i = true.
Proof. intros (_&_&_&_&_&H&_). apply H. Qed.

Lemma bit_set_bit self i :
  BitVector.in_range (__bv self) i -> bit (set_bit i self) i = true.
Proof.
  intros H. apply bit_true. cbn. apply getitem_insert_same, H.
Qed.

Lemma extends_set_bit self i :
  BitVector.getitem (__bv self) i = Return false -> extends self (set_bit i self).
Proof.
  intros H. pose proof (getitem_in_range _ _ _ H) as Hr.
  apply getitem_Return in H as [Hi Hl].
  unfold extends. cbn. repeat split.
  - apply length_insert.
  - intros j Hj. destruct (decide (i = j)) as [<-|Hne].
    + apply (bit_set_bit self i Hr).
    + apply bit_true. cbn. rewrite getitem_insert_other by assumption.
      apply bit_true, Hj.
  - rewrite (count_insert_true _ _ Hl). lia.
Qed.

(** [insert] only adds bits, and moves the counter with them, also when it
    raises on the way. *)
Lemma insert_loop_extends key n seed self :
  extends self (final (insert_loop key n seed self)).
Proof.
  revert seed self. induction n as [|n IH]; intros seed self;
    [apply extends_refl|].
  next_round hv Hget; try apply extends_refl; [apply IH|].
  eapply extends_trans; [apply extends_set_bit, Hget | apply IH].
Qed.

Lemma insert_extends key self : extends self (final (insert key self)).
Proof. rewrite insert_eq. apply insert_loop_extends. Qed.

(** [find] changes nothing. *)
Lemma find_loop_final key n seed self : final (find_loop key n seed self) = self.
Proof.
  revert seed. induction n as [|n IH]; intros seed; [reflexivity|].
  next_round hv Hget; auto.
Qed.

Lemma find_final key self : final (find key self) = self.
Proof. rewrite find_eq. apply find_loop_final. Qed.

(** Nor does [falsePositiveRate]. *)
Lemma falsePositiveRate_final self : final (falsePositiveRate libm_pow self) = self.
Proof.
  unfold falsePositiveRate, and_then, attr, eval. cbn.
  destruct (float_of_int (__numBitsSet self)); cbn; [|reflexivity].
  destruct (float_of_int (__size self)); cbn; [|reflexivity].
  destruct (float_truediv _ _); cbn; [|reflexivity].
  destruct (float_of_int (__numHashes self)); cbn; reflexivity.
Qed.

Lemma falsePositiveRate_accesses self :
  accesses (falsePositiveRate libm_pow self) = [].
Proof.
  unfold falsePositiveRate, and_then, attr, eval. cbn.
  destruct (float_of_int (__numBitsSet self)); cbn; [|reflexivity].
  destruct (float_of_int (__size self)); cbn; [|reflexivity].
  destruct (float_truediv _ _); cbn; [|reflexivity].
  destruct (float_of_int (__numHashes self)); cbn; reflexivity.
Qed.

Lemma after_extends c self : extends self (after c self).
Proof.
  destruct c as [key|key| |]; cbn [BloomFilter.after].
  - apply insert_extends.
  - rewrite find_final. apply extends_refl.
  - rewrite falsePositiveRate_final. apply extends_refl.
  - apply extends_refl.
Qed.

Lemma after_all_extends calls self : extends self (after_all calls self).
Proof.
  revert self. induction calls as [|c calls IH]; intros self; cbn.
  - apply extends_refl.
  - eapply extends_trans; [apply after_extends | apply IH].
Qed.

#[local] Hint Resolve extends_refl insert_loop_extends insert_extends
  after_extends after_all_extends : bloom.

(** A bit that a run of the loop starts from is still there on every object
    that extends what the run left. *)
Lemma getitem_later key n seed self self' i :
  extends (final (insert_loop key n seed self)) self' ->
  bit self i = true ->
  BitVector.getitem (__bv self') i = Return true.
Proof.
  intros Hext Hbit. apply bit_true.
  eapply extends_bit; [exact Hext|].
  eapply extends_bit; [|exact Hbit]. auto with bloom.
Qed.

(** *** A second run over the same chain *)

(** On an object that already has the bits a run of the loop left, the same
    run changes nothing and ends the same way. *)
Lemma insert_loop_absorbed key n seed self self' :
  extends (final (insert_loop key n seed self)) self' ->
  result (insert_loop key n seed self') = result (insert_loop key n seed self) /\
  final (insert_loop key n seed self') = self'.
Proof.
  revert seed self self'. induction n as [|n IH]; intros seed self self' Hext;
    [cbn; auto|].
  pose proof (extends_trans _ _ _ (insert_loop_extends key (S n) seed self) Hext)
    as (Hsz&_&_&_&Hlen&_&_).
  revert Hext. rewrite (insert_loop_step _ _ _ self'), Hsz.
  next_round hv Hget; auto; intros Hext.
  - rewrite (getitem_later _ _ _ self self' hv Hext) by (apply bit_true, Hget).
    cbn. apply (IH _ self), Hext.
  - rewrite (getitem_later _ _ _ (set_bit hv self) self' hv Hext)
      by (eapply bit_set_bit, getitem_in_range, Hget).
    cbn. apply (IH _ (set_bit hv self)), Hext.
  - rewrite (getitem_Raise_length _ _ _ _ Hlen Hget). cbn. auto.
Qed.

(** After a run of the loop of [insert] that returned, the loop of [find]
    from the same seed answers True, on that object and on every later one. *)
Lemma find_loop_after_insert key n seed self self' :
  result (insert_loop key n seed self) = Return tt ->
  extends (final (insert_loop key n seed self)) self' ->
  result (find_loop key n seed self') = Return true.
Proof.
  revert seed self self'. induction n as [|n IH]; intros seed self self';
    [reflexivity|].
  intros Hres Hext.
  pose proof (extends_trans _ _ _ (insert_loop_extends key (S n) seed self) Hext)
    as (Hsz&_&_&_&Hlen&_&_).
  revert Hres Hext. rewrite find_loop_step, Hsz.
  next_round hv Hget; try discriminate; intros Hres Hext.
  - rewrite (getitem_later _ _ _ self self' hv Hext) by (apply bit_true, Hget).
    cbn. apply (IH _ self); assumption.
  - rewrite (getitem_later _ _ _ (set_bit hv self) self' hv Hext)
      by (eapply bit_set_bit, getitem_in_range, Hget).
    cbn. apply (IH _ (set_bit hv self)); assumption.
Qed.

(** *** On a filter with a positive capacity *)

Lemma ready_extends a b : ready a -> extends a b -> ready b.
Proof.
  unfold ready, extends. intros [? ?] (?&_&_&_&?&_). split; lia.
Qed.

Lemma ready_set_bit self i : ready self -> ready (set_bit i self).
Proof.
  unfold ready. cbn. rewrite length_insert. auto.
Qed.

Lemma ready_int_mod self h :
  ready self ->
  int_mod h (__size self) = Return (h mod __size self) /\
  BitVector.in_range (__bv self) (h mod __size self).
Proof.
  intros [Hpos Hlen]. unfold int_mod, BitVector.in_range.
  destruct (decide _); [lia|]. split; [reflexivity|].
  rewrite Hlen. apply Z.mod_pos_bound, Hpos.
Qed.

(** On such a filter the loop of [insert] returns, after reading the
    positions of the chain in order, each inside the array. *)
Lemma insert_loop_ready key n seed self :
  ready self ->
  let r := insert_loop key n seed self in
  result r = Return tt /\
  reads (accesses r) = map (fun h => h mod __size self) (hashChain key n seed) /\
  Forall (in_bounds self) (accesses r).
Proof.
  revert seed self. induction n as [|n IH]; intros seed self Hready.
  - cbn. auto.
  - cbn zeta. rewrite insert_loop_step. cbn zeta.
    destruct (ready_int_mod self (BitHash key seed) Hready) as [-> Hin].
    assert (in_bounds self (Read (BitHash key seed mod __size self)) /\
            in_bounds self (Write (BitHash key seed mod __size self))) as [HR HW].
    { unfold in_bounds. cbn. destruct Hready as [? Hlen].
      unfold BitVector.in_range in Hin. rewrite Hlen in Hin. auto. }
    destruct (in_range_getitem _ _ Hin) as [[] ->]; cbn.
    + destruct (IH (BitHash key seed) self Hready) as (Hres & Hreads & Hacc).
      rewrite Hres, Hreads. auto.
    + destruct (IH (BitHash key seed) _
                  (ready_set_bit self (BitHash key seed mod __size self) Hready))
        as (Hres & Hreads & Hacc).
      rewrite Hres, Hreads. auto.
Qed.

(** On such a filter the loop of [find] returns whether every position of
    the chain has its bit set, after reading them up to the first that has
    not. *)
Lemma find_loop_ready key n seed self :
  ready self ->
  let idx := map (fun h => h mod __size self) (hashChain key n seed) in
  find_loop key n seed self =
  Run (Return (forallb (bit self) idx)) self (map Read (upto_first_zero self idx)).
Proof.
  intros Hready. revert seed. induction n as [|n IH]; intros seed.
  - reflexivity.
  - cbn zeta. rewrite find_loop_step. cbn zeta.
    destruct (ready_int_mod self (BitHash key seed) Hready) as [-> Hin].
    cbn [BloomFilter.hashChain map forallb upto_first_zero].
    unfold bit at 1 3.
    destruct (in_range_getitem _ _ Hin) as [[] ->]; cbn; [|reflexivity].
    rewrite (IH (BitHash key seed)). reflexivity.
Qed.

Lemma reads_map_Read (l : list Z) : reads (map Read l) = l.
Proof.
  induction l as [|i l IH]; cbn; congruence.
Qed.

Lemma upto_first_zero_all self (l : list Z) :
  forallb (bit self) l = true -> upto_first_zero self l = l.
Proof.
  induction l as [|i l IH]; cbn; [reflexivity|].
  destruct (bit self i); cbn; [|discriminate]. intros H. rewrite IH; auto.
Qed.

Lemma upto_first_zero_Forall self (P : Z -> Prop) (l : list Z) :
  Forall P l -> Forall P (upto_first_zero self l).
Proof.
  induction 1 as [|i l Hi Hl IH]; cbn; [constructor|].
  constructor; [exact Hi|]. destruct (bit self i); [exact IH | constructor].
Qed.

Lemma hashChain_length key n seed : length (hashChain key n seed) = n.
Proof.
  revert seed. induction n as [|n IH]; intros seed; cbn; auto.
Qed.

(** The chain, position by position: [j + 1] applications of the hash to the
    seed. *)
Lemma hashChain_lookup key n seed (j : nat) :
  (j < n)%nat ->
  hashChain key n seed !! j = Some (Nat.iter (S j) (BitHash key) seed).
Proof.
  revert seed j. induction n as [|n IH]; intros seed j Hj; [lia|].
  destruct j as [|j]; [reflexivity|].
  cbn [BloomFilter.hashChain lookup list_lookup]. rewrite IH by lia.
  f_equal. cbn. f_equal. clear. induction j as [|j IHj]; cbn; congruence.
Qed.

(** *** The counter *)

Lemma counted_extends a b : counted a -> extends a b -> counted b.
Proof.
  unfold counted, extends. intros [? ?] (?&_&_&_&?&_&?). split; lia.
Qed.

Lemma init_counted numKeys numHashes maxFalsePositive self :
  __init__ libm_pow numKeys numHashes maxFalsePositive = Return self ->
  counted self.
Proof.
  unfold __init__, bind, BitVector.new.
  destruct (__bitsNeeded _ _ _ _) as [m|]; [|discriminate].
  destruct (decide (0 <= m)); [|discriminate].
  intros [= <-]. unfold counted. cbn.
  rewrite length_replicate, count_replicate_false. lia.
Qed.

(** Every public method keeps the invariant, also when it raises. *)
Lemma reachable_counted self : reachable self -> counted self.
Proof.
  induction 1 as [numKeys numHashes rate self Hinit|c self _ IH].
  - eapply init_counted, Hinit.
  - eapply counted_extends; [exact IH | apply after_extends].
Qed.

Lemma reachable_ready self : reachable self -> 0 < __size self -> ready self.
Proof.
  intros [Hlen _]%reachable_counted Hpos. split; assumption.
Qed.

End MethodFacts.

(** ** Facts about the sizing *)

Section SizingFacts.

Import Reals Lra.

Variable libm_pow : float -> float -> float.
Variable BitHash : string -> Z -> Z.

Implicit Types (self : t) (n k : Z) (p : float).

Local Abbreviation __init__ := (__init__ libm_pow).
Local Abbreviation __bitsNeeded := (__bitsNeeded libm_pow).
Local Abbreviation falsePositiveRate := (falsePositiveRate libm_pow).
Local Abbreviation reachable := (reachable libm_pow BitHash).

Lemma ltb_leb (f g : float) : (f <? g)%float = true -> (f <=? g)%float = true.
Proof.
  rewrite ltb_spec, leb_spec. unfold SFltb, SFleb.
  destruct (SFcompare _ _) as [[]|]; congruence.
Qed.

Lemma zero_div (b : float) : finite_pos b -> (0 / b)%float = 0%float.
Proof.
  intros Hb. apply Prim2SF_inj. rewrite div_spec, zero_SF. unfold finite_pos in Hb.
  destruct (Prim2SF b) as [s|s| |[] m e]; try contradiction. reflexivity.
Qed.



(** The steps of a call of [__bitsNeeded] that returned. *)
Lemma bitsNeeded_Return n k p size :
  __bitsNeeded n k p = Return size ->
  exists fk pw fn q f,
    float_of_int k = Return fk /\
    float_pow libm_pow p (1 / fk) = Return pw /\
    float_of_int n = Return fn /\
    number_pow libm_pow (one_minus pw) (1 / fn) = Return q /\
    float_over fk (one_minus q) = Return (Float f) /\
    int_of_float f = Return size.
Proof.
  unfold BloomFilter.__bitsNeeded, bind.
  destruct (float_of_int k) as [fk|] eqn:Hk; [|discriminate].
  unfold float_truediv at 1.
  destruct (fk =? 0)%float; [discriminate|].
  destruct (float_pow libm_pow p (1 / fk)) as [pw|] eqn:Hpw; [|discriminate].
  destruct (float_of_int n) as [fn|] eqn:Hn; [|discriminate].
  unfold float_truediv at 1.
  destruct (fn =? 0)%float; [discriminate|].
  destruct (number_pow libm_pow (one_minus pw) (1 / fn)) as [q|] eqn:Hq; [|discriminate].
  destruct (float_over fk (one_minus q)) as [[f|]|] eqn:Hf; try discriminate.
  cbn [int_of_number]. intros Hsize. exists fk, pw, fn, q, f. repeat split; assumption.
Qed.

Lemma init_Return n k p self :
  __init__ n k p = Return self ->
  __bitsNeeded n k p = Return (__size self) /\ 0 <= __size self /\
  __numKeys self = n /\ __numHashes self = k /\ __maxFalsePositive self = p.
Proof.
  unfold BloomFilter.__init__, bind, BitVector.new.
  destruct (__bitsNeeded n k p) as [m|]; [|discriminate].
  destruct (decide (0 <= m)); [|discriminate].
  intros [= <-]. cbn. auto.
Qed.

(** On every object a program can hold, the hash count converts to a float
    and the capacity is the integer part of one. *)
Lemma reachable_floats self :
  reachable self ->
  exists fk f,
    float_of_int (__numHashes self) = Return fk /\
    int_of_float f = Return (__size self).
Proof.
  induction 1 as [n k p self Hinit|c self _ (fk & f & Hk & Hf)].
  - apply init_Return in Hinit as (Hbits & _ & _ & -> & _).
    apply bitsNeeded_Return in Hbits as (fk & _ & _ & _ & f & Hk & _ & _ & _ & _ & Hf).
    eauto.
  - destruct (after_extends libm_pow BitHash c self) as (-> & _ & -> & _). eauto.
Qed.

End SizingFacts.

(** ** The sizing on the examples *)

Section Instances.

Import Reals Lra.

(** [0.05 ** 0.25] over the real numbers is between two floats that follow
    each other. *)
Lemma demo_root_bracket :
  (dval (Z.pos 8518483115790951, -54)%Z < Rpower (F2R demoRate) (F2R 0.25) <
   dval (Z.pos 8518483115790952, -54)%Z)%R.
Proof.
  split.
  - apply (float_pow_above 256 demoRate 0.25 7205759403792794 (-57)
             4503599627370496 54); [reflexivity | reflexivity | lia | cbn; lia |].
    vm_compute. reflexivity.
  - apply (float_pow_below 256 demoRate 0.25 7205759403792794 (-57)
             4503599627370496 54); [reflexivity | reflexivity | lia | cbn; lia |].
    vm_compute. reflexivity.
Qed.

(** So is [phi ** 1e-05], for the [phi] of the demonstration. *)
Lemma demo_keys_bracket :
  (dval (Z.pos 9007141580963421, -53)%Z <
   Rpower (F2R 0x1.0de3e0bedd6ccp-1) (F2R 0x1.4f8b588e368f1p-17) <
   dval (Z.pos 9007141580963422, -53)%Z)%R.
Proof.
  split.
  - apply (float_pow_above 256 _ _ 4747957696845516 (-53)
             5902958103587057 69); [reflexivity | reflexivity | lia | cbn; lia |].
    vm_compute. reflexivity.
  - apply (float_pow_below 256 _ _ 4747957696845516 (-53)
             5902958103587057 69); [reflexivity | reflexivity | lia | cbn; lia |].
    vm_compute. reflexivity.
Qed.

(** [phi ** 1e-20] is between the float just below 1 and 1. *)
Lemma many_keys_bracket :
  (dval (Z.pos 9007199254740991, -53)%Z <
   Rpower (F2R 0x1.0de3e0bedd6ccp-1) (F2R 0x1.79ca10c924223p-67) <
   dval (Z.pos 4503599627370496, -52)%Z)%R.
Proof.
  split.
  - apply (float_pow_above 256 _ _ 4747957696845516 (-53)
             6646139978924579 119); [reflexivity | reflexivity | lia | cbn; lia |].
    vm_compute. reflexivity.
  - apply (float_pow_below 256 _ _ 4747957696845516 (-53)
             6646139978924579 119); [reflexivity | reflexivity | lia | cbn; lia |].
    vm_compute. reflexivity.
Qed.


(** [__bitsNeeded] once its two powers have a value. *)
Lemma bitsNeeded_run libm_pow n k p fk w fn w' x1 x2 :
  float_of_int k = Return fk -> float_truediv 1 fk = Return w ->
  float_pow libm_pow p w = Return (Float x1) ->
  float_of_int n = Return fn -> float_truediv 1 fn = Return w' ->
  float_pow libm_pow (1 - x1) w' = Return (Float x2) ->
  __bitsNeeded libm_pow n k p =
    let* nBits := float_over fk (Float (1 - x2)) in int_of_number nBits.
Proof.
  intros Hk Hw Hx1 Hn Hw' Hx2. unfold __bitsNeeded.
  rewrite Hk. cbn [bind]. rewrite Hw. cbn [bind]. rewrite Hx1. cbn [bind one_minus].
  rewrite Hn. cbn [bind]. rewrite Hw'. cbn [bind number_pow]. rewrite Hx2.
  reflexivity.
Qed.

(** The constructor returns an object for every capacity that is not
    negative. *)
Lemma init_run libm_pow n k p size :
  __bitsNeeded libm_pow n k p = Return size -> 0 <= size ->
  exists self, __init__ libm_pow n k p = Return self /\ __size self = size /\
               __numHashes self = k.
Proof.
  intros Hbits Hsize. unfold __init__, BitVector.new. rewrite Hbits. cbn [bind].
  destruct (decide (0 <= size)); [|contradiction]. cbn [bind].
  eexists. split; [reflexivity|]. split; reflexivity.
Qed.

(** The two values a faithful power can take at each call. *)
Lemma demo_root_cases libm_pow :
  pow_faithful_at libm_pow demoRate (1 / 4)%float ->
  libm_pow demoRate (1 / 4)%float = 0x1.e4383e8245267p-2%float \/
  libm_pow demoRate (1 / 4)%float = 0x1.e4383e8245268p-2%float.
Proof.
  apply (pow_faithful_cases libm_pow demoRate (1 / 4)%float _ _
           8518483115790951 (-54) 8518483115790952 (-54));
    [reflexivity | reflexivity | reflexivity | exact demo_root_bracket].
Qed.

Lemma demo_keys_cases libm_pow :
  pow_faithful_at libm_pow 0x1.0de3e0bedd6ccp-1%float (1 / 100000)%float ->
  libm_pow 0x1.0de3e0bedd6ccp-1%float (1 / 100000)%float = 0x1.ffff2925ffe5dp-1%float \/
  libm_pow 0x1.0de3e0bedd6ccp-1%float (1 / 100000)%float = 0x1.ffff2925ffe5ep-1%float.
Proof.
  apply (pow_faithful_cases libm_pow _ (1 / 100000)%float _ _
           9007141580963421 (-53) 9007141580963422 (-53));
    [reflexivity | reflexivity | reflexivity | exact demo_keys_bracket].
Qed.

Lemma many_keys_cases libm_pow :
  pow_faithful_at libm_pow 0x1.0de3e0bedd6ccp-1%float (1 / 100000000000000000000)%float ->
  libm_pow 0x1.0de3e0bedd6ccp-1%float (1 / 100000000000000000000)%float =
    0x1.fffffffffffffp-1%float \/
  libm_pow 0x1.0de3e0bedd6ccp-1%float (1 / 100000000000000000000)%float = 1%float.
Proof.
  apply (pow_faithful_cases libm_pow _ (1 / 100000000000000000000)%float _ _
           9007199254740991 (-53) 4503599627370496 (-52));
    [reflexivity | reflexivity | | exact many_keys_bracket].
  change (Z.pos 9007199254740991 + 1) with (2 ^ 53).
  change (Z.pos 4503599627370496) with (2 ^ 52).
  rewrite !dyadic_pow2 by lia. reflexivity.
Qed.

Lemma coarsePow_in_unit : pow_in_unit coarsePow.
Proof.
  intros v w Hv0 Hv1 _. unfold coarsePow.
  destruct (w =? 1)%float; [split; apply ltb_leb; assumption|].
  destruct (w <? 1)%float; [apply in_unit_one | apply in_unit_zero].
Qed.

Lemma roundedPow_faithful :
  pow_faithful_at roundedPow demoRate (1 / 4)%float /\
  pow_faithful_at roundedPow (1 - roundedPow demoRate (1 / 4))%float (1 / 100000)%float /\
  pow_faithful_at roundedPow (1 - roundedPow demoRate (1 / 4))%float
    (1 / 100000000000000000000)%float.
Proof.
  split; [|split].
  - apply (pow_faithful_intro roundedPow demoRate (1 / 4)%float
             8518483115790951 (-54) 8518483115790952 (-54));
      [reflexivity | reflexivity | reflexivity | exact demo_root_bracket|].
    right. reflexivity.
  - apply (pow_faithful_intro roundedPow _ (1 / 100000)%float
             9007141580963421 (-53) 9007141580963422 (-53));
      [reflexivity | reflexivity | reflexivity | exact demo_keys_bracket|].
    left. reflexivity.
  - apply (pow_faithful_intro roundedPow _ (1 / 100000000000000000000)%float
             9007199254740991 (-53) 4503599627370496 (-52));
      [reflexivity | reflexivity | | exact many_keys_bracket|].
    + change (Z.pos 9007199254740991 + 1) with (2 ^ 53).
      change (Z.pos 4503599627370496) with (2 ^ 52).
      rewrite !dyadic_pow2 by lia. reflexivity.
    + right. reflexivity.
Qed.


(** The float 0.05 is a rate near 1/20. *)
Lemma near_demoRate :
  (dval (80346902212949513777098104617058130126110149689139641765068, -200)%Z
   <= F2R demoRate <= dval (7205759403792794, -57)%Z)%R.
Proof.
  assert (F2R demoRate = dval (7205759403792794, -57)%Z) as -> by reflexivity.
  split; [|lra]. pose proof near_twentieth. lra.
Qed.

End Instances.

Example smallFilter_constructed :
  __init__ coarsePow 1 1 0.25 = Return smallFilter.
Proof. reflexivity. Qed.

(** ** The properties of the specification *)

Section Properties.

Variable libm_pow : float -> float -> float.
Variable BitHash : string -> Z -> Z.

Implicit Types (self : t) (key x : string) (n k : Z) (p : float).

Local Abbreviation __init__ := (__init__ libm_pow).
Local Abbreviation __bitsNeeded := (__bitsNeeded libm_pow).
Local Abbreviation insert := (insert BitHash).
Local Abbreviation find := (find BitHash).
Local Abbreviation hashIndices := (hashIndices BitHash).
Local Abbreviation after_all := (after_all libm_pow BitHash).
Local Abbreviation reachable := (reachable libm_pow BitHash).

(** C1 (no false negatives).  Once [insert(x)] has returned, [find(x)]
    returns True: at once ([calls] empty) and after any further calls of
    the public methods, the insertions of other keys among them. *)
Theorem no_false_negatives self x (calls : list call) :
  result (insert x self) = Return tt ->
  result (find x (after_all calls (final (insert x self)))) = Return true.
Proof.
  intros Hins. rewrite insert_eq in Hins.
  pose proof (after_all_extends libm_pow BitHash calls (final (insert x self)))
    as Hext.
  rewrite find_eq.
  pose proof (extends_trans _ _ _ (insert_extends BitHash x self) Hext)
    as (_&_&->&_).
  rewrite insert_eq in Hext.
  eapply find_loop_after_insert; eassumption.
Qed.

(** C2, as amended.  On a filter with a positive capacity, [insert] reads
    exactly [hashCount] positions: position [j] is the hash applied [j + 1]
    times to the seed 0, each time to the raw output before it, reduced
    modulo the capacity.  [find] reads the same positions in the same order,
    but only up to the first whose bit is 0: all of them when it returns
    True. *)
Theorem index_derivation self key :
  ready self ->
  length (hashIndices key self) = Z.to_nat (__numHashes self) /\
  (forall j : nat, (j < Z.to_nat (__numHashes self))%nat ->
     hashIndices key self !! j =
       Some (Nat.iter (S j) (BitHash key) 0 mod __size self)) /\
  reads (accesses (insert key self)) = hashIndices key self /\
  reads (accesses (find key self)) =
    upto_first_zero self (hashIndices key self) /\
  (result (find key self) = Return true ->
   reads (accesses (find key self)) = reads (accesses (insert key self))).
Proof.
  intros Hready.
  pose proof (insert_loop_ready BitHash key (Z.to_nat (__numHashes self)) 0 self Hready)
    as (_ & Hreads & _).
  pose proof (find_loop_ready BitHash key (Z.to_nat (__numHashes self)) 0 self Hready)
    as Hfind.
  cbn zeta in *. rewrite <- insert_eq in Hreads. rewrite <- find_eq in Hfind.
  fold (hashIndices key self) in *.
  assert (reads (accesses (find key self)) = upto_first_zero self (hashIndices key self))
    as Hreads' by (rewrite Hfind; apply reads_map_Read).
  repeat split.
  - unfold BloomFilter.hashIndices. rewrite length_map. apply hashChain_length.
  - intros j Hj. unfold BloomFilter.hashIndices.
    rewrite list_lookup_fmap, (hashChain_lookup BitHash key _ 0 j Hj). reflexivity.
  - exact Hreads.
  - exact Hreads'.
  - rewrite Hreads', Hreads, Hfind. cbn. intros [= Hall].
    apply upto_first_zero_all, Hall.
Qed.

(** C4, as amended.  The constructor checks none of its parameters and has
    no error of its own: it fails only where the sizing arithmetic or the
    bit vector raises.  With [hashCount = 0] it raises [ZeroDivisionError];
    with [expectedKeys = 0] it always raises, [ZeroDivisionError] or
    [OverflowError]; with [targetFalsePositiveRate = 1.0] (100000 keys, 4
    hashes) it returns a filter of capacity 4; and a computed capacity of 0
    is accepted (rate [+inf]). *)
Theorem construction_unvalidated :
  (forall n p, __init__ n 0 p = Raise ZeroDivisionError) /\
  (forall k p, __init__ 0 k p = Raise ZeroDivisionError \/
               __init__ 0 k p = Raise OverflowError) /\
  __init__ 100000 4 1%float =
    Return (Self 4 (replicate 4 false) 100000 4 1%float 0) /\
  __init__ 1 1 infinity = Return (Self 0 [] 1 1 infinity 0).
Proof.
  split; [|split; [|split]]; try reflexivity.
  intros k p.
  assert (__bitsNeeded 0 k p = Raise ZeroDivisionError \/
          __bitsNeeded 0 k p = Raise OverflowError) as [H|H];
    [|unfold BloomFilter.__init__; rewrite H; auto..].
  unfold BloomFilter.__bitsNeeded, bind.
  destruct (float_of_int k) as [fk|e] eqn:Hk;
    [|apply float_of_int_Raise in Hk as ->; auto].
  destruct (float_truediv 1 fk) as [w|e] eqn:Hw;
    [|apply float_truediv_Raise in Hw as ->; auto].
  destruct (float_pow libm_pow p w) as [pw|e] eqn:Hpw;
    [left; reflexivity|].
  apply float_pow_Raise in Hpw as [-> | ->]; auto.
Qed.

(** C5, as amended.  On every filter the constructor returned, whatever was
    called on it since, whose capacity is at least 1, [insert(key)] and
    [find(key)] return for every key, and every access they make to the bit
    array is at a position in [0, capacityBits). *)
Theorem insert_find_total self key :
  reachable self -> 0 < __size self ->
  result (insert key self) = Return tt /\
  (exists b, result (find key self) = Return b) /\
  Forall (in_bounds self) (accesses (insert key self)) /\
  Forall (in_bounds self) (accesses (find key self)).
Proof.
  intros Hreach Hpos.
  pose proof (reachable_ready libm_pow BitHash self Hreach Hpos) as Hready.
  pose proof (insert_loop_ready BitHash key (Z.to_nat (__numHashes self)) 0 self Hready)
    as (Hres & Hreads & Hacc).
  pose proof (find_loop_ready BitHash key (Z.to_nat (__numHashes self)) 0 self Hready)
    as Hfind.
  cbn zeta in *. rewrite <- insert_eq in Hres, Hacc. rewrite <- find_eq in Hfind.
  repeat split; try assumption.
  - rewrite Hfind. eexists. reflexivity.
  - rewrite Hfind. cbn. apply Forall_fmap, upto_first_zero_Forall.
    apply Forall_fmap, Forall_forall. intros h _. unfold in_bounds. cbn.
    apply Z.mod_pos_bound, Hpos.
Qed.

(** C6.  On a filter with a positive capacity, [find(key)] returns whether
    every derived bit is 1: False if any of them is 0, True if all are 1.  It
    leaves the object as it was. *)
Theorem find_all_bits self key :
  ready self ->
  final (find key self) = self /\
  result (find key self) = Return (forallb (bit self) (hashIndices key self)) /\
  (Exists (fun i => bit self i = false) (hashIndices key self) ->
   result (find key self) = Return false) /\
  (Forall (fun i => bit self i = true) (hashIndices key self) ->
   result (find key self) = Return true).
Proof.
  intros Hready.
  pose proof (find_loop_ready BitHash key (Z.to_nat (__numHashes self)) 0 self Hready)
    as Hfind.
  cbn zeta in *. rewrite <- find_eq in Hfind. fold (hashIndices key self) in *.
  split; [apply find_final|]. rewrite Hfind. cbn. split; [reflexivity|].
  split; intros H; f_equal.
  - apply not_true_is_false. intros Hall. rewrite forallb_forall in Hall.
    apply Exists_exists in H as (i & Hi & Hbit).
    apply list_elem_of_In, Hall in Hi. congruence.
  - apply forallb_forall. intros i Hi. rewrite Forall_forall in H.
    apply H, list_elem_of_In, Hi.
Qed.

(** C8.  On every object the constructor returned, whatever was called on it
    since (calls that raised included), the counter [__numBitsSet] is the
    number of 1 bits of the array, so it lies between 0 and the capacity;
    [numBitsSet()] returns it without an access to the array. *)
Theorem counter_is_exact self :
  reachable self ->
  __numBitsSet self = BitVector.count (__bv self) /\
  0 <= __numBitsSet self <= __size self /\
  numBitsSet self = Run (Return (BitVector.count (__bv self))) self [].
Proof.
  intros [Hlen Hcnt]%(reachable_counted libm_pow BitHash).
  pose proof (count_bounds (__bv self)).
  repeat split; try lia.
  unfold numBitsSet, attr. rewrite Hcnt. reflexivity.
Qed.

(** C9.  After a first [insert(x)], inserting [x] again any number of times
    leaves the object as it is: the bit array and the counter that
    [numBitsSet()] returns keep their values. *)
Theorem insert_idempotent self x (times : nat) :
  let once := final (insert x self) in
  let again := after_all (replicate times (Insert x)) once in
  again = once /\
  __bv again = __bv once /\
  result (numBitsSet again) = result (numBitsSet once).
Proof.
  cbn zeta.
  assert (after_all (replicate times (Insert x)) (final (insert x self)) =
          final (insert x self)) as ->; [|auto].
  assert (final (insert x (final (insert x self))) = final (insert x self)) as Hfix.
  { rewrite (insert_eq BitHash x (final (insert x self))).
    destruct (insert_extends BitHash x self) as (_&_&->&_). rewrite insert_eq.
    apply (insert_loop_absorbed BitHash x _ 0 self), extends_refl. }
  revert Hfix. generalize (final (insert x self)). intros s Hfix.
  induction times as [|m IH]; [reflexivity|].
  cbn [replicate BloomFilter.after_all fold_left after]. rewrite Hfix. exact IH.
Qed.

End Properties.

(** ** The properties of the sizing and of the projected rate *)

Section SizingProperties.

Import Reals Lra.

Variable libm_pow : float -> float -> float.
Variable BitHash : string -> Z -> Z.

Implicit Types (self : t) (n k : Z) (p : float).

Local Abbreviation __init__ := (__init__ libm_pow).
Local Abbreviation __bitsNeeded := (__bitsNeeded libm_pow).
Local Abbreviation falsePositiveRate := (falsePositiveRate libm_pow).
Local Abbreviation reachable := (reachable libm_pow BitHash).

(** C3, as amended.  For 100000 keys, 4 hashes and the rate 0.05, the
    constructor returns a filter whose [__size] is the closed form of section
    4.1 over the real numbers, [floor(4 / (1 - (1 - p^(1/4))^(1/100000)))],
    both for [p = 1/20] and for the number the float [0.05] stands for, which
    is 624699: with every power function whose values at the two calls of
    [**] are faithful roundings, that is, one of the two floats around the
    real power. *)
Theorem sizing_closed_form :
  pow_faithful_at libm_pow demoRate (1 / 4)%float ->
  pow_faithful_at libm_pow (1 - libm_pow demoRate (1 / 4))%float (1 / 100000)%float ->
  exists self,
    __init__ 100000 4 demoRate = Return self /\
    __size self = ClosedForm.capacityBits 100000 4 (1 / 20)%R /\
    __size self = ClosedForm.capacityBits 100000 4 (F2R demoRate) /\
    __size self = 624699.
Proof.
  intros H1 H2.
  rewrite (closed_form_demo _ near_twentieth), (closed_form_demo _ near_demoRate).
  assert ((1 - libm_pow demoRate (1 / 4))%float = 0x1.0de3e0bedd6ccp-1%float) as Hphi
    by (destruct (demo_root_cases libm_pow H1) as [-> | ->]; reflexivity).
  rewrite Hphi in H2.
  assert (__bitsNeeded 100000 4 demoRate = Return 624699) as Hbits.
  { rewrite (bitsNeeded_run libm_pow 100000 4 demoRate 4%float (1 / 4)%float 100000%float (1 / 100000)%float
               (libm_pow demoRate (1 / 4)%float)
               (libm_pow 0x1.0de3e0bedd6ccp-1%float (1 / 100000)%float));
      try reflexivity.
    - destruct (demo_keys_cases libm_pow H2) as [-> | ->]; reflexivity.
    - change (float_pow libm_pow demoRate (1 / 4)%float) with
        (if is_infinity (libm_pow demoRate (1 / 4)%float) then Raise OverflowError
         else Return (Float (libm_pow demoRate (1 / 4)%float))).
      destruct (demo_root_cases libm_pow H1) as [-> | ->]; reflexivity.
    - rewrite Hphi.
      change (float_pow libm_pow 0x1.0de3e0bedd6ccp-1%float (1 / 100000)%float) with
        (if is_infinity (libm_pow 0x1.0de3e0bedd6ccp-1%float (1 / 100000)%float)
         then Raise OverflowError
         else Return (Float (libm_pow 0x1.0de3e0bedd6ccp-1%float (1 / 100000)%float))).
      destruct (demo_keys_cases libm_pow H2) as [-> | ->]; reflexivity. }
  destruct (init_run libm_pow _ _ _ _ Hbits ltac:(lia)) as (self & Hinit & Hsize & _).
  exists self. auto.
Qed.

(** C7, as amended.  On every filter a program can hold whose capacity and
    hash count are at least 1, [falsePositiveRate] changes nothing and
    returns [(float(numBitsSet) / float(size)) ** numHashes] of the current
    state; that is [0.0] when [numBitsSet] is 0, and, with a power function
    whose values on a base in (0, 1) and a positive exponent are in [0, 1],
    a float in [0, 1]. *)
Theorem rate_in_unit self :
  reachable self -> 0 < __size self -> 0 < __numHashes self ->
  final (falsePositiveRate self) = self /\
  exists a b w,
    float_of_int (__numBitsSet self) = Return a /\
    float_of_int (__size self) = Return b /\
    float_of_int (__numHashes self) = Return w /\
    result (falsePositiveRate self) = float_pow libm_pow (a / b) w /\
    (__numBitsSet self = 0 ->
     result (falsePositiveRate self) = Return (Float 0)) /\
    (pow_in_unit libm_pow ->
     exists rate,
       result (falsePositiveRate self) = Return (Float rate) /\ in_unit rate).
Proof.
  intros Hreach Hsize Hk. split; [apply falsePositiveRate_final|].
  destruct (reachable_counted libm_pow BitHash self Hreach) as [Hlen Hcnt].
  pose proof (count_bounds (__bv self)) as Hset. rewrite <- Hcnt, Hlen in Hset.
  destruct (reachable_floats libm_pow BitHash self Hreach) as (w & f & Hw & Hf).
  pose proof (int_of_float_representable f _ Hf Hsize) as Hrep.
  destruct (float_of_int_exact _ Hsize Hrep) as (b & Hb & Hfinb & Hbval).
  destruct (float_of_int_ge_1 _ w Hk Hw) as (Hfinw & _).
  assert (exists a, float_of_int (__numBitsSet self) = Return a /\ not_negative a /\
                    (F2R a <= F2R b)%R /\ (__numBitsSet self = 0 -> a = 0%float))
    as (a & Ha & Hna & Hab & Ha0).
  { destruct (Z.eq_dec (__numBitsSet self) 0) as [->|Hne].
    - exists 0%float. split; [reflexivity|]. split; [exact I|].
      split; [|reflexivity]. unfold F2R at 1. rewrite zero_SF. cbn.
      apply Rlt_le, finite_pos_F2R, Hfinb.
    - assert (0 < __numBitsSet self) as Hpos by lia.
      assert (IZR (__numBitsSet self) <= IZR (__size self))%R as Hle
        by (apply IZR_le; lia).
      destruct (float_of_int_le _ _ Hpos Hrep Hle) as [a Ha].
      destruct (float_of_int_Return _ a Hpos Ha) as (Hfina & Hmost & _).
      exists a. split; [exact Ha|]. split; [apply finite_pos_not_negative, Hfina|].
      split; [|lia]. rewrite Hbval. apply Hmost; assumption. }
  pose proof (div_in_unit a b Hna Hfinb Hab) as Hratio.
  assert (result (falsePositiveRate self) = float_pow libm_pow (a / b) w) as Hres.
  { unfold BloomFilter.falsePositiveRate, and_then, attr, eval. cbn.
    rewrite Ha. cbn. rewrite Hb. cbn. rewrite (float_truediv_Return a b Hfinb). cbn.
    rewrite Hw. cbn. reflexivity. }
  exists a, b, w.
  split; [exact Ha|]. split; [exact Hb|]. split; [exact Hw|]. split; [exact Hres|].
  split.
  - intros H0. rewrite Hres, (Ha0 H0), (zero_div b Hfinb).
    apply float_pow_zero, Hfinw.
  - intros libm_pow_in_unit.
    destruct (float_pow_in_unit libm_pow libm_pow_in_unit (a / b) w Hratio
                (finite_pos_not_negative _ Hfinw)) as (rate & Hrate & Hunit & _).
    exists rate. split; [rewrite Hres; exact Hrate | exact Hunit].
Qed.


End SizingProperties.

(** ** The properties on concrete filters *)

Example sampleFilter_constructed :
  __init__ samplePow 2 2 0.25 = Return sampleFilter.
Proof. reflexivity. Qed.

Example degenerateFilter_constructed libm_pow :
  __init__ libm_pow 1 1 infinity = Return degenerateFilter.
Proof. reflexivity. Qed.

(** [falsePositiveRate] raises on the filter of capacity 0. *)
Example degenerateFilter_rate libm_pow :
  result (falsePositiveRate libm_pow degenerateFilter) = Raise ZeroDivisionError.
Proof. reflexivity. Qed.

(** Two of the six bits are set after the insertion of "cat": the projected
    rate is the square of a third. *)
Example sampleFilter_rate :
  result (falsePositiveRate samplePow sampleFilter) = Return (Float 0) /\
  result (falsePositiveRate samplePow
            (after samplePow sampleHash (Insert "cat") sampleFilter)) =
    Return (Float ((2 / 6) * (2 / 6))).
Proof. split; reflexivity. Qed.

Lemma sampleFilter_ready : ready sampleFilter.
Proof. split; reflexivity. Defined.

Lemma sampleFilter_reachable : reachable samplePow sampleHash sampleFilter.
Proof. apply (reachable_init samplePow sampleHash 2 2 0.25). reflexivity. Defined.

Lemma bit_replicate_false (n : nat) size keys hashes rate set i :
  bit (Self size (replicate n false) keys hashes rate set) i = false.
Proof.
  unfold bit. cbn. destruct (BitVector.getitem _ _) as [b|] eqn:E; [|reflexivity].
  apply getitem_Return in E as [_ E]. apply lookup_replicate in E as [-> _].
  reflexivity.
Qed.

Lemma sampleFilter_bit i : bit sampleFilter i = false.
Proof. apply bit_replicate_false. Qed.

(** C1 at work: "cat" is found after its insertion, and still after the
    insertion of "dog" and "emu". *)
Lemma no_false_negatives_witness :
  result (find sampleHash "cat"
            (after_all samplePow sampleHash [Insert "dog"; Insert "emu"]
               (final (insert sampleHash "cat" sampleFilter)))) =
    Return true.
Proof.
  apply (no_false_negatives samplePow sampleHash sampleFilter "cat").
  reflexivity.
Defined.

(** C2 as stated fails.  On the sample filter, whose hash count is 2 and
    whose bits are all 0, [find] reads one position where [insert] reads
    two, whatever the hash and the key.  On the filter of capacity 0 that
    the constructor returns for the rate [+inf], whose hash count is 1,
    [insert] reads no position at all. *)
Lemma find_reads_fewer_indices :
  (ready sampleFilter /\ __numHashes sampleFilter = 2 /\
   forall BitHash key,
     length (reads (accesses (find BitHash key sampleFilter))) = 1%nat /\
     length (reads (accesses (insert BitHash key sampleFilter))) = 2%nat) /\
  (__numHashes degenerateFilter = 1 /\
   forall BitHash key,
     reads (accesses (insert BitHash key degenerateFilter)) = []).
Proof.
  split.
  - split; [exact sampleFilter_ready|]. split; [reflexivity|]. intros BitHash key.
    destruct (index_derivation BitHash sampleFilter key sampleFilter_ready)
      as (_ & _ & -> & -> & _).
    unfold hashIndices. change (Z.to_nat (__numHashes sampleFilter)) with 2%nat.
    cbn [hashChain map upto_first_zero]. rewrite sampleFilter_bit.
    split; reflexivity.
  - split; [reflexivity|]. intros BitHash key. rewrite insert_eq.
    change (Z.to_nat (__numHashes degenerateFilter)) with 1%nat.
    rewrite insert_loop_step. reflexivity.
Qed.

(** C2, as amended, on the sample filter. *)
Lemma index_derivation_witness :
  reads (accesses (insert sampleHash "cat" sampleFilter)) = [3; 0] /\
  reads (accesses (find sampleHash "cat" sampleFilter)) = [3].
Proof.
  destruct (index_derivation sampleHash sampleFilter "cat" sampleFilter_ready)
    as (_ & _ & -> & -> & _).
  split; reflexivity.
Defined.

(** C4 as stated fails: with [targetFalsePositiveRate = 1.0] the constructor
    returns an object, of capacity 4, on which [insert] and [find] work. *)
Lemma rate_one_is_accepted :
  exists self,
    __size self = 4 /\
    (forall libm_pow, __init__ libm_pow 100000 4 1%float = Return self) /\
    (forall BitHash key,
       result (insert BitHash key self) = Return tt /\
       result (find BitHash key (final (insert BitHash key self))) = Return true).
Proof.
  exists (Self 4 (replicate 4 false) 100000 4 1%float 0).
  split; [reflexivity|]. split; [intros; reflexivity|]. intros BitHash key.
  assert (ready (Self 4 (replicate 4 false) 100000 4 1%float 0)) as Hready
    by (split; reflexivity).
  pose proof (insert_loop_ready BitHash key 4 0 _ Hready) as (Hres & _).
  cbn zeta in Hres.
  assert (result (insert BitHash key (Self 4 (replicate 4 false) 100000 4 1%float 0))
          = Return tt) as Hins by (rewrite insert_eq; exact Hres).
  split; [exact Hins|]. rewrite find_eq.
  destruct (insert_extends BitHash key
              (Self 4 (replicate 4 false) 100000 4 1%float 0)) as (_&_&->&_).
  rewrite insert_eq in Hins |- *.
  apply (find_loop_after_insert BitHash key _ 0 _ _ Hins), extends_refl.
Qed.

(** C5 as stated fails: with the rate [+inf] the constructor returns a filter
    of capacity 0, on which [insert] and [find] raise for every key. *)
Lemma capacity_zero_raises :
  (forall libm_pow, __init__ libm_pow 1 1 infinity = Return degenerateFilter) /\
  (forall BitHash key,
     result (insert BitHash key degenerateFilter) = Raise ZeroDivisionError /\
     result (find BitHash key degenerateFilter) = Raise ZeroDivisionError).
Proof.
  split; [intros; reflexivity|]. intros BitHash key.
  rewrite insert_eq, find_eq.
  change (Z.to_nat (__numHashes degenerateFilter)) with 1%nat.
  rewrite insert_loop_step, find_loop_step. split; reflexivity.
Qed.

(** C5, as amended, on the sample filter. *)
Lemma insert_find_total_witness :
  result (insert sampleHash "cat" sampleFilter) = Return tt /\
  (exists b, result (find sampleHash "cat" sampleFilter) = Return b) /\
  Forall (in_bounds sampleFilter) (accesses (insert sampleHash "cat" sampleFilter)) /\
  Forall (in_bounds sampleFilter) (accesses (find sampleHash "cat" sampleFilter)).
Proof.
  apply (insert_find_total samplePow sampleHash sampleFilter "cat").
  - exact sampleFilter_reachable.
  - reflexivity.
Defined.

(** C6 on the sample filter after "cat", "dog" and "emu": "owl" is not
    found, "bee" is (a false positive). *)
Lemma find_all_bits_witness :
  let self :=
    after_all samplePow sampleHash [Insert "cat"; Insert "dog"; Insert "emu"]
      sampleFilter in
  result (find sampleHash "owl" self) = Return false /\
  result (find sampleHash "bee" self) = Return true.
Proof.
  cbn zeta.
  assert (ready (after_all samplePow sampleHash
                   [Insert "cat"; Insert "dog"; Insert "emu"] sampleFilter))
    as Hready by (split; vm_compute; reflexivity).
  split.
  - destruct (find_all_bits sampleHash _ "owl" Hready) as (_ & -> & _). reflexivity.
  - destruct (find_all_bits sampleHash _ "bee" Hready) as (_ & -> & _). reflexivity.
Defined.

(** C8 on the sample filter after the insertion of "cat". *)
Lemma counter_is_exact_witness :
  let self := after samplePow sampleHash (Insert "cat") sampleFilter in
  __numBitsSet self = BitVector.count (__bv self) /\
  0 <= __numBitsSet self <= __size self /\
  numBitsSet self = Run (Return (BitVector.count (__bv self))) self [].
Proof.
  apply (counter_is_exact samplePow sampleHash).
  apply reachable_call, sampleFilter_reachable.
Defined.

(** ** The sizing and the projected rate on concrete filters *)

Section SizingExamples.

Import Reals.

(** C3, as amended, with the correctly rounded power. *)
Lemma sizing_closed_form_witness :
  exists self,
    __init__ roundedPow 100000 4 demoRate = Return self /\
    __size self = ClosedForm.capacityBits 100000 4 (1 / 20)%R /\
    __size self = ClosedForm.capacityBits 100000 4 (F2R demoRate) /\
    __size self = 624699.
Proof.
  apply (sizing_closed_form roundedPow); apply roundedPow_faithful.
Defined.

(** C3 as stated fails: for [10^20] keys, 4 hashes and the rate 0.05 the
    closed form over the real numbers is more than [2^55] (for the rate 1/20
    and for the number the float [0.05] stands for), but with every
    power function that is faithful at the two calls of [**] the constructor
    raises [ZeroDivisionError] or stores [2^55]; with the correctly rounded
    power, where [phi ** 1e-20] is [1.0], it raises. *)
Lemma sizing_differs_for_many_keys :
  2 ^ 55 < ClosedForm.capacityBits (10 ^ 20) 4 (1 / 20)%R /\
  2 ^ 55 < ClosedForm.capacityBits (10 ^ 20) 4 (F2R demoRate) /\
  (forall libm_pow,
     pow_faithful_at libm_pow demoRate (1 / 4)%float ->
     pow_faithful_at libm_pow (1 - libm_pow demoRate (1 / 4))%float
       (1 / 100000000000000000000)%float ->
     __init__ libm_pow (10 ^ 20) 4 demoRate = Raise ZeroDivisionError \/
     exists self, __init__ libm_pow (10 ^ 20) 4 demoRate = Return self /\
                  __size self = 2 ^ 55) /\
  (pow_faithful_at roundedPow demoRate (1 / 4)%float /\
   pow_faithful_at roundedPow (1 - roundedPow demoRate (1 / 4))%float
     (1 / 100000000000000000000)%float /\
   __init__ roundedPow (10 ^ 20) 4 demoRate = Raise ZeroDivisionError).
Proof.
  assert (2 ^ 55 < 10 ^ 20) as Hlt by reflexivity.
  split; [|split; [|split]].
  - pose proof (closed_form_many_keys _ near_twentieth). lia.
  - pose proof (closed_form_many_keys _ near_demoRate). lia.
  - intros libm_pow H1 H2.
    assert ((1 - libm_pow demoRate (1 / 4))%float = 0x1.0de3e0bedd6ccp-1%float) as Hphi
      by (destruct (demo_root_cases libm_pow H1) as [-> | ->]; reflexivity).
    rewrite Hphi in H2.
    assert (__bitsNeeded libm_pow (10 ^ 20) 4 demoRate =
            let* nBits :=
              float_over 4 (Float (1 - libm_pow 0x1.0de3e0bedd6ccp-1%float
                                          (1 / 100000000000000000000)%float)) in
            int_of_number nBits) as Hbits.
    { apply (bitsNeeded_run libm_pow (10 ^ 20) 4 demoRate 4%float (1 / 4)%float
               100000000000000000000%float (1 / 100000000000000000000)%float
               (libm_pow demoRate (1 / 4)%float));
        try reflexivity.
      - change (float_pow libm_pow demoRate (1 / 4)%float) with
          (if is_infinity (libm_pow demoRate (1 / 4)%float) then Raise OverflowError
           else Return (Float (libm_pow demoRate (1 / 4)%float))).
        destruct (demo_root_cases libm_pow H1) as [-> | ->]; reflexivity.
      - rewrite Hphi.
        change (float_pow libm_pow 0x1.0de3e0bedd6ccp-1%float
                  (1 / 100000000000000000000)%float) with
          (if is_infinity (libm_pow 0x1.0de3e0bedd6ccp-1%float
                             (1 / 100000000000000000000)%float)
           then Raise OverflowError
           else Return (Float (libm_pow 0x1.0de3e0bedd6ccp-1%float
                                 (1 / 100000000000000000000)%float))).
        destruct (many_keys_cases libm_pow H2) as [-> | ->]; reflexivity. }
    destruct (many_keys_cases libm_pow H2) as [Hq|Hq]; rewrite Hq in Hbits.
    + right.
      destruct (init_run libm_pow _ _ _ (2 ^ 55) Hbits ltac:(lia))
        as (self & Hinit & Hsize & _).
      exists self. auto.
    + left. unfold __init__. rewrite Hbits. reflexivity.
  - split; [apply roundedPow_faithful|]. split; [apply roundedPow_faithful|].
    vm_compute. reflexivity.
Qed.

End SizingExamples.

(** C7 as stated fails: on the filter of capacity 0 that the constructor
    returns for the rate [+inf], [falsePositiveRate] raises
    [ZeroDivisionError], whatever the power function. *)
Lemma rate_raises_without_capacity :
  (forall libm_pow, __init__ libm_pow 1 1 infinity = Return degenerateFilter) /\
  (forall libm_pow,
     result (falsePositiveRate libm_pow degenerateFilter) = Raise ZeroDivisionError).
Proof. split; intros; reflexivity. Qed.

(** C7, as amended, on the small filter after the insertion of "cat": one
    bit of four is set, and the rate is a quarter. *)
Lemma rate_in_unit_witness :
  let self := after coarsePow sampleHash (Insert "cat") smallFilter in
  result (falsePositiveRate coarsePow self) = Return (Float 0.25) /\
  in_unit 0.25.
Proof.
  cbn zeta.
  assert (reachable coarsePow sampleHash
            (after coarsePow sampleHash (Insert "cat") smallFilter)) as Hreach
    by (apply reachable_call, (reachable_init coarsePow sampleHash 1 1 0.25);
        reflexivity).
  destruct (rate_in_unit coarsePow sampleHash _ Hreach)
    as (_ & a & b & w & _ & _ & _ & _ & _ & Hunit);
    [vm_compute; reflexivity | vm_compute; reflexivity |].
  destruct (Hunit coarsePow_in_unit) as (rate & Hrate & Hrange).
  assert (result (falsePositiveRate coarsePow
                    (after coarsePow sampleHash (Insert "cat") smallFilter)) =
          Return (Float 0.25)) as Hval by (vm_compute; reflexivity).
  split; [exact Hval|]. rewrite Hval in Hrate. injection Hrate as <-. exact Hrange.
Defined.



(** ** Further facts about the methods *)

Section FurtherFacts.

Variable libm_pow : float -> float -> float.
Variable BitHash : string -> Z -> Z.

Implicit Types (self : t) (key : string) (seed i : Z) (n : nat).

Local Abbreviation insert_loop := (insert_loop BitHash).
Local Abbreviation find_loop := (find_loop BitHash).
Local Abbreviation insert := (insert BitHash).
Local Abbreviation find := (find BitHash).
Local Abbreviation hashChain := (hashChain BitHash).
Local Abbreviation hashIndices := (hashIndices BitHash).
Local Abbreviation after := (after libm_pow BitHash).
Local Abbreviation after_all := (after_all libm_pow BitHash).
Local Abbreviation reachable := (reachable libm_pow BitHash).

Ltac next_round hv Hget :=
  rewrite ?insert_loop_step, ?find_loop_step; cbn zeta;
  destruct (int_mod _ _) as [hv|?];
  [destruct (BitVector.getitem _ hv) as [[]|?] eqn:Hget|]; cbn.

Lemma find_after_insert key self self' :
  result (insert key self) = Return tt ->
  extends (final (insert key self)) self' ->
  result (find key self') = Return true.
Proof.
  intros Hins Hext. rewrite insert_eq in Hins. rewrite find_eq.
  pose proof (extends_trans _ _ _ (insert_extends BitHash key self) Hext)
    as (_&_&->&_).
  rewrite insert_eq in Hext. eapply find_loop_after_insert; eassumption.
Qed.

(** *** What the loops write *)

Lemma bit_false_before a b i : extends a b -> bit b i = false -> bit a i = false.
Proof.
  intros Hext Hb. destruct (bit a i) eqn:Ha; [|reflexivity].
  rewrite (extends_bit _ _ _ Hext Ha) in Hb. discriminate.
Qed.

(** The loop of [insert] adds one to the counter for each position it
    writes; these are distinct positions whose bit was 0, at most one for
    each round. *)
Lemma insert_loop_writes key n seed self :
  let r := insert_loop key n seed self in
  __numBitsSet (final r) =
    __numBitsSet self + Z.of_nat (length (writes (accesses r))) /\
  (length (writes (accesses r)) <= n)%nat /\
  NoDup (writes (accesses r)) /\
  Forall (fun i => bit self i = false /\ bit (final r) i = true)
    (writes (accesses r)).
Proof.
  cbn zeta. revert seed self. induction n as [|n IH]; intros seed self.
  - cbn. repeat split; [lia | lia | constructor | constructor].
  - next_round hv Hget.
    + destruct (IH (BitHash key seed) self) as (Hc & Hl & Hnd & Hall).
      repeat split; [exact Hc | lia | exact Hnd | exact Hall].
    + pose proof (getitem_in_range _ _ _ Hget) as Hin.
      pose proof (extends_set_bit self hv Hget) as Hext.
      destruct (IH (BitHash key seed) (set_bit hv self)) as (Hc & Hl & Hnd & Hall).
      cbn in Hc. repeat split.
      * rewrite Hc. lia.
      * lia.
      * constructor; [|exact Hnd].
        intros Hmem. rewrite Forall_forall in Hall.
        destruct (Hall hv Hmem) as [Hf _].
        rewrite (bit_set_bit self hv Hin) in Hf. discriminate.
      * constructor.
        -- split; [unfold bit; rewrite Hget; reflexivity|].
           eapply extends_bit; [apply insert_loop_extends|].
           apply (bit_set_bit self hv Hin).
        -- eapply Forall_impl; [exact Hall|]. cbn. intros i [Hf Ht].
           split; [eapply bit_false_before; eassumption | exact Ht].
    + repeat split; [lia | lia | constructor | constructor].
    + repeat split; [lia | lia | constructor | constructor].
Qed.

Lemma find_loop_writes key n seed self :
  writes (accesses (find_loop key n seed self)) = [].
Proof.
  revert seed. induction n as [|n IH]; intros seed; [reflexivity|].
  next_round hv Hget; auto.
Qed.

Lemma inserts_nonneg (calls : list call) : 0 <= inserts calls.
Proof.
  induction calls as [|[] calls IH]; cbn; lia.
Qed.

Lemma after_counter c self :
  __numBitsSet self <= __numBitsSet (after c self) <=
    __numBitsSet self + Z.max 0 (__numHashes self) * inserts [c].
Proof.
  destruct c as [key|key| |]; cbn [BloomFilter.after inserts].
  - rewrite insert_eq.
    destruct (insert_loop_writes key (Z.to_nat (__numHashes self)) 0 self)
      as (-> & Hl & _). lia.
  - rewrite find_final. lia.
  - rewrite falsePositiveRate_final. lia.
  - cbn. lia.
Qed.

(** *** The bits after an insertion *)

Lemma hashIndices_extends key a b :
  extends a b -> hashIndices key b = hashIndices key a.
Proof.
  intros (Hs&_&Hk&_). unfold BloomFilter.hashIndices. rewrite Hs, Hk. reflexivity.
Qed.

Lemma bit_in_range self i : bit self i = true -> BitVector.in_range (__bv self) i.
Proof.
  intros H. apply bit_true in H. eapply getitem_in_range, H.
Qed.

Lemma bit_set_bit_eq self hv i :
  BitVector.in_range (__bv self) hv ->
  bit (set_bit hv self) i = bit self i || bool_decide (i = hv).
Proof.
  intros Hin. case_bool_decide as Hi.
  - subst i. rewrite (bit_set_bit self hv Hin). apply eq_sym, orb_true_r.
  - rewrite orb_false_r. unfold bit. cbn.
    rewrite getitem_insert_other; [reflexivity | apply Hin | congruence].
Qed.

Lemma bool_decide_cons (i hv : Z) (l : list Z) :
  bool_decide (i ∈ hv :: l) = bool_decide (i = hv) || bool_decide (i ∈ l).
Proof.
  destruct (decide (i = hv)) as [->|Hne].
  - rewrite (bool_decide_eq_true_2 (hv ∈ hv :: l)) by left.
    rewrite (bool_decide_eq_true_2 (hv = hv)) by reflexivity. reflexivity.
  - rewrite (bool_decide_eq_false_2 (i = hv)) by assumption. cbn.
    apply bool_decide_ext. rewrite elem_of_cons. tauto.
Qed.

(** On a filter with a positive capacity, the loop of [insert] sets the bits
    of the chain and no other. *)
Lemma insert_loop_bits key n seed self i :
  ready self ->
  bit (final (insert_loop key n seed self)) i =
    bit self i ||
    bool_decide (i ∈ map (fun h => h mod __size self) (hashChain key n seed)).
Proof.
  revert seed self. induction n as [|n IH]; intros seed self Hready.
  - cbn. rewrite orb_false_r. reflexivity.
  - rewrite insert_loop_step. cbn zeta.
    destruct (ready_int_mod self (BitHash key seed) Hready) as [-> Hin].
    cbn [BloomFilter.hashChain map]. rewrite bool_decide_cons.
    destruct (in_range_getitem _ _ Hin) as [[] Hget]; rewrite Hget; cbn [final].
    + rewrite (IH _ self Hready).
      destruct (decide (i = BitHash key seed mod __size self)) as [->|Hne].
      * apply bit_true in Hget. rewrite Hget. reflexivity.
      * rewrite (bool_decide_eq_false_2 _ Hne). reflexivity.
    + rewrite (IH _ _ (ready_set_bit self _ Hready)). cbn [__size set_bit].
      rewrite (bit_set_bit_eq self _ i Hin). rewrite <- orb_assoc. reflexivity.
Qed.

Lemma insert_bits key self i :
  ready self ->
  bit (final (insert key self)) i =
    bit self i || bool_decide (i ∈ hashIndices key self).
Proof.
  intros Hready. rewrite insert_eq. apply insert_loop_bits, Hready.
Qed.

Lemma ready_after c self : ready self -> ready (after c self).
Proof.
  intros H. eapply ready_extends; [exact H | apply after_extends].
Qed.

Lemma ready_after_all calls self : ready self -> ready (after_all calls self).
Proof.
  intros H. eapply ready_extends; [exact H | apply after_all_extends].
Qed.

Lemma bool_decide_app (i : Z) (l l' : list Z) :
  bool_decide (i ∈ l ++ l') = bool_decide (i ∈ l) || bool_decide (i ∈ l').
Proof.
  induction l as [|j l IH]; cbn [app].
  - rewrite (bool_decide_eq_false_2 (i ∈ [])); [reflexivity | apply not_elem_of_nil].
  - rewrite !bool_decide_cons, IH, orb_assoc. reflexivity.
Qed.

(** After the insertion of a list of keys, the bits are those there were and
    those of the keys. *)
Lemma insert_all_bits (keys : list string) self i :
  ready self ->
  bit (after_all (map Insert keys) self) i =
    bit self i ||
    bool_decide (i ∈ flat_map (fun key => hashIndices key self) keys).
Proof.
  revert self. induction keys as [|key keys IH]; intros self Hready.
  - cbn. rewrite (bool_decide_eq_false_2 (i ∈ [])); [|apply not_elem_of_nil].
    rewrite orb_false_r. reflexivity.
  - cbn [map flat_map]. unfold BloomFilter.after_all. cbn [fold_left].
    fold (after_all (map Insert keys) (after (Insert key) self)).
    rewrite (IH _ (ready_after _ _ Hready)). cbn [BloomFilter.after].
    rewrite (insert_bits key self i Hready), bool_decide_app, <- orb_assoc.
    rewrite (flat_map_ext (fun x => hashIndices x (final (insert key self)))
               (fun x => hashIndices x self)); [reflexivity|].
    intros x. apply hashIndices_extends, insert_extends.
Qed.

(** *** Objects with the same bits *)

Lemma bits_eq (v v' : list bool) :
  length v = length v' ->
  (forall i, BitVector.getitem v i = BitVector.getitem v' i) ->
  v = v'.
Proof.
  intros Hlen Hget. apply list_eq. intros j.
  specialize (Hget (Z.of_nat j)). unfold BitVector.getitem in Hget.
  destruct (decide _); [|lia]. rewrite Nat2Z.id in Hget.
  destruct (v !! j) eqn:E, (v' !! j) eqn:E'; congruence.
Qed.

Lemma bit_getitem a b :
  length (__bv a) = length (__bv b) ->
  (forall i, bit a i = bit b i) ->
  forall i, BitVector.getitem (__bv a) i = BitVector.getitem (__bv b) i.
Proof.
  intros Hlen Hbit i. specialize (Hbit i). unfold bit in Hbit.
  destruct (BitVector.getitem (__bv a) i) as [x|e] eqn:Ea,
           (BitVector.getitem (__bv b) i) as [y|e'] eqn:Eb.
  - congruence.
  - apply getitem_in_range in Ea. apply getitem_Raise in Eb.
    unfold BitVector.in_range in *. rewrite Hlen in Ea. contradiction.
  - apply getitem_in_range in Eb. apply getitem_Raise in Ea.
    unfold BitVector.in_range in *. rewrite Hlen in Ea. contradiction.
  - apply getitem_Raise_ValueError in Ea, Eb. congruence.
Qed.

(** Two objects that extend the same one and have the same bits are equal. *)
Lemma extends_eq self a b :
  extends self a -> extends self b ->
  (forall i, bit a i = bit b i) ->
  a = b.
Proof.
  intros (Ha1&Ha2&Ha3&Ha4&Ha5&_&Ha7) (Hb1&Hb2&Hb3&Hb4&Hb5&_&Hb7) Hbit.
  assert (__bv a = __bv b) as Hbv.
  { apply bits_eq; [congruence|]. apply bit_getitem; [congruence | exact Hbit]. }
  destruct a, b; cbn in *. f_equal; try congruence. rewrite Hbv in Ha7. lia.
Qed.

(** *** The positions of the 1 bits *)

Lemma getitem_cons (b : bool) (v : list bool) i :
  BitVector.getitem (b :: v) i =
    if decide (i = 0) then Return b else BitVector.getitem v (i - 1).
Proof.
  unfold BitVector.getitem. destruct (decide (i = 0)) as [->|Hne]; [reflexivity|].
  destruct (decide (0 <= i)), (decide (0 <= i - 1)); try lia; [|reflexivity].
  replace (Z.to_nat i) with (S (Z.to_nat (i - 1))) by lia. reflexivity.
Qed.

Lemma ones_spec (v : list bool) i :
  i ∈ BitVector.ones v <-> BitVector.getitem v i = Return true.
Proof.
  revert i. induction v as [|b v IH]; intros i.
  - cbn. unfold BitVector.getitem. destruct (decide _); cbn.
    + split; [intros H; apply elem_of_nil in H as [] | discriminate].
    + split; [intros H; apply elem_of_nil in H as [] | discriminate].
  - cbn [BitVector.ones]. rewrite elem_of_app, list_elem_of_fmap, getitem_cons.
    split.
    + intros [Hb|(j & -> & Hj)].
      * destruct b; [|apply elem_of_nil in Hb as []].
        apply list_elem_of_singleton in Hb as ->. reflexivity.
      * pose proof (proj1 (IH j) Hj) as Hg.
        pose proof (getitem_in_range _ _ _ Hg) as [Hj0 _].
        destruct (decide _); [lia|]. replace (Z.succ j - 1) with j by lia. exact Hg.
    + destruct (decide (i = 0)) as [->|Hne].
      * intros [= ->]. left. left.
      * intros Hg. right. exists (i - 1). split; [lia | apply IH, Hg].
Qed.

Lemma ones_NoDup (v : list bool) : NoDup (BitVector.ones v).
Proof.
  induction v as [|b v IH]; cbn [BitVector.ones]; [constructor|].
  apply NoDup_app. split; [destruct b; [apply NoDup_singleton | constructor]|].
  split; [|apply NoDup_fmap; [intros ? ?; lia | exact IH]].
  intros i Hi [j [-> Hj]]%list_elem_of_fmap.
  apply ones_spec, getitem_in_range in Hj as [Hj0 _].
  destruct b; [|apply elem_of_nil in Hi as []].
  apply list_elem_of_singleton in Hi. lia.
Qed.

Lemma ones_length (v : list bool) :
  Z.of_nat (length (BitVector.ones v)) = BitVector.count v.
Proof.
  induction v as [|b v IH]; cbn [BitVector.ones BitVector.count]; [reflexivity|].
  rewrite length_app, length_map. destruct b; cbn [length]; lia.
Qed.

(** *** The object the constructor returns *)

Lemma init_fresh numKeys numHashes maxFalsePositive self :
  __init__ libm_pow numKeys numHashes maxFalsePositive = Return self ->
  0 <= __size self /\
  __bv self = replicate (Z.to_nat (__size self)) false /\
  __numKeys self = numKeys /\ __numHashes self = numHashes /\
  __maxFalsePositive self = maxFalsePositive /\ __numBitsSet self = 0.
Proof.
  unfold __init__, bind, BitVector.new.
  destruct (__bitsNeeded _ _ _ _) as [m|]; [|discriminate].
  destruct (decide (0 <= m)); [|discriminate].
  intros [= <-]. cbn. repeat split; auto.
Qed.

Lemma init_bit numKeys numHashes maxFalsePositive self i :
  __init__ libm_pow numKeys numHashes maxFalsePositive = Return self ->
  bit self i = false.
Proof.
  intros (_ & Hbv & _)%init_fresh. unfold bit. rewrite Hbv.
  destruct (BitVector.getitem _ _) as [b|] eqn:E; [|reflexivity].
  apply getitem_Return in E as [_ E]. apply lookup_replicate in E as [-> _].
  reflexivity.
Qed.

Lemma init_ready numKeys numHashes maxFalsePositive self :
  __init__ libm_pow numKeys numHashes maxFalsePositive = Return self ->
  0 < __size self -> ready self.
Proof.
  intros H Hpos. apply (reachable_ready libm_pow BitHash); [|exact Hpos].
  eapply reachable_init, H.
Qed.

(** *** The loops of [__main] *)

Local Abbreviation insert_lines := (insert_lines BitHash).
Local Abbreviation count_missing := (count_missing BitHash).
Local Abbreviation count_false_finds := (count_false_finds BitHash).

Lemma readline_drop (fin : file) : (readline fin).2 = drop 1 fin.
Proof. destruct fin; reflexivity. Qed.

Lemma readable_S n (fin : file) :
  readable (S n) fin <->
  (exists key, (readline fin).1 = Return key) /\ readable n (readline fin).2.
Proof.
  unfold readable. destruct fin as [|line fin]; cbn.
  - rewrite take_nil. split; [intros _; split; [eexists; reflexivity | constructor]|].
    intros _. constructor.
  - rewrite Forall_cons. reflexivity.
Qed.

Lemma readable_add n m (fin : file) :
  readable (n + m) fin <-> readable n fin /\ readable m (drop n fin).
Proof. unfold readable. rewrite <- take_take_drop. apply Forall_app. Qed.

Lemma insert_lines_step n (fin : file) self :
  insert_lines (S n) fin self =
  match (readline fin).1 with
  | Return key =>
      let r := insert key self in
      match result r with
      | Return _ =>
          let r' := insert_lines n (readline fin).2 (final r) in
          Run (result r') (final r') (accesses r ++ accesses r')
      | Raise e => Run (Raise e) (final r) (accesses r)
      end
  | Raise e => Run (Raise e) self []
  end.
Proof.
  destruct fin as [|[key|e] fin]; cbn [BloomFilter.insert_lines readline fst snd];
    unfold and_then, eval; cbn [result final accesses app]; try reflexivity;
    destruct (result (insert _ self)); reflexivity.
Qed.

Lemma count_missing_step n (fin : file) (c : Z) self :
  count_missing (S n) fin c self =
  match (readline fin).1 with
  | Return key =>
      let r := find key self in
      match result r with
      | Return found =>
          let r' := count_missing n (readline fin).2
                      (if found then c else c + 1) (final r) in
          Run (result r') (final r') (accesses r ++ accesses r')
      | Raise e => Run (Raise e) (final r) (accesses r)
      end
  | Raise e => Run (Raise e) self []
  end.
Proof.
  destruct fin as [|[key|e] fin]; cbn [BloomFilter.count_missing readline fst snd];
    unfold and_then, eval; cbn [result final accesses app]; try reflexivity;
    destruct (result (find _ self)); reflexivity.
Qed.

Lemma count_false_finds_step n (fin : file) (c : Z) self :
  count_false_finds (S n) fin c self =
  match (readline fin).1 with
  | Return key =>
      let r := find key self in
      match result r with
      | Return found =>
          let r' := count_false_finds n (readline fin).2
                      (if found then c + 1 else c) (final r) in
          Run (result r') (final r') (accesses r ++ accesses r')
      | Raise e => Run (Raise e) (final r) (accesses r)
      end
  | Raise e => Run (Raise e) self []
  end.
Proof.
  destruct fin as [|[key|e] fin]; cbn [BloomFilter.count_false_finds readline fst snd];
    unfold and_then, eval; cbn [result final accesses app]; try reflexivity;
    destruct (result (find _ self)); reflexivity.
Qed.

Lemma insert_lines_extends n (fin : file) self :
  extends self (final (insert_lines n fin self)).
Proof.
  revert fin self. induction n as [|n IH]; intros fin self;
    [apply extends_refl|].
  rewrite insert_lines_step.
  destruct (readline fin).1 as [key|e]; [|apply extends_refl]. cbn zeta.
  pose proof (insert_extends BitHash key self) as H.
  destruct (result (insert _ self)); cbn [final]; [|exact H].
  eapply extends_trans; [exact H | apply IH].
Qed.

(** The second loop finds every line the first loop inserted: it counts no
    line, changes nothing and leaves the file after the lines it read. *)
Lemma count_missing_after_insert_lines n (fin : file) (c : Z) self self' :
  result (insert_lines n fin self) = Return tt ->
  extends (final (insert_lines n fin self)) self' ->
  result (count_missing n fin c self') = Return (c, drop n fin) /\
  final (count_missing n fin c self') = self'.
Proof.
  revert fin self. induction n as [|n IH]; intros fin self.
  - cbn. rewrite drop_0. auto.
  - rewrite insert_lines_step, count_missing_step.
    destruct (readline fin).1 as [key|e]; [|discriminate]. cbn zeta.
    destruct (result (insert key self)) as [[]|e] eqn:Hins;
      cbn [result final]; [|discriminate].
    intros Hres Hext.
    rewrite find_final.
    rewrite (find_after_insert key self self' Hins)
      by (eapply extends_trans; [apply insert_lines_extends | exact Hext]).
    cbn [result final].
    destruct (IH _ _ Hres Hext) as [-> ->]. split; [|reflexivity].
    rewrite readline_drop, drop_drop. reflexivity.
Qed.

Lemma find_returns key self :
  ready self -> exists found, result (find key self) = Return found.
Proof.
  intros Hready. rewrite find_eq, (find_loop_ready BitHash _ _ _ _ Hready).
  eexists. reflexivity.
Qed.

(** On a filter with a positive capacity, the third loop raises only where
    [readline()] does; the count it returns is between where it started and
    one more for each line. *)
Lemma count_false_finds_ready n (fin : file) (c : Z) self :
  ready self ->
  match result (count_false_finds n fin c self) with
  | Return found => readable n fin /\ c <= found <= c + Z.of_nat n
  | Raise _ => ~ readable n fin
  end.
Proof.
  intros Hready. revert fin c. induction n as [|n IH]; intros fin c.
  - cbn. split; [constructor | lia].
  - rewrite count_false_finds_step. pose proof (readable_S n fin) as HS.
    destruct (readline fin).1 as [key|e];
      [|cbn; rewrite HS; intros [[? [=]] _]].
    cbn zeta. rewrite find_final.
    destruct (find_returns key self Hready) as [b ->]. cbn [result].
    specialize (IH (readline fin).2 (if b then c + 1 else c)).
    destruct (result (count_false_finds n _ _ self)) as [found|e]; rewrite HS.
    + destruct IH as [Hr Hf]. split; [split; [eauto | exact Hr]|].
      destruct b; lia.
    + intros [_ Hr]. contradiction.
Qed.

(** On a filter with a positive capacity the first loop raises only where
    [readline()] does. *)
Lemma insert_lines_ready n (fin : file) self :
  ready self ->
  match result (insert_lines n fin self) with
  | Return _ => readable n fin
  | Raise _ => ~ readable n fin
  end.
Proof.
  revert fin self. induction n as [|n IH]; intros fin self Hready;
    [constructor|].
  rewrite insert_lines_step. pose proof (readable_S n fin) as HS.
  destruct (readline fin).1 as [key|e];
    [|cbn; rewrite HS; intros [[? [=]] _]].
  cbn zeta.
  destruct (insert_loop_ready BitHash key
              (Z.to_nat (__numHashes self)) 0 self Hready) as (Hins & _).
  cbn zeta in Hins. rewrite <- insert_eq in Hins. rewrite Hins. cbn [result].
  specialize (IH (readline fin).2 (final (insert key self))
                (ready_extends _ _ Hready (insert_extends BitHash key self))).
  destruct (result (insert_lines n _ _)) as [[]|e]; rewrite HS.
  - split; [eauto | exact IH].
  - intros [_ Hr]. contradiction.
Qed.

(** A loop that inserted at least one line, with at least one hash, ran on a
    capacity other than 0. *)
Lemma insert_lines_capacity n (fin : file) self :
  result (insert_lines n fin self) = Return tt ->
  (0 < n)%nat -> 0 < __numHashes self -> __size self <> 0.
Proof.
  destruct n as [|n]; [lia|]. intros Hres _ Hk Hzero. revert Hres.
  rewrite insert_lines_step.
  destruct (readline fin).1 as [key|e]; [|discriminate]. cbn zeta.
  rewrite insert_eq.
  destruct (Z.to_nat (__numHashes self)) as [|k] eqn:Ek; [lia|].
  rewrite insert_loop_step. cbn zeta. unfold int_mod.
  destruct (decide _); [discriminate | contradiction].
Qed.

(** A count of at most 100000 divided by 100000 is a float. *)
Lemma int_truediv_numKeys (c : Z) :
  0 <= c <= 100000 -> exists rate, int_truediv c 100000 = Return rate.
Proof.
  intros Hc. unfold int_truediv.
  destruct (decide (100000 = 0)); [lia|].
  destruct (decide _) as [_|Hbig]; [eexists; reflexivity|].
  exfalso. apply Hbig. split; lia.
Qed.

End FurtherFacts.

(** ** Further properties of the code *)

Section FurtherProperties.

Variable libm_pow : float -> float -> float.
Variable BitHash : string -> Z -> Z.

Implicit Types (self : t) (key x : string) (keys : list string) (i : Z).

Local Abbreviation __init__ := (__init__ libm_pow).
Local Abbreviation falsePositiveRate := (falsePositiveRate libm_pow).
Local Abbreviation insert := (insert BitHash).
Local Abbreviation find := (find BitHash).
Local Abbreviation hashIndices := (hashIndices BitHash).
Local Abbreviation after := (after libm_pow BitHash).
Local Abbreviation after_all := (after_all libm_pow BitHash).
Local Abbreviation reachable := (reachable libm_pow BitHash).
Local Abbreviation __main := (__main libm_pow BitHash).

(** X1.  No call changes the parameters of a filter or the length of its
    bit array: there is no resizing and no rehashing. *)
Theorem parameters_are_fixed (calls : list call) self :
  let self' := after_all calls self in
  __size self' = __size self /\
  __numHashes self' = __numHashes self /\
  __numKeys self' = __numKeys self /\
  __maxFalsePositive self' = __maxFalsePositive self /\
  length (__bv self') = length (__bv self).
Proof.
  cbn zeta.
  destruct (after_all_extends libm_pow BitHash calls self) as (?&?&?&?&?&_).
  auto.
Qed.

(** X2.  The fill only grows: no call clears a bit, the counter never
    decreases, and it grows by at most the number of hashes for each call of
    [insert]. *)
Theorem fill_is_monotone (calls : list call) self :
  (forall i, bit self i = true -> bit (after_all calls self) i = true) /\
  __numBitsSet self <= __numBitsSet (after_all calls self) <=
    __numBitsSet self + Z.max 0 (__numHashes self) * inserts calls.
Proof.
  split.
  - intros i. apply extends_bit, after_all_extends.
  - revert self. induction calls as [|c calls IH]; intros self.
    + cbn. lia.
    + unfold BloomFilter.after_all. cbn [fold_left].
      fold (after_all calls (after c self)).
      specialize (IH (after c self)).
      destruct (after_extends libm_pow BitHash c self) as (_&_&Hk&_).
      rewrite Hk in IH.
      pose proof (after_counter libm_pow BitHash c self) as Hc.
      pose proof (inserts_nonneg calls).
      replace (inserts (c :: calls)) with (inserts [c] + inserts calls)
        by (destruct c; cbn; lia).
      nia.
Qed.

(** X3.  [insert] adds one to the counter for each position it writes, and
    it writes a position at most once and only where the bit was 0: at most
    as many positions as there are hashes. *)
Theorem insert_counts_each_write key self :
  let r := insert key self in
  __numBitsSet (final r) =
    __numBitsSet self + Z.of_nat (length (writes (accesses r))) /\
  Z.of_nat (length (writes (accesses r))) <= Z.max 0 (__numHashes self) /\
  NoDup (writes (accesses r)) /\
  Forall (fun i => bit self i = false /\ bit (final r) i = true)
    (writes (accesses r)).
Proof.
  cbn zeta. rewrite insert_eq.
  destruct (insert_loop_writes BitHash key (Z.to_nat (__numHashes self)) 0 self)
    as (Hc & Hl & Hnd & Hall).
  repeat split; [exact Hc | lia | exact Hnd | exact Hall].
Qed.

(** X4.  On a filter with a positive capacity, after the insertion of a
    list of keys a bit is 1 exactly when it was 1 before or its position is
    one of the derived indices of one of the keys. *)
Theorem inserts_set_the_derived_bits keys self i :
  ready self ->
  bit (after_all (map Insert keys) self) i = true <->
  bit self i = true \/ exists key, key ∈ keys /\ i ∈ hashIndices key self.
Proof.
  intros Hready. rewrite (insert_all_bits libm_pow BitHash keys self i Hready).
  rewrite orb_true_iff, bool_decide_eq_true, list_elem_of_In, in_flat_map.
  split; intros [H|(key & Hk & Hi)]; auto; right; exists key;
    rewrite ?list_elem_of_In in *; auto.
Qed.

(** X5.  On a filter with a positive capacity, the object after a list of
    insertions does not depend on their order. *)
Theorem inserts_commute keys keys' self :
  ready self ->
  keys ≡ₚ keys' ->
  after_all (map Insert keys) self = after_all (map Insert keys') self.
Proof.
  intros Hready Hperm.
  apply (extends_eq self); try apply after_all_extends.
  intros i. rewrite !(insert_all_bits libm_pow BitHash _ self i Hready).
  f_equal. apply bool_decide_ext. rewrite !list_elem_of_In, !in_flat_map.
  split; intros (key & Hk & Hi); exists key; split; try exact Hi;
    apply list_elem_of_In; apply list_elem_of_In in Hk.
  - rewrite <- Hperm. exact Hk.
  - rewrite Hperm. exact Hk.
Qed.

(** X6.  On a filter fresh from the constructor, with a positive capacity,
    after the insertion of a list of keys [find(y)] returns True exactly when
    every derived index of [y] is a derived index of one of the keys. *)
Theorem find_after_inserts numKeys numHashes rate keys y self :
  __init__ numKeys numHashes rate = Return self ->
  0 < __size self ->
  result (find y (after_all (map Insert keys) self)) =
    Return (forallb
              (fun i => bool_decide
                          (i ∈ flat_map (fun key => hashIndices key self) keys))
              (hashIndices y self)).
Proof.
  intros Hinit Hpos.
  pose proof (init_ready libm_pow BitHash _ _ _ _ Hinit Hpos) as Hready.
  pose proof (ready_after_all libm_pow BitHash (map Insert keys) self Hready)
    as Hready'.
  rewrite find_eq, (find_loop_ready BitHash _ _ _ _ Hready'). cbn [result].
  fold (hashIndices y (after_all (map Insert keys) self)).
  rewrite (hashIndices_extends BitHash y self)
    by apply after_all_extends.
  f_equal. induction (hashIndices y self) as [|i l IH]; [reflexivity|].
  cbn [forallb]. rewrite IH.
  rewrite (insert_all_bits libm_pow BitHash keys self i Hready).
  rewrite (init_bit libm_pow _ _ _ _ i Hinit). reflexivity.
Qed.

(** X7.  On a filter fresh from the constructor, with a positive capacity,
    after the insertion of a list of keys the counter is the number of
    distinct derived indices of the keys. *)
Theorem fill_counts_distinct_indices numKeys numHashes rate keys self :
  __init__ numKeys numHashes rate = Return self ->
  0 < __size self ->
  __numBitsSet (after_all (map Insert keys) self) =
    Z.of_nat (length (remove_dups
                        (flat_map (fun key => hashIndices key self) keys))).
Proof.
  intros Hinit Hpos.
  pose proof (init_ready libm_pow BitHash _ _ _ _ Hinit Hpos) as Hready.
  assert (reachable (after_all (map Insert keys) self)) as Hreach.
  { assert (forall calls s, reachable s -> reachable (after_all calls s)) as H.
    { intros calls. induction calls as [|c calls IH]; intros s Hs; [exact Hs|].
      apply IH. apply reachable_call, Hs. }
    apply H. eapply reachable_init, Hinit. }
  destruct (reachable_counted libm_pow BitHash _ Hreach) as [_ ->].
  rewrite <- ones_length. f_equal. apply Permutation_length.
  apply NoDup_Permutation; [apply ones_NoDup | apply NoDup_remove_dups|].
  intros i. rewrite ones_spec, elem_of_remove_dups, <- bit_true.
  rewrite (insert_all_bits libm_pow BitHash keys self i Hready).
  rewrite (init_bit libm_pow _ _ _ _ i Hinit). cbn.
  apply bool_decide_eq_true.
Qed.

(** X8.  On every object the constructor returned, whatever was called on
    it since, [insert] and [find] raise in one case only: the capacity is 0
    and there is at least one hash.  They then raise [ZeroDivisionError]
    before any access to the bit array and leave the object as it was, and
    [falsePositiveRate] raises [ZeroDivisionError] as well. *)
Theorem raises_only_without_capacity self key :
  reachable self ->
  let degenerate := __size self = 0 /\ 0 < __numHashes self in
  (result (insert key self) = Return tt \/
   insert key self = Run (Raise ZeroDivisionError) self []) /\
  ((exists found, result (find key self) = Return found) \/
   find key self = Run (Raise ZeroDivisionError) self []) /\
  (insert key self = Run (Raise ZeroDivisionError) self [] <-> degenerate) /\
  (find key self = Run (Raise ZeroDivisionError) self [] <-> degenerate) /\
  (__size self = 0 ->
   result (falsePositiveRate self) = Raise ZeroDivisionError).
Proof.
  intros Hreach. cbn zeta.
  pose proof (reachable_counted libm_pow BitHash self Hreach) as [Hlen Hcnt].
  assert (0 <= __size self) as Hnonneg by lia.
  assert (__size self = 0 ->
          result (falsePositiveRate self) = Raise ZeroDivisionError) as Hrate.
  { intros Hzero. destruct self as [size bv numKeys numHashes rate set].
    cbn in *. subst size. destruct bv; [|discriminate]. cbn in Hcnt. subst set.
    reflexivity. }
  destruct (decide (0 < __size self)) as [Hpos|Hzero].
  - pose proof (reachable_ready libm_pow BitHash self Hreach Hpos) as Hready.
    destruct (insert_loop_ready BitHash key (Z.to_nat (__numHashes self)) 0 self
                Hready) as (Hins & _).
    cbn zeta in Hins. rewrite <- insert_eq in Hins.
    destruct (find_returns BitHash key self Hready) as [found Hfind].
    split; [left; exact Hins|]. split; [left; exists found; exact Hfind|].
    split; [|split; [|exact Hrate]].
    + split; [|intros []; lia].
      intros Hraise. rewrite Hraise in Hins. discriminate.
    + split; [|intros []; lia].
      intros Hraise. rewrite Hraise in Hfind. discriminate.
  - assert (__size self = 0) as Hz by lia.
    destruct (decide (0 < __numHashes self)) as [Hk|Hk].
    + assert (insert key self = Run (Raise ZeroDivisionError) self [] /\
              find key self = Run (Raise ZeroDivisionError) self []) as [Hi Hf].
      { rewrite insert_eq, find_eq.
        destruct (Z.to_nat (__numHashes self)) as [|m] eqn:Em; [lia|].
        rewrite insert_loop_step, find_loop_step, Hz. split; reflexivity. }
      split; [right; exact Hi|]. split; [right; exact Hf|].
      split; [tauto|]. split; [tauto | exact Hrate].
    + assert (insert key self = Run (Return tt) self [] /\
              find key self = Run (Return true) self []) as [Hi Hf].
      { rewrite insert_eq, find_eq.
        replace (Z.to_nat (__numHashes self)) with O by lia. split; reflexivity. }
      rewrite Hi, Hf.
      split; [left; reflexivity|]. split; [left; exists true; reflexivity|].
      split; [|split; [|exact Hrate]]; (split; [discriminate | intros []; lia]).
Qed.

(** X9.  The three queries change nothing, on any object and also when they
    raise: [find] only reads the bit array, [falsePositiveRate] and
    [numBitsSet] do not access it. *)
Theorem queries_change_nothing self key :
  final (find key self) = self /\
  writes (accesses (find key self)) = [] /\
  final (falsePositiveRate self) = self /\
  accesses (falsePositiveRate self) = [] /\
  final (numBitsSet self) = self /\
  accesses (numBitsSet self) = [].
Proof.
  repeat split.
  - apply find_final.
  - rewrite find_eq. apply find_loop_writes.
  - apply falsePositiveRate_final.
  - apply falsePositiveRate_accesses.
Qed.

(** X10.  A filter fresh from the constructor, with a positive capacity and
    at least one hash, is empty: [find] returns False for every key and
    [numBitsSet()] returns 0. *)
Theorem fresh_filter_is_empty numKeys numHashes rate self key :
  __init__ numKeys numHashes rate = Return self ->
  0 < __size self -> 0 < numHashes ->
  result (find key self) = Return false /\
  result (numBitsSet self) = Return 0 /\
  BitVector.count (__bv self) = 0.
Proof.
  intros Hinit Hpos Hk.
  pose proof (init_ready libm_pow BitHash _ _ _ _ Hinit Hpos) as Hready.
  destruct (init_fresh libm_pow _ _ _ _ Hinit) as (_ & Hbv & _ & Hhashes & _ & Hset).
  repeat split.
  - rewrite find_eq, Hhashes.
    destruct (Z.to_nat numHashes) as [|m] eqn:Em; [lia|].
    rewrite (find_loop_ready BitHash _ _ _ _ Hready).
    cbn [result BloomFilter.hashChain map forallb].
    rewrite (init_bit libm_pow _ _ _ _ _ Hinit). reflexivity.
  - unfold numBitsSet, attr. cbn. rewrite Hset. reflexivity.
  - rewrite Hbv. apply count_replicate_false.
Qed.

(** X11.  [__main] never reports a missing key.  If it returns, it has
    printed the projected rate, 0 for the number of missing keys, a number of
    falsely found keys between 0 and 100000, and that number divided by
    100000.  If it raises, it has printed nothing, or the projected rate and
    0 for the number of missing keys.  It returns exactly when the
    constructor returns a filter of capacity at least 1, the file opens, its
    first 200000 calls of [readline()] return, and [falsePositiveRate]
    returns on the filter once filled. *)
Theorem main_reports_no_missing (wordlist : outcome file) :
  let run := __main wordlist in
  match status run with
  | Return _ =>
      exists rate found actual,
        stdout run = [ProjectedRate rate; Missing 0; FalselyFound found;
                      ActualRate actual] /\
        0 <= found <= 100000 /\
        int_truediv found 100000 = Return actual
  | Raise _ =>
      stdout run = [] \/
      exists rate, stdout run = [ProjectedRate rate; Missing 0]
  end /\
  (status run = Return tt <->
   exists bf fin rate,
     __init__ 100000 4 0x1.999999999999ap-5%float = Return bf /\
     0 < __size bf /\
     wordlist = Return fin /\
     readable (Z.to_nat 200000) fin /\
     result (falsePositiveRate
               (final (insert_lines BitHash (Z.to_nat 100000) fin bf))) =
       Return rate).
Proof.
  cbn zeta. unfold BloomFilter.__main. cbn zeta.
  assert (forall fin : file,
            readable (Z.to_nat 200000) fin <->
            readable (Z.to_nat 100000) fin /\
            readable (Z.to_nat 100000) (drop (Z.to_nat 100000) fin)) as Hsplit.
  { intros fin. rewrite <- readable_add, <- Z2Nat.inj_add by lia. reflexivity. }
  destruct (__init__ 100000 4 _) as [bf|e] eqn:Hinit;
    [|split; [left; reflexivity | split; [discriminate | intros (?&?&?&[=]&_)]]].
  pose proof (init_fresh libm_pow _ _ _ _ Hinit) as (Hnonneg & _ & _ & Hk & _).
  destruct wordlist as [fin|e];
    [|split; [left; reflexivity |
              split; [discriminate | intros (?&?&?&_&_&[=]&_)]]].
  destruct (result (insert_lines BitHash _ fin bf)) as [[]|e] eqn:Hins.
  2:{ split; [left; reflexivity|]. split; [discriminate|].
      intros (bf' & fin' & rate & [= <-] & Hpos & [= <-] & [Hr _]%Hsplit & _).
      pose proof (insert_lines_ready BitHash (Z.to_nat 100000) fin bf
                    (init_ready libm_pow BitHash _ _ _ _ Hinit Hpos)) as H.
      rewrite Hins in H. contradiction. }
  assert (0 < __size bf) as Hpos.
  { pose proof (insert_lines_capacity BitHash _ fin bf Hins). lia. }
  pose proof (init_ready libm_pow BitHash _ _ _ _ Hinit Hpos) as Hready.
  pose proof (insert_lines_ready BitHash (Z.to_nat 100000) fin bf Hready) as Hr1.
  rewrite Hins in Hr1.
  destruct (result (falsePositiveRate _)) as [rate|e] eqn:Hrate.
  2:{ split; [left; reflexivity|]. split; [discriminate|].
      intros (bf' & fin' & rate & [= <-] & _ & [= <-] & _ & Hrate'). congruence. }
  rewrite falsePositiveRate_final.
  destruct (count_missing_after_insert_lines BitHash _ fin 0 bf _
              Hins (extends_refl _)) as [-> ->].
  pose proof (ready_extends _ _ Hready
                (insert_lines_extends BitHash (Z.to_nat 100000) fin bf))
    as Hready'.
  pose proof (count_false_finds_ready BitHash (Z.to_nat 100000)
                (drop (Z.to_nat 100000) fin) 0 _ Hready') as Hcf.
  destruct (result (count_false_finds BitHash _ _ 0 _)) as [found|e].
  2:{ split; [right; exists rate; reflexivity|]. split; [discriminate|].
      intros (bf' & fin' & rate' & _ & _ & [= <-] & [_ Hr]%Hsplit & _).
      contradiction. }
  destruct Hcf as [Hr2 Hfound].
  assert (0 <= found <= 100000) as Hrange by lia.
  destruct (int_truediv_numKeys found Hrange) as [actual Hdiv].
  rewrite Hdiv. cbn [status stdout app]. split.
  - exists rate, found, actual. auto.
  - split; [|reflexivity]. intros _. exists bf, fin, rate.
    rewrite Hsplit. repeat split; try reflexivity; assumption.
Qed.

End FurtherProperties.

(** ** The further properties on concrete filters *)

(** X4 on the sample filter: after "cat" and "dog", whose indices are 3, 0
    and 1, 4, the bit at 4 is set and the bit at 2 is not. *)
Lemma inserts_set_the_derived_bits_witness :
  (bit (after_all samplePow sampleHash (map Insert ["cat"; "dog"]%string)
          sampleFilter) 4 = true <->
   bit sampleFilter 4 = true \/
   exists key, key ∈ ["cat"; "dog"]%string /\ 4 ∈ hashIndices sampleHash key sampleFilter) /\
  bit (after_all samplePow sampleHash (map Insert ["cat"; "dog"]%string)
         sampleFilter) 2 = false.
Proof.
  split; [|vm_compute; reflexivity].
  apply (inserts_set_the_derived_bits samplePow sampleHash
           ["cat"; "dog"]%string sampleFilter 4).
  exact sampleFilter_ready.
Defined.

(** X5 on the sample filter: "cat" then "dog", or "dog" then "cat". *)
Lemma inserts_commute_witness :
  after_all samplePow sampleHash (map Insert ["cat"; "dog"]%string) sampleFilter =
  after_all samplePow sampleHash (map Insert ["dog"; "cat"]%string) sampleFilter.
Proof.
  apply (inserts_commute samplePow sampleHash).
  - exact sampleFilter_ready.
  - apply perm_swap.
Defined.

(** X6 on the sample filter: after "cat", "dog" and "emu" the indices 3 and 4
    of "bee" are taken, the index 5 of "owl" is not. *)
Lemma find_after_inserts_witness :
  result (find sampleHash "bee"
            (after_all samplePow sampleHash
               (map Insert ["cat"; "dog"; "emu"]%string) sampleFilter)) =
    Return true /\
  result (find sampleHash "owl"
            (after_all samplePow sampleHash
               (map Insert ["cat"; "dog"; "emu"]%string) sampleFilter)) =
    Return false.
Proof.
  split.
  - rewrite (find_after_inserts samplePow sampleHash 2 2 0.25
               ["cat"; "dog"; "emu"]%string "bee" sampleFilter);
      vm_compute; reflexivity.
  - rewrite (find_after_inserts samplePow sampleHash 2 2 0.25
               ["cat"; "dog"; "emu"]%string "owl" sampleFilter);
      vm_compute; reflexivity.
Defined.

(** X7 on the sample filter: "cat", "dog" and "emu" have six indices, four of
    them distinct. *)
Lemma fill_counts_distinct_indices_witness :
  __numBitsSet (after_all samplePow sampleHash
                  (map Insert ["cat"; "dog"; "emu"]%string) sampleFilter) = 4.
Proof.
  rewrite (fill_counts_distinct_indices samplePow sampleHash 2 2 0.25
             ["cat"; "dog"; "emu"]%string sampleFilter);
    vm_compute; reflexivity.
Defined.

Lemma degenerateFilter_reachable :
  reachable samplePow sampleHash degenerateFilter.
Proof. apply (reachable_init samplePow sampleHash 1 1 infinity). reflexivity. Defined.

(** X8 on the filter of capacity 0 and on the sample filter. *)
Lemma raises_only_without_capacity_witness :
  insert sampleHash "cat" degenerateFilter =
    Run (Raise ZeroDivisionError) degenerateFilter [] /\
  result (falsePositiveRate samplePow degenerateFilter) = Raise ZeroDivisionError /\
  result (insert sampleHash "cat" sampleFilter) = Return tt.
Proof.
  destruct (raises_only_without_capacity samplePow sampleHash degenerateFilter
              "cat" degenerateFilter_reachable) as (_ & _ & Hins & _ & Hrate).
  destruct (raises_only_without_capacity samplePow sampleHash sampleFilter
              "cat" sampleFilter_reachable) as ([Hret|Hraise] & _).
  - split; [apply Hins; split; reflexivity|].
    split; [apply Hrate; reflexivity | exact Hret].
  - vm_compute in Hraise. discriminate Hraise.
Defined.

(** X10 on the sample filter. *)
Lemma fresh_filter_is_empty_witness :
  result (find sampleHash "cat" sampleFilter) = Return false /\
  result (numBitsSet sampleFilter) = Return 0 /\
  BitVector.count (__bv sampleFilter) = 0.
Proof.
  apply (fresh_filter_is_empty samplePow sampleHash 2 2 0.25 sampleFilter "cat");
    vm_compute; reflexivity.
Defined.
